(** * Dynamic query specification engine: filters, sorting, selection trees

    A shallow embedding of the query helpers of [api/utils/query_parser.py],
    [api/utils/utils_bd.py] and [api/utils/crud_utils.py], followed by the
    properties established for them.

    Conventions of the embedding:
    - a Python [str] is a [string] whose characters are code points below
      256 (Latin-1); [str.lower], [str.strip] and [str.isspace] are written
      out for that range;
    - a Python [dict] that is iterated is an insertion-ordered association
      list ([odict]); a [dict] or [set] that is only probed is a [gmap] or a
      [gset];
    - an exception is a value of type [exn]; a function that may raise
      returns [exn + A];
    - SQLAlchemy expression objects (predicates, ordering expressions,
      loader options) are free constructors: nothing is known about them
      beyond how they were built.  Building a comparison can fail; whether
      it does is SQLAlchemy's answer, a parameter of the functions that
      build comparisons;
    - a [Select] is the record of the builder calls made on it, in call
      order; the joins of the statement compiled from it are computed from
      that record. *)

From Stdlib Require Import Ascii String NArith ZArith.
From Stdlib Require QArith Qround.
From stdpp Require Import base option strings list gmap pretty.

Open Scope string_scope.
Open Scope list_scope.

(** ** Python strings *)

Module PyStr.

Definition newline : ascii := Ascii.ascii_of_N 10.

Definition in_range (lo hi n : N) : bool := ((lo <=? n) && (n <=? hi))%N.

(** [str.isspace] on one character. *)
Definition isspace (c : ascii) : bool :=
  let n := N_of_ascii c in
  in_range 9 13 n || in_range 28 32 n || (n =? 133)%N || (n =? 160)%N.

(** [str.lower] on one character. *)
Definition lower_char (c : ascii) : ascii :=
  let n := N_of_ascii c in
  if in_range 65 90 n || (in_range 192 222 n && negb (n =? 215)%N)
  then ascii_of_N (n + 32) else c.

Fixpoint lower (s : string) : string :=
  match s with
  | EmptyString => EmptyString
  | String c s' => String (lower_char c) (lower s')
  end.

Definition is_empty (s : string) : bool :=
  match s with EmptyString => true | _ => false end.

Fixpoint lstrip (s : string) : string :=
  match s with
  | EmptyString => EmptyString
  | String c s' => if isspace c then lstrip s' else s
  end.

Fixpoint rstrip (s : string) : string :=
  match s with
  | EmptyString => EmptyString
  | String c s' =>
      let r := rstrip s' in
      if isspace c && is_empty r then EmptyString else String c r
  end.

Definition strip (s : string) : string := rstrip (lstrip s).

(** [s.split(sep)] for a one-character separator: never the empty list. *)
Fixpoint split (sep : ascii) (s : string) : list string :=
  match s with
  | EmptyString => [EmptyString]
  | String c s' =>
      if Ascii.eqb c sep then EmptyString :: split sep s'
      else match split sep s' with
           | [] => [String c EmptyString]
           | h :: t => String c h :: t
           end
  end.

(** [c in s] for a one-character needle. *)
Fixpoint contains_char (c : ascii) (s : string) : bool :=
  match s with
  | EmptyString => false
  | String a s' => Ascii.eqb a c || contains_char c s'
  end.

(** Removes a literal prefix, as a regular expression consumes a literal. *)
Fixpoint strip_prefix (p s : string) : option string :=
  match p with
  | EmptyString => Some s
  | String a p' =>
      match s with
      | String b s' => if Ascii.eqb a b then strip_prefix p' s' else None
      | EmptyString => None
      end
  end.

Definition startswith (s p : string) : bool :=
  match strip_prefix p s with Some _ => true | None => false end.

(** Splits off the last character. *)
Fixpoint unsnoc (s : string) : option (string * ascii) :=
  match s with
  | EmptyString => None
  | String c s' =>
      match unsnoc s' with
      | None => Some (EmptyString, c)
      | Some (body, last) => Some (String c body, last)
      end
  end.

Fixpoint forall_char (p : ascii -> bool) (s : string) : bool :=
  match s with
  | EmptyString => true
  | String c s' => p c && forall_char p s'
  end.

(** The regular-expression dot: any character but a newline. *)
Definition re_dot (c : ascii) : bool := negb (Ascii.eqb c newline).

(** The class [[a-zA-Z0-9_]]. *)
Definition re_word (c : ascii) : bool :=
  let n := N_of_ascii c in
  in_range 97 122 n || in_range 65 90 n || in_range 48 57 n || (n =? 95)%N.

(** [[item.strip() for item in s.split(',') if item.strip()]] *)
Definition split_strip_nonempty (s : string) : list string :=
  filter (fun t => is_empty t = false) (map strip (split "," s)).

End PyStr.

(** ** Insertion-ordered dictionaries *)

Definition odict (V : Type) : Type := list (string * V).

Fixpoint od_get {V} (d : odict V) (k : string) : option V :=
  match d with
  | [] => None
  | (k', v) :: d' => if String.eqb k' k then Some v else od_get d' k
  end.

(** [d[k] = v]: an existing key keeps its position, a new key goes last. *)
Fixpoint od_set {V} (d : odict V) (k : string) (v : V) : odict V :=
  match d with
  | [] => [(k, v)]
  | (k', v') :: d' =>
      if String.eqb k' k then (k, v) :: d' else (k', v') :: od_set d' k v
  end.

Definition od_mem {V} (d : odict V) (k : string) : bool :=
  match od_get d k with Some _ => true | None => false end.

(** ** Values carried by filters *)

#[warnings="-register-all"]
Inductive pyval : Type :=
| VNone
| VBool (b : bool)
| VStr (s : string)
| VInt (z : Z)
| VList (items : list pyval).

Definition truthy_words : list string := ["true"; "yes"; "1"; "on"].

Definition str_in (s : string) (l : list string) : bool :=
  existsb (String.eqb s) l.

(** [_parse_bool] (the same body in utils_bd.py and crud_utils.py). *)
Definition _parse_bool (value : pyval) : bool :=
  match value with
  | VBool b => b
  | VStr s => str_in (PyStr.lower s) truthy_words
  | VNone => false
  | VInt z => negb (z =? 0)%Z
  | VList items => match items with [] => false | _ => true end
  end.

(** [_parse_filter_value] (the same body in query_parser.py and utils_bd.py). *)
Definition _parse_filter_value (value : string) : pyval :=
  let value_lower := PyStr.lower value in
  if str_in value_lower ["true"; "yes"; "on"; "1"] then VBool true
  else if str_in value_lower ["false"; "no"; "off"; "0"] then VBool false
  else if str_in value_lower ["null"; "none"] then VNone
  else VStr value.

(** ** The filter grammar: [filter[<field>][<operator>]] *)

(** The tail [(.+?)\]] of [FILTER_PATTERN] under [fullmatch]: the lazy group
    grows until the closing bracket it stops at is the last character. *)
Definition fp_last_group (s : string) : option string :=
  match PyStr.unsnoc s with
  | Some (g, c) =>
      if Ascii.eqb c "]" && negb (PyStr.is_empty g) && PyStr.forall_char PyStr.re_dot g
      then Some g else None
  | None => None
  end.

(** The first lazy group: tried at every length from one upwards, the
    shortest one after which the rest of the pattern matches wins. *)
Fixpoint fp_first_group (g1 s : string) : option (string * string) :=
  match s with
  | EmptyString => None
  | String c s' =>
      let here :=
        if PyStr.is_empty g1 then None
        else match PyStr.strip_prefix "][" s with
             | Some t => match fp_last_group t with
                         | Some g2 => Some (g1, g2)
                         | None => None
                         end
             | None => None
             end in
      match here with
      | Some r => Some r
      | None => if PyStr.re_dot c then fp_first_group (g1 +:+ String c EmptyString) s'
                else None
      end
  end.

(** [FILTER_PATTERN.fullmatch(key)], giving [(group(1), group(2))]. *)
Definition FILTER_PATTERN_fullmatch (key : string) : option (string * string) :=
  match PyStr.strip_prefix "filter[" key with
  | Some t => fp_first_group EmptyString t
  | None => None
  end.

(** The records [parse_filters] hands to its logger, one constructor per
    call site. *)
Inductive log_record : Type :=
| LogParsing
| LogEmptyFieldOrOperator (key : string)
| LogOverwrite (field operator raw : string) (previous : pyval)
| LogParsedFilter (field operator : string) (parsed : pyval) (raw : string)
| LogNotAFilter (key : string)
| LogNoFilters
| LogFilters (filters : odict (odict pyval)).

(** The records logged at level WARNING; the others are DEBUG or INFO. *)
Definition is_warning (r : log_record) : bool :=
  match r with
  | LogEmptyFieldOrOperator _ | LogOverwrite _ _ _ _ => true
  | _ => false
  end.

Record pf_state : Type := mk_pf_state {
  pf_filters : odict (odict pyval);
  pf_processed_keys : gset string;
  pf_log : list log_record
}.

Definition pf_init : pf_state :=
  mk_pf_state [] ∅ [LogParsing].

(** One turn of the loop over [query_params.multi_items()]. *)
Definition pf_step (st : pf_state) (item : string * string) : pf_state :=
  let '(key, value) := item in
  if bool_decide (key ∈ pf_processed_keys st) then st
  else
    match FILTER_PATTERN_fullmatch key with
    | Some (field_specifier, g2) =>
        let operator := PyStr.lower g2 in
        if PyStr.is_empty field_specifier || PyStr.is_empty operator then
          mk_pf_state (pf_filters st) (pf_processed_keys st)
            (pf_log st ++ [LogEmptyFieldOrOperator key])
        else
          let parsed_value := _parse_filter_value value in
          let filters1 :=
            if od_mem (pf_filters st) field_specifier then pf_filters st
            else od_set (pf_filters st) field_specifier [] in
          let inner := default [] (od_get filters1 field_specifier) in
          let warn :=
            match od_get inner operator with
            | Some previous => [LogOverwrite field_specifier operator value previous]
            | None => []
            end in
          mk_pf_state
            (od_set filters1 field_specifier (od_set inner operator parsed_value))
            ({[key]} ∪ pf_processed_keys st)
            (pf_log st ++ warn
               ++ [LogParsedFilter field_specifier operator parsed_value value])
    | None =>
        mk_pf_state (pf_filters st) (pf_processed_keys st)
          (pf_log st ++ [LogNotAFilter key])
    end.

Definition pf_loop (query_params : list (string * string)) : pf_state :=
  foldl pf_step pf_init query_params.

(** [parse_filters]: the filter map, and the log records it emitted. *)
Definition parse_filters (query_params : list (string * string))
  : odict (odict pyval) * list log_record :=
  let st := pf_loop query_params in
  (pf_filters st,
   pf_log st ++ [match pf_filters st with
                 | [] => LogNoFilters
                 | _ => LogFilters (pf_filters st)
                 end]).

(** [filters[field][operator]] of a nested filter map. *)
Definition filter_value (filters : odict (odict pyval)) (field operator : string)
  : option pyval :=
  match od_get filters field with
  | Some inner => od_get inner operator
  | None => None
  end.

(** ** The schema registry *)

(** What [getattr(Model, name)] gives for a mapped class: the class-bound
    attribute, named by its class and key. *)
Record InstrumentedAttribute : Type := mk_attr {
  attr_class : string;
  attr_key : string
}.

(** A relationship of [rel_parent] called [rel_key], leading to
    [rel_target] (its [mapper.class_]).  Relations maps and lists of hops
    hold relationships with the type the helpers declare for them,
    [RelationshipProperty]; a relations map whose entries are the class
    attributes themselves, on which utils_bd.py cannot read
    [.class_attribute], is outside the embedding. *)
Record RelationshipProperty : Type := mk_rel {
  rel_parent : string;
  rel_key : string;
  rel_target : string
}.

(** [rel_prop.class_attribute] *)
Definition class_attribute (r : RelationshipProperty) : InstrumentedAttribute :=
  mk_attr (rel_parent r) (rel_key r).

#[global] Instance InstrumentedAttribute_eq_dec : EqDecision InstrumentedAttribute.
Proof. solve_decision. Defined.

#[global] Instance RelationshipProperty_eq_dec : EqDecision RelationshipProperty.
Proof. solve_decision. Defined.

#[global] Instance RelationshipProperty_countable : Countable RelationshipProperty.
Proof.
  refine (inj_countable'
            (fun r => (rel_parent r, rel_key r, rel_target r))
            (fun t => mk_rel t.1.1 t.1.2 t.2) _).
  intros []; reflexivity.
Defined.

(** The kinds of attribute a model class can have:
    - [AColumn]: an [InstrumentedAttribute] whose property is not a relationship;
    - [ARelationship t]: one whose property is a relationship to [t];
    - [AUnmapped]: an attribute with no [.property] (a method, [metadata]);
    - [AForeign]: an object with a [.property] that is not an
      [InstrumentedAttribute]. *)
Inductive attr_kind : Type :=
| AColumn
| ARelationship (target : string)
| AUnmapped
| AForeign.

(** Class name to attribute name to kind. *)
Definition schema : Type := odict (odict attr_kind).

Definition getattr (sch : schema) (model part : string) : option attr_kind :=
  match od_get sch model with
  | Some attrs => od_get attrs part
  | None => None
  end.

(** [sa_inspect(model_cls).relationships], in declaration order. *)
Definition mapper_relationships (sch : schema) (model : string)
  : list RelationshipProperty :=
  omap (fun '(name, kind) =>
          match kind with
          | ARelationship target => Some (mk_rel model name target)
          | _ => None
          end)
       (default [] (od_get sch model)).

(** The relations map the resolver asks its caller for: the entry
    [name: Model.name.property] for each relationship of the entity. *)
Definition property_map (sch : schema) (model_cls : string)
  : gmap string RelationshipProperty :=
  list_to_map (map (fun r => (rel_key r, r)) (mapper_relationships sch model_cls)).

(** ** Exceptions *)

(** The comparisons the operator table builds with SQLAlchemy. *)
Inductive sql_op : Type :=
| OpEq | OpNe | OpLt | OpLe | OpGt | OpGe | OpIn | OpNotIn
| OpLike | OpILike | OpContains | OpStartswith | OpEndswith.

(** [ExpressionError op c v] is whatever SQLAlchemy raises when it refuses
    to build the comparison [op] of column [c] with [v] (an [ArgumentError],
    a [NotImplementedError]); the other constructors are the exceptions the
    helpers raise themselves. *)
Inductive exn : Type :=
| NoSuchAttribute (model part field_specifier : string)
| RelationshipAsTerminal (part field_specifier : string)
| UnmappedBaseRelationship (part model : string)
| ColumnNotLast (part field_specifier : string)
| UnexpectedAttributeType (part field_specifier : string)
| UnresolvedAttribute (field_specifier : string)
| AttributeError (model part : string)
| InvalidOperator (op_code field_specifier : string)
| InOperandNotList (op_code field_specifier : string)
| FilterApplyError (op_code : string) (value : pyval) (field_specifier : string)
    (cause : exn)
| InvalidSortDirection (sort_dir : string)
| InvalidIncludes (invalid : list string)
| ExpressionError (op : sql_op) (c : InstrumentedAttribute) (v : pyval).

(** Every exception but [AttributeError] and [ExpressionError] is raised as
    a [ValueError]. *)
Definition is_ValueError (e : exn) : bool :=
  match e with
  | AttributeError _ _ | ExpressionError _ _ _ => false
  | _ => true
  end.

#[global] Instance exn_ret : MRet (sum exn) := fun _ a => inr a.
#[global] Instance exn_bind : MBind (sum exn) := fun _ _ f m =>
  match m with inl e => inl e | inr a => f a end.

Definition raise {A} (e : exn) : exn + A := inl e.


(** A loop whose body may raise: the first exception ends it. *)
Fixpoint for_each {A B} (body : A -> B -> exn + A) (acc : A) (l : list B)
  : exn + A :=
  match l with
  | [] => inr acc
  | x :: l' => acc' ← body acc x; for_each body acc' l'
  end.

(** ** Path resolution *)

Section Resolve.
Context (sch : schema) (model_cls : string) (field_specifier : string)
        (relations_map : gmap string RelationshipProperty).

(** The loop of [_get_column_or_relationship] from index [i] on.  The
    result is [(target_attribute, current_model, joins_needed)] as they
    stand when the loop is left. *)
Fixpoint resolve_loop (i : nat) (parts : list string) (current_model : string)
         (joins_needed : list RelationshipProperty)
  : exn + (option InstrumentedAttribute * string * list RelationshipProperty) :=
  match parts with
  | [] => inr (None, current_model, joins_needed)
  | part :: rest =>
      let is_last := match rest with [] => true | _ => false end in
      match getattr sch current_model part with
      | None => raise (NoSuchAttribute current_model part field_specifier)
      | Some AUnmapped => raise (AttributeError current_model part)
      | Some (ARelationship target) =>
          if is_last then raise (RelationshipAsTerminal part field_specifier)
          else
            match i with
            | O =>
                match relations_map !! part with
                | None => raise (UnmappedBaseRelationship part model_cls)
                | Some r => resolve_loop (S i) rest target (joins_needed ++ [r])
                end
            | S _ =>
                resolve_loop (S i) rest target
                  (joins_needed ++ [mk_rel current_model part target])
            end
      | Some AColumn =>
          if negb is_last then raise (ColumnNotLast part field_specifier)
          else inr (Some (mk_attr current_model part), current_model, joins_needed)
      | Some AForeign => raise (UnexpectedAttributeType part field_specifier)
      end
  end.

(** [_get_column_or_relationship]; utils_bd.py and crud_utils.py have the
    same control flow and differ in message texts only. *)
Definition _get_column_or_relationship
  : exn + (InstrumentedAttribute * string * list RelationshipProperty) :=
  r ← resolve_loop 0 (PyStr.split "." field_specifier) model_cls [];
  match r with
  | (Some target_attribute, current_model, joins_needed) =>
      inr (target_attribute, current_model, joins_needed)
  | (None, _, _) => raise (UnresolvedAttribute field_specifier)
  end.
End Resolve.

(** ** Predicates, loader options and the query under construction *)

Inductive predicate : Type :=
| PBin (op : sql_op) (c : InstrumentedAttribute) (v : pyval)
| PIsNull (c : InstrumentedAttribute)
| PIsNotNull (c : InstrumentedAttribute).

(** What SQLAlchemy does when a lambda of the operator table asks it for a
    comparison: [raises op c v] says that building [op] on column [c] with
    operand [v] raises instead of returning an expression.  It does so, for
    one, for an ordering or a pattern match against [None], [True] or
    [False], and for [contains] on a column of the base [ARRAY] type. *)
Definition sqlalchemy : Type := sql_op -> InstrumentedAttribute -> pyval -> bool.

(** A comparison built through the column's comparator. *)
Definition compare (op : sql_op) (raises : sqlalchemy)
           (c : InstrumentedAttribute) (v : pyval) : exn + predicate :=
  if raises op c v then inl (ExpressionError op c v) else inr (PBin op c v).

(** [c.in_(v)] and [c.notin_(v)] on a list, [c.is_(None)] and
    [c.is_not(None)] are always built. *)
Definition OPERATOR_MAP
  : odict (sqlalchemy -> InstrumentedAttribute -> pyval -> exn + predicate) :=
  [ ("eq", compare OpEq); ("neq", compare OpNe); ("lt", compare OpLt);
    ("lte", compare OpLe); ("gt", compare OpGt); ("gte", compare OpGe);
    ("in", fun _ c v => inr (PBin OpIn c v));
    ("notin", fun _ c v => inr (PBin OpNotIn c v));
    ("like", compare OpLike); ("ilike", compare OpILike);
    ("isnull", fun _ c v => inr (if _parse_bool v then PIsNull c else PIsNotNull c));
    ("contains", compare OpContains); ("startswith", compare OpStartswith);
    ("endswith", compare OpEndswith) ].

Inductive load_option : Type :=
| selectinload (a : InstrumentedAttribute)
| noload (a : InstrumentedAttribute)
| with_loader_criteria (a : InstrumentedAttribute) (p : predicate).

Inductive order_expr : Type :=
| asc (c : InstrumentedAttribute)
| desc (c : InstrumentedAttribute).

(** A [Select]: the [join], [where], [options] and [order_by] calls made on
    it, each list in call order.  [join] records its target and [isouter]. *)
Record Select : Type := mk_select {
  q_joins : list (InstrumentedAttribute * bool);
  q_where : list predicate;
  q_options : list load_option;
  q_order_by : list order_expr
}.

Definition empty_select : Select := mk_select [] [] [] [].

Definition q_join (q : Select) (a : InstrumentedAttribute) (isouter : bool) : Select :=
  mk_select (q_joins q ++ [(a, isouter)]) (q_where q) (q_options q) (q_order_by q).

Definition q_add_where (q : Select) (p : predicate) : Select :=
  mk_select (q_joins q) (q_where q ++ [p]) (q_options q) (q_order_by q).

Definition q_add_options (q : Select) (os : list load_option) : Select :=
  mk_select (q_joins q) (q_where q) (q_options q ++ os) (q_order_by q).

Definition q_add_order_by (q : Select) (o : order_expr) : Select :=
  mk_select (q_joins q) (q_where q) (q_options q) (q_order_by q ++ [o]).

Definition is_list (v : pyval) : bool :=
  match v with VList _ => true | _ => false end.

(** The operand of [in] / [notin]: a list is kept, a string is split on
    commas, anything else is refused (both modules). *)
Definition coerce_operand (op_code field_specifier : string) (value : pyval)
  : exn + pyval :=
  if str_in (PyStr.lower op_code) ["in"; "notin"] && negb (is_list value) then
    match value with
    | VStr s => inr (VList (map VStr (PyStr.split_strip_nonempty s)))
    | _ => raise (InOperandNotList op_code field_specifier)
    end
  else inr value.

(** ** utils_bd.py: filters and sorting *)

Module UtilsBd.

Section Filters.
(** Python's builtin [str], used only to key the loader criteria already
    attached. *)
Context (py_str : pyval -> string).
Context (raises : sqlalchemy).
Context (sch : schema) (model_cls : string)
        (relations_map : gmap string RelationshipProperty).

Record af_state : Type := mk_af_state {
  af_query : Select;
  already_joined_relationships_for_where : gset RelationshipProperty;
  applied_loader_criteria_options : gset (string * string * string * string)
}.

(** One turn of the loop over [joins_path_properties]. *)
Definition join_step (st : af_state) (rel_prop : RelationshipProperty) : af_state :=
  if bool_decide (rel_prop ∈ already_joined_relationships_for_where st) then st
  else mk_af_state
         (q_join (af_query st) (class_attribute rel_prop) true)
         ({[rel_prop]} ∪ already_joined_relationships_for_where st)
         (applied_loader_criteria_options st).

(** One turn of the loop over [operators.items()].  Whatever is raised
    inside the [try] comes out wrapped in a [ValueError] that quotes [value]
    as it stands at that point. *)
Definition operator_step (field_specifier : string)
           (target_column : InstrumentedAttribute)
           (joins_path_properties : list RelationshipProperty)
           (st : af_state) (item : string * pyval) : exn + af_state :=
  let '(op_code, _original_value) := item in
  match od_get OPERATOR_MAP (PyStr.lower op_code) with
  | None => raise (InvalidOperator op_code field_specifier)
  | Some op_func =>
      match coerce_operand op_code field_specifier _original_value with
      | inl e => raise (FilterApplyError op_code _original_value field_specifier e)
      | inr value =>
          match op_func raises target_column value with
          | inl e => raise (FilterApplyError op_code value field_specifier e)
          | inr filter_expression_for_where =>
              let query := q_add_where (af_query st) filter_expression_for_where in
              let joined := already_joined_relationships_for_where st in
              let applied := applied_loader_criteria_options st in
              match joins_path_properties with
              | [] => inr (mk_af_state query joined applied)
              | first_relationship_property_in_path :: _ =>
                  if bool_decide (attr_class target_column
                                  = rel_target first_relationship_property_in_path)
                  then
                    match op_func raises target_column value with
                    | inl e => raise (FilterApplyError op_code value field_specifier e)
                    | inr loader_criteria_expression =>
                        let option_key :=
                          (rel_key first_relationship_property_in_path,
                           attr_key target_column, op_code, py_str _original_value) in
                        if bool_decide (option_key ∈ applied)
                        then inr (mk_af_state query joined applied)
                        else inr (mk_af_state
                                    (q_add_options query
                                       [with_loader_criteria
                                          (class_attribute
                                             first_relationship_property_in_path)
                                          loader_criteria_expression])
                                    joined ({[option_key]} ∪ applied))
                    end
                  else inr (mk_af_state query joined applied)
              end
          end
      end
  end.

(** One turn of the loop over [filter_params.items()]. *)
Definition field_step (st : af_state) (item : string * odict pyval)
  : exn + af_state :=
  let '(field_specifier, operators) := item in
  r ← _get_column_or_relationship sch model_cls field_specifier relations_map;
  let '(target_column, _, joins_path_properties) := r in
  for_each (operator_step field_specifier target_column joins_path_properties)
           (foldl join_step st joins_path_properties) operators.

Definition apply_filters_from (st : af_state)
           (filter_params : odict (odict pyval)) : exn + af_state :=
  for_each field_step st filter_params.

(** [apply_filters]; [filter_params] has its declared type, a dictionary
    of dictionaries. *)
Definition apply_filters (query : Select) (filter_params : odict (odict pyval))
  : exn + Select :=
  st ← apply_filters_from (mk_af_state query ∅ ∅) filter_params;
  mret (af_query st).
End Filters.

Section Sorting.
Context (sch : schema) (model_cls : string)
        (relations_map : gmap string RelationshipProperty).

(** [not sort_by] *)
Definition no_sort (sort_by : option string) : bool :=
  match sort_by with
  | None => true
  | Some s => PyStr.is_empty s
  end.

(** [sort_dir.lower() if sort_dir else "asc"] *)
Definition direction_of (sort_dir : option string) : string :=
  match sort_dir with
  | None => "asc"
  | Some d => if PyStr.is_empty d then "asc" else PyStr.lower d
  end.

Definition apply_sorting (query : Select) (sort_by sort_dir : option string)
  : exn + Select :=
  if no_sort sort_by then inr query
  else
    let sort_by := default "" sort_by in
    let direction := direction_of sort_dir in
    if negb (str_in direction ["asc"; "desc"])
    then raise (InvalidSortDirection (default "" sort_dir))
    else
      r ← _get_column_or_relationship sch model_cls sort_by relations_map;
      let '(target_column, _, joins_to_apply) := r in
      let query :=
        foldl (fun q rel_prop => q_join q (class_attribute rel_prop) true)
              query joins_to_apply in
      let order_func := if String.eqb direction "asc" then asc else desc in
      inr (q_add_order_by query (order_func target_column)).
End Sorting.

End UtilsBd.

(** ** crud_utils.py: filters and sorting *)

Module CrudUtils.

Section Filters.
Context (raises : sqlalchemy).
Context (sch : schema) (model_cls : string)
        (relations_map : gmap string RelationshipProperty).

(** [applied_joins] is filled in but never read: the test on it is
    commented out in the source. *)
Record af_state : Type := mk_af_state {
  af_query : Select;
  applied_joins : gset RelationshipProperty
}.

(** [query.join(rel_prop, isouter=True)]: crud_utils.py hands [join] the
    hop itself; the call is recorded by the class attribute of the
    relationship it joins. *)
Definition join_step (st : af_state) (rel_prop : RelationshipProperty) : af_state :=
  mk_af_state (q_join (af_query st) (class_attribute rel_prop) true)
              ({[rel_prop]} ∪ applied_joins st).

Definition operator_step (field_specifier : string)
           (target_column : InstrumentedAttribute)
           (st : af_state) (item : string * pyval) : exn + af_state :=
  let '(op_code, value) := item in
  match od_get OPERATOR_MAP (PyStr.lower op_code) with
  | None => raise (InvalidOperator op_code field_specifier)
  | Some op_func =>
      match coerce_operand op_code field_specifier value with
      | inl e => raise (FilterApplyError op_code value field_specifier e)
      | inr value' =>
          match op_func raises target_column value' with
          | inl e => raise (FilterApplyError op_code value' field_specifier e)
          | inr filter_expression =>
              inr (mk_af_state (q_add_where (af_query st) filter_expression)
                               (applied_joins st))
          end
      end
  end.

Definition field_step (st : af_state) (item : string * odict pyval)
  : exn + af_state :=
  let '(field_specifier, operators) := item in
  r ← _get_column_or_relationship sch model_cls field_specifier relations_map;
  let '(target_column, _, joins_to_apply) := r in
  for_each (operator_step field_specifier target_column)
           (foldl join_step st joins_to_apply) operators.

Definition apply_filters_from (st : af_state)
           (filter_params : odict (odict pyval)) : exn + af_state :=
  for_each field_step st filter_params.

Definition apply_filters (query : Select) (filter_params : odict (odict pyval))
  : exn + Select :=
  st ← apply_filters_from (mk_af_state query ∅) filter_params;
  mret (af_query st).

(** [apply_sorting]: the same statements as in utils_bd.py. *)
Definition apply_sorting (query : Select) (sort_by sort_dir : option string)
  : exn + Select :=
  UtilsBd.apply_sorting sch model_cls relations_map query sort_by sort_dir.
End Filters.

End CrudUtils.

(** ** The data model of the repository ([api/v1/_database/models.py])

    The columns and relationships of each mapped class, followed by
    attributes that [hasattr] finds on a declarative class and that are not
    mapped: they have no [.property].  The list of the latter holds the
    ones a request is likely to name and is not exhaustive. *)

Definition BaseModel_columns : odict attr_kind :=
  [ ("id", AColumn); ("created_at", AColumn); ("updated_at", AColumn);
    ("flg_ativo", AColumn); ("flg_excluido", AColumn) ].

Definition declarative_attributes : odict attr_kind :=
  map (fun name => (name, AUnmapped))
      [ "__repr__"; "__init__"; "metadata"; "registry"; "__table__";
        "__tablename__"; "__mapper__"; "__class__"; "__dict__"; "__doc__";
        "__module__" ].

Definition models : schema :=
  [ ("Usuario",
     BaseModel_columns ++
     [ ("nome", AColumn); ("email", AColumn); ("senha", AColumn);
       ("permissoes", AColumn); ("web_links", ARelationship "WebLink") ]
     ++ declarative_attributes);
    ("PasswordResetToken",
     BaseModel_columns ++
     [ ("usuario_id", AColumn); ("token", AColumn); ("expires_at", AColumn);
       ("used", AColumn); ("usuario", ARelationship "Usuario") ]
     ++ declarative_attributes);
    ("WebLink",
     BaseModel_columns ++
     [ ("weblink", AColumn); ("title", AColumn); ("resumo", AColumn);
       ("usuario_id", AColumn); ("usuario", ARelationship "Usuario") ]
     ++ declarative_attributes);
    ("Conhecimento",
     [ ("id", AColumn); ("title", AColumn); ("context", AColumn);
       ("content", AColumn); ("embedding", AColumn) ]
     ++ declarative_attributes) ].

(** What SQLAlchemy answers on these columns: it builds no ordering and no
    pattern match against [None], [True] or [False], and no [contains] on
    [Usuario.permissoes], the one column of the base [ARRAY] type. *)
Definition models_sqlalchemy : sqlalchemy := fun op c v =>
  match op with
  | OpEq | OpNe | OpIn | OpNotIn => false
  | _ =>
      match v with
      | VNone | VBool _ => true
      | _ =>
          match op with
          | OpContains => bool_decide (c = mk_attr "Usuario" "permissoes")
          | _ => false
          end
      end
  end.

(** ** The selection tree ([parse_select_fields_for_pydantic]) *)

(** A node is [True] or a dictionary of nodes. *)
#[warnings="-register-all"]
Inductive sel_tree : Type :=
| STrue
| SDict (d : list (string * sel_tree)).

(** [list_part_regex.fullmatch(part)] for [\[([a-zA-Z0-9_]+)\]], giving
    [group(1)]. *)
Definition list_part_fullmatch (part : string) : option string :=
  match PyStr.strip_prefix "[" part with
  | Some rest =>
      match PyStr.unsnoc rest with
      | Some (name, c) =>
          if Ascii.eqb c "]" && negb (PyStr.is_empty name)
             && PyStr.forall_char PyStr.re_word name
          then Some name else None
      | None => None
      end
  | None => None
  end.

(** [level.get(k)] when it is a dictionary. *)
Definition get_dict (level : odict sel_tree) (k : string) : option (odict sel_tree) :=
  match od_get level k with
  | Some (SDict d) => Some d
  | _ => None
  end.

(** The inner loop over the parts of one field path.  The source walks down
    with the reference [current_level] and updates the dictionaries in
    place; here the updated level is rebuilt on the way back.  Each
    dictionary hangs under exactly one key, so the two agree. *)
Fixpoint select_path (parts : list string) (current_level : odict sel_tree)
  : odict sel_tree :=
  match parts with
  | [] => current_level
  | part :: rest =>
      let is_last_part := match rest with [] => true | _ => false end in
      match list_part_fullmatch part with
      | Some list_name =>
          let list_container := default [] (get_dict current_level list_name) in
          let all := default [] (get_dict list_container "__all__") in
          if is_last_part then
            od_set current_level list_name
                   (SDict (od_set list_container "__all__" STrue))
          else
            od_set current_level list_name
                   (SDict (od_set list_container "__all__"
                                  (SDict (select_path rest all))))
      | None =>
          if is_last_part then
            match get_dict current_level part with
            | Some _ => current_level
            | None => od_set current_level part STrue
            end
          else
            od_set current_level part
                   (SDict (select_path rest (default [] (get_dict current_level part))))
      end
  end.

Definition parse_select_fields_for_pydantic (select_str : option string)
  : option (odict sel_tree) :=
  match select_str with
  | None => None
  | Some s =>
      if PyStr.is_empty s then None
      else
        match PyStr.split_strip_nonempty s with
        | [] => None
        | fields_to_process =>
            let include_dict :=
              foldl (fun d field_path => select_path (PyStr.split "." field_path) d)
                    [] fields_to_process in
            match include_dict with
            | [] => None
            | _ => Some include_dict
            end
        end
  end.

(** ** The load planner ([apply_select_load_options]) *)

(** The longest prefix without a closing bracket, and what follows it. *)
Fixpoint span_no_bracket (s : string) : string * string :=
  match s with
  | EmptyString => (EmptyString, EmptyString)
  | String c s' =>
      if Ascii.eqb c "]" then (EmptyString, s)
      else let '(a, b) := span_no_bracket s' in (String c a, b)
  end.

(** [re.match(r"\[([^\]]+)\]", field_path)], giving [group(1)]. *)
Definition relation_match (field_path : string) : option string :=
  match PyStr.strip_prefix "[" field_path with
  | Some rest =>
      match span_no_bracket rest with
      | (name, String _ _) => if PyStr.is_empty name then None else Some name
      | (_, EmptyString) => None
      end
  | None => None
  end.

Definition extract_step (model_relation_keys : gset string)
           (relationships : gset string) (field_path : string) : gset string :=
  if PyStr.startswith field_path "[" && PyStr.contains_char "]" field_path then
    match relation_match field_path with
    | Some name => {[name]} ∪ relationships
    | None => relationships
    end
  else
    let base_name := hd EmptyString (PyStr.split "." field_path) in
    if bool_decide (base_name ∈ model_relation_keys)
    then {[base_name]} ∪ relationships
    else relationships.

Definition extract_relationships_from_select_hybrid
           (select_param : option string) (model_relation_keys : gset string)
  : gset string :=
  match select_param with
  | None => ∅
  | Some s =>
      if PyStr.is_empty s then ∅
      else foldl (extract_step model_relation_keys) ∅ (PyStr.split_strip_nonempty s)
  end.

(** [{r.key for r in model_inspector.relationships}] *)
Definition model_relation_keys_of (sch : schema) (model_cls : string) : gset string :=
  list_to_set (map rel_key (mapper_relationships sch model_cls)).

(** The options built by [apply_select_load_options], one per relationship
    key, in the iteration order of the key set. *)
Definition load_options_for (model_cls : string) (model_relation_keys : gset string)
           (relations_to_load : gset string) : list load_option :=
  map (fun rel_name =>
         let rel_attr := mk_attr model_cls rel_name in
         if bool_decide (rel_name ∈ relations_to_load)
         then selectinload rel_attr else noload rel_attr)
      (elements model_relation_keys).

Definition apply_select_load_options (sch : schema) (query : Select)
           (model_cls : string) (include_param : option string) : Select :=
  let model_relation_keys := model_relation_keys_of sch model_cls in
  let relations_to_load :=
    extract_relationships_from_select_hybrid include_param model_relation_keys in
  match load_options_for model_cls model_relation_keys relations_to_load with
  | [] => query
  | options_to_apply => q_add_options query options_to_apply
  end.

(** [get_validated_load_options] of crud_utils.py, the strict sibling used
    for an [include] list: an unknown name is an error there. *)
Definition get_validated_load_options (model_cls : string)
           (relations_map : gmap string RelationshipProperty)
           (include : list string) : exn + list load_option :=
  let '(load_options, invalid_includes) :=
    foldl (fun '(los, inv) relation_name =>
             match relations_map !! relation_name with
             | Some relation_attr =>
                 if String.eqb model_cls "Aula" && String.eqb relation_name "aulas_livros"
                 then (los, inv)
                 else (los ++ [selectinload (class_attribute relation_attr)], inv)
             | None => (los, inv ++ [relation_name])
             end)
          ([], []) include in
  match invalid_includes with
  | [] => inr load_options
  | _ => raise (InvalidIncludes invalid_includes)
  end.

(** ** Reading a specifier against the schema *)

(** [path_to sch e parts hops col]: starting from entity [e], the segments
    [parts] name, one after the other, the relationships [hops] of the
    schema and then the column [col] of the entity the last hop leads to. *)
Inductive path_to (sch : schema)
  : string → list string → list RelationshipProperty → InstrumentedAttribute → Prop :=
| path_column e c :
    getattr sch e c = Some AColumn →
    path_to sch e [c] [] (mk_attr e c)
| path_hop e r t rest hops col :
    getattr sch e r = Some (ARelationship t) →
    path_to sch t rest hops col →
    path_to sch e (r :: rest) (mk_rel e r t :: hops) col.

(** ** Well-formed clauses *)


Definition is_str (v : pyval) : bool :=
  match v with VStr _ => true | _ => false end.

(** A relationship name as it is written in a request: non-empty, made of
    letters, digits and underscores. *)
Definition is_name (s : string) : bool :=
  negb (PyStr.is_empty s) && PyStr.forall_char PyStr.re_word s.

(** ** The joins of a query *)

(** The joins of the statement SQLAlchemy compiles from the [join] calls
    made on a query.  The ORM compile state keeps the relationship edges it
    has joined, and a call on an edge already joined is skipped: each
    relationship of an entity is joined once, the way its first call asked.
    [seen] holds the edges joined so far. *)
Fixpoint compile_joins (seen : list InstrumentedAttribute)
         (calls : list (InstrumentedAttribute * bool))
  : list (InstrumentedAttribute * bool) :=
  match calls with
  | [] => []
  | call :: rest =>
      if bool_decide (call.1 ∈ seen) then compile_joins seen rest
      else call :: compile_joins (call.1 :: seen) rest
  end.

Definition compiled_joins (q : Select) : list (InstrumentedAttribute * bool) :=
  compile_joins [] (q_joins q).

(** Filters, then sorting, as the service layer chains them on a query
    without joins; the result is the list of joins of the statement compiled
    from the final query. *)
Definition utils_bd_joins_after (py_str : pyval → string) (raises : sqlalchemy)
           (sch : schema)
           (model_cls : string) (relations_map : gmap string RelationshipProperty)
           (filter_params : odict (odict pyval)) (sort_by sort_dir : option string)
  : exn + list (InstrumentedAttribute * bool) :=
  q ← UtilsBd.apply_filters py_str raises sch model_cls relations_map empty_select
        filter_params;
  q' ← UtilsBd.apply_sorting sch model_cls relations_map q sort_by sort_dir;
  mret (compiled_joins q').

Definition crud_utils_joins_after (raises : sqlalchemy) (sch : schema)
           (model_cls : string) (relations_map : gmap string RelationshipProperty)
           (filter_params : odict (odict pyval)) (sort_by sort_dir : option string)
  : exn + list (InstrumentedAttribute * bool) :=
  q ← CrudUtils.apply_filters raises sch model_cls relations_map empty_select
        filter_params;
  q' ← CrudUtils.apply_sorting sch model_cls relations_map q sort_by sort_dir;
  mret (compiled_joins q').

(** The relationships a specifier goes through, when it resolves. *)
Definition hops_of (sch : schema) (model_cls : string)
           (relations_map : gmap string RelationshipProperty)
           (field_specifier : string) : list RelationshipProperty :=
  match _get_column_or_relationship sch model_cls field_specifier relations_map with
  | inr (_, _, joins) => joins
  | inl _ => []
  end.

(** The relationship edges a filter map and a sort specifier need: those of
    the fields of the map and of the sort field. *)
Definition needed_edge (sch : schema) (model_cls : string)
           (relations_map : gmap string RelationshipProperty)
           (filter_params : odict (odict pyval)) (sort_by : option string)
           (a : InstrumentedAttribute) : Prop :=
  ∃ field r,
    (field ∈ filter_params.*1 ∨ sort_by = Some field)
    ∧ r ∈ hops_of sch model_cls relations_map field
    ∧ a = class_attribute r.

(** ** Walking the schema *)

(** [walk sch e pre e']: the segments [pre] name, one after the other,
    relationships of the schema that lead from entity [e] to entity [e']. *)
Inductive walk (sch : schema) : string → list string → string → Prop :=
| walk_here e : walk sch e [] e
| walk_hop e r t rest e' :
    getattr sch e r = Some (ARelationship t) →
    walk sch t rest e' →
    walk sch e (r :: rest) e'.

(** Why the segment [p], looked up on entity [m], stops the resolution with
    the exception [err]; [first] says that [p] is the first segment and
    [is_last] that it is the last one. *)
Definition segment_error (sch : schema) (model_cls field_specifier : string)
           (relations_map : gmap string RelationshipProperty)
           (first is_last : Prop) (m p : string) (err : exn) : Prop :=
  match getattr sch m p with
  | None => err = NoSuchAttribute m p field_specifier
  | Some AUnmapped => err = AttributeError m p
  | Some AForeign => err = UnexpectedAttributeType p field_specifier
  | Some AColumn => ¬ is_last ∧ err = ColumnNotLast p field_specifier
  | Some (ARelationship _) =>
      (is_last ∧ err = RelationshipAsTerminal p field_specifier)
      ∨ (¬ is_last ∧ first ∧ relations_map !! p = None
         ∧ err = UnmappedBaseRelationship p model_cls)
  end.

(** ** A filter map compiled in two phases *)

(** Maps [f] over [l], left to right; the first exception ends it. *)
Fixpoint collect {A B} (f : A → exn + B) (l : list A) : exn + list B :=
  match l with
  | [] => inr []
  | x :: l' =>
      match f x with
      | inl e => inl e
      | inr y => match collect f l' with
                 | inl e => inl e
                 | inr ys => inr (y :: ys)
                 end
      end
  end.

(** The predicate of one operator entry of a clause on column [c]: the
    operator is looked up, the operand of [in] / [notin] is made a list, and
    the expression is built; an exception of the last two steps comes out
    wrapped. *)
Definition compile_operator (raises : sqlalchemy) (field_specifier : string)
           (c : InstrumentedAttribute) (item : string * pyval) : exn + predicate :=
  match od_get OPERATOR_MAP (PyStr.lower item.1) with
  | None => inl (InvalidOperator item.1 field_specifier)
  | Some op_func =>
      match coerce_operand item.1 field_specifier item.2 with
      | inl e => inl (FilterApplyError item.1 item.2 field_specifier e)
      | inr value =>
          match op_func raises c value with
          | inl e => inl (FilterApplyError item.1 value field_specifier e)
          | inr p => inr p
          end
      end
  end.

(** The hops and the predicates of one clause. *)
Definition compile_clause (raises : sqlalchemy) (sch : schema) (model_cls : string)
           (relations_map : gmap string RelationshipProperty)
           (item : string * odict pyval)
  : exn + (list RelationshipProperty * list predicate) :=
  match _get_column_or_relationship sch model_cls item.1 relations_map with
  | inl e => inl e
  | inr (c, _, hops) =>
      match collect (compile_operator raises item.1 c) item.2 with
      | inl e => inl e
      | inr preds => inr (hops, preds)
      end
  end.

(** The hops and the predicates of a whole filter map, in map order. *)
Definition compile_filters (raises : sqlalchemy) (sch : schema) (model_cls : string)
           (relations_map : gmap string RelationshipProperty)
           (filter_params : odict (odict pyval))
  : exn + (list RelationshipProperty * list predicate) :=
  match collect (compile_clause raises sch model_cls relations_map) filter_params with
  | inl e => inl e
  | inr clauses => inr (concat clauses.*1, concat clauses.*2)
  end.

(** An operator entry that compiles on column [c]: the operator is
    supported, its operand is accepted and SQLAlchemy builds the expression. *)
Definition operator_ok (raises : sqlalchemy) (field_specifier : string)
           (c : InstrumentedAttribute) (item : string * pyval) : bool :=
  match compile_operator raises field_specifier c item with
  | inr _ => true
  | inl _ => false
  end.


(** The outer join on a relationship, as both modules attach it. *)
Definition outer_join (r : RelationshipProperty) : InstrumentedAttribute * bool :=
  (class_attribute r, true).

(** [joins_from base seen st]: the query of [st] carries the joins [base]
    followed by one outer join for each relationship of [seen], each once,
    and the joined set of [st] holds exactly the relationships of [seen]. *)
Definition joins_from (base : list (InstrumentedAttribute * bool))
           (seen : list RelationshipProperty) (st : UtilsBd.af_state) : Prop :=
  ∃ rels : list RelationshipProperty,
    NoDup rels
    ∧ q_joins (UtilsBd.af_query st) = base ++ map outer_join rels
    ∧ (∀ r, r ∈ rels ↔ r ∈ UtilsBd.already_joined_relationships_for_where st)
    ∧ (∀ r, r ∈ rels ↔ r ∈ seen).

Definition is_loader_criteria (o : load_option) : bool :=
  match o with with_loader_criteria _ _ => true | _ => false end.

(** ** Joining strings *)

(** [sep.join(l)] *)
Fixpoint py_join (sep : string) (l : list string) : string :=
  match l with
  | [] => EmptyString
  | x :: l' =>
      match l' with
      | [] => x
      | _ => x +:+ sep +:+ py_join sep l'
      end
  end.

(** The words [_parse_filter_value] turns into a boolean or [None]. *)
Definition is_keyword (raw : string) : bool :=
  str_in (PyStr.lower raw)
         ["true"; "yes"; "on"; "1"; "false"; "no"; "off"; "0"; "null"; "none"].

(** An item of a comma-separated list as [in] / [notin] keep it: not empty,
    no comma inside, no white space at either end. *)
Definition clean_item (t : string) : Prop :=
  t ≠ EmptyString ∧ PyStr.contains_char "," t = false ∧ PyStr.strip t = t.

(** ** States of the filter parser that differ in their log only *)

Definition pf_same (a b : pf_state) : Prop :=
  pf_filters a = pf_filters b ∧ pf_processed_keys a = pf_processed_keys b.

(** A filter map as a dictionary of non-empty dictionaries: no key twice,
    at either level, and at least one operator under every field. *)
Definition well_formed_filters (filters : odict (odict pyval)) : Prop :=
  NoDup filters.*1
  ∧ Forall (fun clause : string * odict pyval =>
              clause.2 ≠ [] ∧ NoDup clause.2.*1) filters.

(** ** Reading a selector *)

(** The name a field path starts with: its first segment, without the
    brackets when it is a list segment. *)
Definition root_name (field_path : string) : string :=
  let part := hd EmptyString (PyStr.split "." field_path) in
  default part (list_part_fullmatch part).

(** [name] is selected as a list at this level: it holds a dictionary with
    the key "__all__". *)
Definition marked_as_list (level : odict sel_tree) (name : string) : Prop :=
  ∃ c, od_get level name = Some (SDict c) ∧ od_mem c "__all__" = true.

(** ** Reading an include string *)

(** The tokens of an include (or select) parameter. *)
Definition include_tokens (include_param : option string) : list string :=
  match include_param with
  | None => []
  | Some s => PyStr.split_strip_nonempty s
  end.

(** The relationship a token asks for: what stands between its opening
    bracket and the first closing one when it starts with a bracket and has
    a closing one, and otherwise what stands before its first dot. *)
Definition requested_name (field_path : string) : option string :=
  if PyStr.startswith field_path "[" && PyStr.contains_char "]" field_path
  then relation_match field_path
  else Some (hd EmptyString (PyStr.split "." field_path)).

Definition requested (include_param : option string) (name : string) : Prop :=
  ∃ field_path, field_path ∈ include_tokens include_param
                ∧ requested_name field_path = Some name.

(** ** utils_bd.py: the strict include check *)

Module UtilsBdInclude.

(** [get_validated_load_options] of utils_bd.py: as in crud_utils.py, without
    the exception made there for one relationship. *)
Definition get_validated_load_options (model_cls : string)
           (relations_map : gmap string RelationshipProperty)
           (include : list string) : exn + list load_option :=
  let '(load_options, invalid_includes) :=
    foldl (fun '(los, inv) relation_name =>
             match relations_map !! relation_name with
             | Some relation_attr =>
                 (los ++ [selectinload (class_attribute relation_attr)], inv)
             | None => (los, inv ++ [relation_name])
             end)
          ([], []) include in
  match invalid_includes with
  | [] => inr load_options
  | _ => raise (InvalidIncludes invalid_includes)
  end.

End UtilsBdInclude.

(** ** base_service.py: what reaches the load planner *)

Module BaseService.

(** [_merge_include_into_select] *)
Definition _merge_include_into_select (select_fields : option string)
           (include : option (list string)) : option string :=
  match include with
  | None | Some [] => select_fields
  | Some include =>
      let include_tokens :=
        py_join "," (map (fun rel => "[" +:+ rel +:+ "]") include) in
      match select_fields with
      | None => Some include_tokens
      | Some s =>
          if PyStr.is_empty s then Some include_tokens
          else Some (s +:+ "," +:+ include_tokens)
      end
  end.

(** [",".join(include) if include else select_fields], the include
    parameter that [get_by_id] and [get_all] hand to the load planner. *)
Definition include_param_for_load_options (include : option (list string))
           (select_fields : option string) : option string :=
  match include with
  | None | Some [] => select_fields
  | Some include => Some (py_join "," include)
  end.

(** An [HTTPException]: its status code and the exception it reports. *)
Inductive http_error : Type :=
| HTTPException (status_code : nat) (detail : exn).

(** [_get_query_with_includes]: the strict include check of crud_utils.py,
    its [ValueError] turned into a 400. *)
Definition _get_query_with_includes (model_class : string)
           (relationship_map : gmap string RelationshipProperty)
           (base_query : Select) (include : option (list string))
  : http_error + Select :=
  match include with
  | None | Some [] => inr base_query
  | Some include =>
      match get_validated_load_options model_class relationship_map include with
      | inl e => inl (HTTPException 400 e)
      | inr load_options => inr (q_add_options base_query load_options)
      end
  end.

(** The statements of [get_all] that deal with [include], after filters and
    sorting: the strict check when [include] is not empty, then the load
    planner on [include_param_for_load_options]. *)
Definition get_all_includes (sch : schema) (model_class : string)
           (relationship_map : gmap string RelationshipProperty)
           (base_query : Select) (include : option (list string))
           (select_fields : option string) : http_error + Select :=
  match _get_query_with_includes model_class relationship_map base_query include with
  | inl e => inl e
  | inr base_query =>
      inr (apply_select_load_options sch base_query model_class
             (include_param_for_load_options include select_fields))
  end.

(** The same statements of [get_by_id], which has no strict check. *)
Definition get_by_id_includes (sch : schema) (model_class : string)
           (query : Select) (include : option (list string))
           (select_fields : option string) : Select :=
  apply_select_load_options sch query model_class
    (include_param_for_load_options include select_fields).

End BaseService.

(** [include.split(',') if include else None], the include list the
    controllers build from the query parameter. *)
Definition include_list (include : option string) : option (list string) :=
  match include with
  | None => None
  | Some s => if PyStr.is_empty s then None else Some (PyStr.split "," s)
  end.

(** The names of [include] that [relations_map] does not know. *)
Definition unknown_includes (relations_map : gmap string RelationshipProperty)
           (include : list string) : list string :=
  filter (fun name => relations_map !! name = None) include.

(** The option [get_validated_load_options] of crud_utils.py adds for a name:
    none for an unknown name, none for the one relationship it leaves out. *)
Definition included_option (model_cls : string)
           (relations_map : gmap string RelationshipProperty) (name : string)
  : option load_option :=
  match relations_map !! name with
  | Some r =>
      if String.eqb model_cls "Aula" && String.eqb name "aulas_livros" then None
      else Some (selectinload (class_attribute r))
  | None => None
  end.

(** [f"[{rel}]"] *)
Definition bracketed (rel : string) : string := "[" +:+ rel +:+ "]".

(** ** utils_bd.py: text search *)

Module UtilsBdSearch.

(** What [apply_search] finds out about a field name on a mapped class:
    - [NotSearchable]: the name is neither in [mapper.columns] nor in
      [mapper.synonyms];
    - [StrColumn]: a column whose type has a [python_type] that is a
      subclass of [str];
    - [OtherColumn]: a column whose type has no [python_type] attribute, or
      one that is not a subclass of [str];
    - [PythonTypeFails]: a column whose type raises [NotImplementedError]
      when asked for its [python_type], which [hasattr] lets through. *)
Inductive column_info : Type :=
| NotSearchable
| StrColumn
| OtherColumn
| PythonTypeFails.

Inductive search_error : Type :=
| NotImplementedError (column : InstrumentedAttribute).

(** [field_name.split('.', 1)] for a name that holds a dot. *)
Fixpoint split_once (s : string) : string * string :=
  match s with
  | EmptyString => (EmptyString, EmptyString)
  | String c s' =>
      if Ascii.eqb c "." then (EmptyString, s')
      else let '(a, b) := split_once s' in (String c a, b)
  end.

Section ApplySearch.
  (** SQLAlchemy's [or_], and what the mapper knows of the columns. *)
Context (or_ : list predicate → predicate).
Context (columns : string → string → column_info).
Context (sch : schema) (model_cls : string).

Record search_state : Type := mk_search_state {
  s_query : Select;
  s_conditions : list predicate;
  s_joins_added : gset string
}.

(** The test on the column type, shared by the two branches of the loop. *)
Definition add_condition (search_term : string) (st : search_state)
           (related_model field : string) : search_error + search_state :=
  match columns related_model field with
  | NotSearchable => inr st
  | StrColumn =>
      inr (mk_search_state (s_query st)
             (s_conditions st
                ++ [PBin OpILike (mk_attr related_model field) (VStr search_term)])
             (s_joins_added st))
  | OtherColumn => inr st
  | PythonTypeFails => inl (NotImplementedError (mk_attr related_model field))
  end.

(** One turn of the loop over [search_fields]. *)
Definition search_step (search_term : string) (st : search_state) (field_name : string)
  : search_error + search_state :=
  if PyStr.contains_char "." field_name then
    let '(rel_name, rel_field) := split_once field_name in
    match getattr sch model_cls rel_name with
    | Some (ARelationship related_model) =>
        let st1 :=
          if bool_decide (rel_name ∈ s_joins_added st) then st
          else mk_search_state
                 (q_join (s_query st) (mk_attr model_cls rel_name) false)
                 (s_conditions st)
                 ({[rel_name]} ∪ s_joins_added st) in
        add_condition search_term st1 related_model rel_field
    | _ => inr st
    end
  else add_condition search_term st model_cls field_name.

Fixpoint search_loop (search_term : string) (st : search_state)
         (search_fields : list string) : search_error + search_state :=
  match search_fields with
  | [] => inr st
  | field_name :: rest =>
      match search_step search_term st field_name with
      | inl e => inl e
      | inr st' => search_loop search_term st' rest
      end
  end.

Definition apply_search (query : Select) (search : option string)
           (search_fields : list string) : search_error + Select :=
  match search with
  | None => inr query
  | Some search =>
      if PyStr.is_empty search then inr query
      else match search_fields with
           | [] => inr query
           | _ =>
               let search_term := "%" +:+ search +:+ "%" in
               match search_loop search_term (mk_search_state query [] ∅)
                                 search_fields with
               | inl e => inl e
               | inr st =>
                   match s_conditions st with
                   | [] => inr (s_query st)
                   | conditions => inr (q_add_where (s_query st) (or_ conditions))
                   end
               end
           end
  end.
End ApplySearch.

(** The relationship a dotted search field goes through, when the base
    entity has it. *)
Definition search_relationship (sch : schema) (model_cls field_name : string)
  : option string :=
  if PyStr.contains_char "." field_name then
    match getattr sch model_cls (split_once field_name).1 with
    | Some (ARelationship _) => Some (split_once field_name).1
    | _ => None
    end
  else None.

(** The column a search field names, when it is one that can be searched. *)
Definition search_column (columns : string → string → column_info)
           (sch : schema) (model_cls field_name : string)
  : option InstrumentedAttribute :=
  if PyStr.contains_char "." field_name then
    match getattr sch model_cls (split_once field_name).1 with
    | Some (ARelationship related_model) =>
        match columns related_model (split_once field_name).2 with
        | StrColumn => Some (mk_attr related_model (split_once field_name).2)
        | _ => None
        end
    | _ => None
    end
  else
    match columns model_cls field_name with
    | StrColumn => Some (mk_attr model_cls field_name)
    | _ => None
    end.

End UtilsBdSearch.

(** The column on which a search field makes [apply_search] fail: one that
    the loop reaches and whose type cannot tell its [python_type]. *)
Definition search_failure (columns : string → string → UtilsBdSearch.column_info)
           (sch : schema) (model_cls field_name : string)
  : option InstrumentedAttribute :=
  if PyStr.contains_char "." field_name then
    match getattr sch model_cls (UtilsBdSearch.split_once field_name).1 with
    | Some (ARelationship related_model) =>
        match columns related_model (UtilsBdSearch.split_once field_name).2 with
        | UtilsBdSearch.PythonTypeFails =>
            Some (mk_attr related_model (UtilsBdSearch.split_once field_name).2)
        | _ => None
        end
    | _ => None
    end
  else
    match columns model_cls field_name with
    | UtilsBdSearch.PythonTypeFails => Some (mk_attr model_cls field_name)
    | _ => None
    end.

(** The column types of the classes served by a [BaseService], from
    models.py: [String] and [Text] have [str] for [python_type]; [UUID],
    [DateTime], [Boolean] and [ARRAY] have another one. *)
Definition model_columns (model field : string) : UtilsBdSearch.column_info :=
  if str_in field ["id"; "created_at"; "updated_at"; "flg_ativo"; "flg_excluido"]
  then if str_in model ["Usuario"; "WebLink"] then UtilsBdSearch.OtherColumn
       else UtilsBdSearch.NotSearchable
  else if String.eqb model "Usuario" then
    if str_in field ["nome"; "email"; "senha"] then UtilsBdSearch.StrColumn
    else if String.eqb field "permissoes" then UtilsBdSearch.OtherColumn
    else UtilsBdSearch.NotSearchable
  else if String.eqb model "WebLink" then
    if str_in field ["weblink"; "title"; "resumo"] then UtilsBdSearch.StrColumn
    else if String.eqb field "usuario_id" then UtilsBdSearch.OtherColumn
    else UtilsBdSearch.NotSearchable
  else UtilsBdSearch.NotSearchable.

(** [self.searchable_fields] of the two services. *)
Definition Usuario_searchable_fields : list string := ["nome"; "email"].
Definition WebLink_searchable_fields : list string := ["weblink"; "resumo"; "title"].

(** ** utils_bd.py: relative time *)

Module RelativeTime.

(** [há] and [mês]; the accented letters are the code points 225 and 234. *)
Definition ha : string :=
  String "h" (String (Ascii.ascii_of_N 225) EmptyString).

Definition mes : string :=
  String "m" (String (Ascii.ascii_of_N 234) (String "s" EmptyString)).

(** [int(x)] on a float: truncation towards zero. *)
Definition int (x : QArith_base.Q) : Z :=
  if QArith_base.Qle_bool (QArith_base.inject_Z 0) x
  then Qround.Qfloor x else Qround.Qceiling x.

(** [str(n)] on an [int]. *)
Definition str (n : Z) : string := pretty n.

(** [format_relative_time].  The argument is [None] for a missing date and
    otherwise the float [(now - date).total_seconds()], as the rational
    number it is, [date] having been given the UTC zone when it had none. *)
Definition format_relative_time (date : option QArith_base.Q) : string :=
  match date with
  | None => "nunca"
  | Some diff_total_seconds =>
      if negb (QArith_base.Qle_bool (QArith_base.inject_Z 0) diff_total_seconds)
      then "agora"
      else
        let total_seconds := int diff_total_seconds in
        let total_minutes := (total_seconds / 60)%Z in
        let total_hours := (total_minutes / 60)%Z in
        let total_days := (total_hours / 24)%Z in
        let total_weeks := (total_days / 7)%Z in
        let total_months := (total_days / 30)%Z in
        let total_years := (total_days / 365)%Z in
        if (total_seconds <? 60)%Z then "agora"
        else if (total_minutes <? 60)%Z then
          ha +:+ " " +:+ str total_minutes +:+ " minuto"
             +:+ (if negb (total_minutes =? 1)%Z then "s" else "")
        else if (total_hours <? 24)%Z then
          ha +:+ " " +:+ str total_hours +:+ " hora"
             +:+ (if negb (total_hours =? 1)%Z then "s" else "")
        else if (total_days <? 7)%Z then
          ha +:+ " " +:+ str total_days +:+ " dia"
             +:+ (if negb (total_days =? 1)%Z then "s" else "")
        else if (total_weeks <? 4)%Z then
          ha +:+ " " +:+ str total_weeks +:+ " semana"
             +:+ (if negb (total_weeks =? 1)%Z then "s" else "")
        else if (total_months <? 12)%Z then
          ha +:+ " " +:+ str total_months +:+ " " +:+ mes
             +:+ (if negb (total_months =? 1)%Z then "es" else "")
        else
          ha +:+ " " +:+ str total_years +:+ " ano"
             +:+ (if negb (total_years =? 1)%Z then "s" else "")
  end.

End RelativeTime.

(** The text for a count [n] of a unit: [há n word], with [suffix] added to
    the word unless [n] is one. *)
Definition relative_text (n : Z) (word suffix : string) : string :=
  RelativeTime.ha +:+ " " +:+ pretty n +:+ " " +:+ word
    +:+ (if bool_decide (n = 1%Z) then "" else suffix).

(** ** The two filter loops side by side *)

(** The two loops carry the same query. *)
Definition same_query (a : UtilsBd.af_state) (b : CrudUtils.af_state) : Prop :=
  UtilsBd.af_query a = CrudUtils.af_query b.

(** * Properties *)

(** ** Dictionaries and loops *)

Section OdictFacts.
Context {V : Type}.
Implicit Types (d : odict V) (k : string) (v : V).

Lemma od_get_set_eq d k v : od_get (od_set d k v) k = Some v.
Proof.
  induction d as [|[k' v'] d IH]; simpl.
  - by rewrite String.eqb_refl.
  - destruct (String.eqb k' k) eqn:E; simpl.
    + by rewrite String.eqb_refl.
    + by rewrite E.
Qed.

Lemma od_get_set_ne d k k' v : k ≠ k' → od_get (od_set d k v) k' = od_get d k'.
Proof.
  intros Hne. induction d as [|[k0 v0] d IH]; simpl.
  - destruct (String.eqb k k') eqn:E; [|done].
    apply String.eqb_eq in E. contradiction.
  - destruct (String.eqb k0 k) eqn:E; simpl.
    + apply String.eqb_eq in E. subst k0.
      destruct (String.eqb k k') eqn:E'; [|done].
      apply String.eqb_eq in E'. contradiction.
    + by rewrite IH.
Qed.

Lemma od_set_not_nil d k v : od_set d k v ≠ [].
Proof. destruct d as [|[k' v'] d]; simpl; [done|]. by destruct (String.eqb k' k). Qed.

Lemma od_get_not_nil d k v : od_get d k = Some v → d ≠ [].
Proof. by destruct d. Qed.
End OdictFacts.

Lemma for_each_app {A B} (body : A → B → exn + A) acc l1 l2 :
  for_each body acc (l1 ++ l2)
  = (acc' ← for_each body acc l1; for_each body acc' l2).
Proof.
  revert acc. induction l1 as [|x l1 IH]; intros acc; simpl; [done|].
  destruct (body acc x) as [e|acc']; simpl; [done|]. apply IH.
Qed.

Lemma str_in_spec s l : str_in s l = true ↔ s ∈ l.
Proof.
  unfold str_in. rewrite existsb_exists. split.
  - intros (x & Hx & E). apply String.eqb_eq in E. subst. by apply list_elem_of_In.
  - intros H. exists s. split; [by apply list_elem_of_In|apply String.eqb_refl].
Qed.

(** ** Value coercion *)

(** A raw string is truthy for [_parse_bool] exactly when
    [_parse_filter_value] of it is: the parser and the operator agree. *)
Lemma parse_bool_of_parsed_value v :
  _parse_bool (_parse_filter_value v) = str_in (PyStr.lower v) truthy_words.
Proof.
  unfold _parse_filter_value, truthy_words.
  assert (str_in (PyStr.lower v) ["true"; "yes"; "on"; "1"]
          = str_in (PyStr.lower v) ["true"; "yes"; "1"; "on"]) as ->.
  { unfold str_in; simpl. rewrite !orb_false_r.
    destruct (String.eqb _ "true"), (String.eqb _ "yes"),
      (String.eqb _ "on"), (String.eqb _ "1"); reflexivity. }
  destruct (str_in (PyStr.lower v) ["true"; "yes"; "1"; "on"]) eqn:E; [done|].
  destruct (str_in (PyStr.lower v) ["false"; "no"; "off"; "0"]); [done|].
  destruct (str_in (PyStr.lower v) ["null"; "none"]); [done|].
  simpl. exact E.
Qed.

Lemma parse_filter_value_null v :
  str_in (PyStr.lower v) ["null"; "none"] = true → _parse_filter_value v = VNone.
Proof.
  intros H. apply str_in_spec in H. unfold _parse_filter_value.
  apply elem_of_cons in H as [->|H]; [reflexivity|].
  apply elem_of_cons in H as [->|H]; [reflexivity|].
  by apply elem_of_nil in H.
Qed.

(** ** Sorting *)

(** C10.  With [sort_by] absent or empty, [apply_sorting] returns the query
    it was given, whatever [sort_dir] is; the invalid-direction error is
    raised only for a non-empty [sort_by].  Holds for utils_bd.py and for
    crud_utils.py. *)
Theorem apply_sorting_without_sort_by
        (sch : schema) (model_cls : string)
        (relations_map : gmap string RelationshipProperty)
        (query : Select) (sort_dir : option string) :
  UtilsBd.apply_sorting sch model_cls relations_map query None sort_dir = inr query
  ∧ UtilsBd.apply_sorting sch model_cls relations_map query (Some "") sort_dir = inr query
  ∧ CrudUtils.apply_sorting sch model_cls relations_map query None sort_dir = inr query
  ∧ CrudUtils.apply_sorting sch model_cls relations_map query (Some "") sort_dir = inr query
  ∧ (∀ sort_by d,
        (UtilsBd.apply_sorting sch model_cls relations_map query sort_by sort_dir
           = inl (InvalidSortDirection d)
         ∨ CrudUtils.apply_sorting sch model_cls relations_map query sort_by sort_dir
           = inl (InvalidSortDirection d)) →
        ∃ s, sort_by = Some s ∧ s ≠ "").
Proof.
  repeat split; try reflexivity.
  intros sort_by d H.
  assert (UtilsBd.apply_sorting sch model_cls relations_map query sort_by sort_dir
          = inl (InvalidSortDirection d)) as H' by (destruct H as [H|H]; exact H).
  clear H. unfold UtilsBd.apply_sorting in H'.
  destruct sort_by as [s|]; simpl in H'; [|discriminate].
  destruct s; simpl in H'; [discriminate|]. eexists; split; [reflexivity|discriminate].
Qed.

Lemma apply_sorting_without_sort_by_witness :
  UtilsBd.apply_sorting models "WebLink" (property_map models "WebLink")
    empty_select (Some "title") (Some "upwards")
  = inl (InvalidSortDirection "upwards")
  ∧ ∃ s, Some "title" = Some s ∧ s ≠ "".
Proof.
  split; [vm_compute; reflexivity|].
  apply (proj2 (proj2 (proj2 (proj2
           (apply_sorting_without_sort_by models "WebLink"
              (property_map models "WebLink") empty_select
              (Some "upwards"))))) (Some "title") "upwards").
  left. vm_compute. reflexivity.
Defined.

(** ** Compiling one clause *)

Section OneClause.
Context (py_str : pyval → string) (raises : sqlalchemy).
Context (sch : schema) (model_cls : string)
        (relations_map : gmap string RelationshipProperty).

Lemma utils_bd_joins_keep_where st joins :
  q_where (UtilsBd.af_query (foldl UtilsBd.join_step st joins))
  = q_where (UtilsBd.af_query st).
Proof.
  revert st. induction joins as [|r joins IH]; intros st; simpl; [done|].
  rewrite IH. unfold UtilsBd.join_step. by case_bool_decide.
Qed.

Lemma crud_utils_joins_keep_where st joins :
  q_where (CrudUtils.af_query (foldl CrudUtils.join_step st joins))
  = q_where (CrudUtils.af_query st).
Proof.
  revert st. induction joins as [|r joins IH]; intros st; simpl; [done|].
  by rewrite IH.
Qed.

(** A supported operator with an acceptable operand adds exactly its
    predicate to the WHERE list (utils_bd.py). *)
Lemma utils_bd_operator_step_where field c joins st op_code value op_func value' p :
  od_get OPERATOR_MAP (PyStr.lower op_code) = Some op_func →
  coerce_operand op_code field value = inr value' →
  op_func raises c value' = inr p →
  ∃ st', UtilsBd.operator_step py_str raises field c joins st (op_code, value) = inr st'
         ∧ q_where (UtilsBd.af_query st') = q_where (UtilsBd.af_query st) ++ [p]
         ∧ q_joins (UtilsBd.af_query st') = q_joins (UtilsBd.af_query st)
         ∧ UtilsBd.already_joined_relationships_for_where st'
           = UtilsBd.already_joined_relationships_for_where st.
Proof.
  intros Hop Hco Hp. unfold UtilsBd.operator_step. rewrite Hop, Hco, Hp.
  destruct joins as [|first rest]; [by eexists|].
  repeat case_bool_decide; by eexists.
Qed.

Lemma crud_utils_operator_step_where field c st op_code value op_func value' p :
  od_get OPERATOR_MAP (PyStr.lower op_code) = Some op_func →
  coerce_operand op_code field value = inr value' →
  op_func raises c value' = inr p →
  ∃ st', CrudUtils.operator_step raises field c st (op_code, value) = inr st'
         ∧ q_where (CrudUtils.af_query st') = q_where (CrudUtils.af_query st) ++ [p]
         ∧ q_joins (CrudUtils.af_query st') = q_joins (CrudUtils.af_query st).
Proof.
  intros Hop Hco Hp. unfold CrudUtils.operator_step. rewrite Hop, Hco, Hp. by eexists.
Qed.

(** The clause [(field, isnull, value)] on its own. *)
Lemma single_isnull_clause query field c m joins value :
  _get_column_or_relationship sch model_cls field relations_map = inr (c, m, joins) →
  let p := if _parse_bool value then PIsNull c else PIsNotNull c in
  (∃ q', UtilsBd.apply_filters py_str raises sch model_cls relations_map query
           [(field, [("isnull", value)])] = inr q'
         ∧ q_where q' = q_where query ++ [p])
  ∧ (∃ q', CrudUtils.apply_filters raises sch model_cls relations_map query
             [(field, [("isnull", value)])] = inr q'
           ∧ q_where q' = q_where query ++ [p]).
Proof.
  intros Hres p. split.
  - unfold UtilsBd.apply_filters, UtilsBd.apply_filters_from.
    cbn [for_each UtilsBd.field_step]. rewrite Hres.
    cbn [mbind exn_bind for_each].
    edestruct (utils_bd_operator_step_where field c joins
                 (foldl UtilsBd.join_step (UtilsBd.mk_af_state query ∅ ∅) joins)
                 "isnull" value) as (st' & -> & Hw & _); [reflexivity..|].
    cbn [mbind exn_bind mret exn_ret]. eexists; split; [reflexivity|].
    by rewrite Hw, utils_bd_joins_keep_where.
  - unfold CrudUtils.apply_filters, CrudUtils.apply_filters_from.
    cbn [for_each CrudUtils.field_step]. rewrite Hres.
    cbn [mbind exn_bind for_each].
    edestruct (crud_utils_operator_step_where field c
                 (foldl CrudUtils.join_step (CrudUtils.mk_af_state query ∅) joins)
                 "isnull" value) as (st' & -> & Hw & _); [reflexivity..|].
    cbn [mbind exn_bind mret exn_ret]. eexists; split; [reflexivity|].
    by rewrite Hw, crud_utils_joins_keep_where.
Qed.
End OneClause.

(** C6.  For a field that resolves to the column [c] and a raw value [v],
    the clause [(field, isnull, v)] compiles to [c IS NULL] exactly when [v],
    lower-cased, is one of true / yes / 1 / on, and to [c IS NOT NULL]
    otherwise; the same holds when [v] first went through
    [_parse_filter_value].  So "true" and "yes" give IS NULL and "false"
    gives IS NOT NULL.  Holds for utils_bd.py and crud_utils.py. *)
Theorem isnull_takes_a_boolean
        (py_str : pyval → string) (raises : sqlalchemy) (sch : schema) (model_cls : string)
        (relations_map : gmap string RelationshipProperty) (query : Select)
        (field : string) (c : InstrumentedAttribute) (m : string)
        (joins : list RelationshipProperty) (v : string) (value : pyval) :
  _get_column_or_relationship sch model_cls field relations_map = inr (c, m, joins) →
  value = VStr v ∨ value = _parse_filter_value v →
  let p := if str_in (PyStr.lower v) truthy_words then PIsNull c else PIsNotNull c in
  (∃ q', UtilsBd.apply_filters py_str raises sch model_cls relations_map query
           [(field, [("isnull", value)])] = inr q'
         ∧ q_where q' = q_where query ++ [p])
  ∧ (∃ q', CrudUtils.apply_filters raises sch model_cls relations_map query
             [(field, [("isnull", value)])] = inr q'
           ∧ q_where q' = q_where query ++ [p])
  ∧ (v = "true" ∨ v = "yes" → p = PIsNull c)
  ∧ (v = "false" → p = PIsNotNull c).
Proof.
  intros Hres Hv p.
  assert (_parse_bool value = str_in (PyStr.lower v) truthy_words) as Hb.
  { destruct Hv as [->| ->]; [reflexivity|apply parse_bool_of_parsed_value]. }
  pose proof (single_isnull_clause py_str raises sch model_cls relations_map query
                field c m joins value Hres) as H.
  simpl in H. rewrite Hb in H. destruct H as [H1 H2].
  split; [exact H1|]. split; [exact H2|].
  split; [intros [->| ->]; reflexivity|intros ->; reflexivity].
Qed.

Lemma isnull_takes_a_boolean_witness :
  let c := mk_attr "WebLink" "resumo" in
  ∃ q', CrudUtils.apply_filters models_sqlalchemy models "WebLink"
          (property_map models "WebLink") empty_select
          [("resumo", [("isnull", _parse_filter_value "Yes")])] = inr q'
        ∧ q_where q' = [PIsNull c].
Proof.
  intros c.
  exact (proj1 (proj2
    (isnull_takes_a_boolean (fun _ => "") models_sqlalchemy models "WebLink"
       (property_map models "WebLink") empty_select
       "resumo" c "WebLink" [] "Yes" (_parse_filter_value "Yes")
       eq_refl (or_intror eq_refl)))).
Defined.

(** ** The filter grammar *)

Lemma lower_is_empty s : PyStr.is_empty (PyStr.lower s) = PyStr.is_empty s.
Proof. by destruct s. Qed.

Lemma fp_last_group_nonempty t g : fp_last_group t = Some g → PyStr.is_empty g = false.
Proof.
  unfold fp_last_group. destruct (PyStr.unsnoc t) as [[g' c]|]; [|done].
  destruct (Ascii.eqb c "]"), (PyStr.is_empty g') eqn:E; simpl; try done.
  destruct (PyStr.forall_char PyStr.re_dot g'); [|done]. by intros [= <-].
Qed.

Lemma fp_first_group_nonempty g1 s f g :
  fp_first_group g1 s = Some (f, g) →
  PyStr.is_empty f = false ∧ PyStr.is_empty g = false.
Proof.
  revert g1. induction s as [|c s IH]; intros g1; cbn [fp_first_group]; [done|].
  destruct (PyStr.is_empty g1) eqn:Eg.
  - destruct (PyStr.re_dot c); [apply IH|done].
  - destruct (PyStr.strip_prefix "][" (String c s)) as [t|] eqn:Et.
    + destruct (fp_last_group t) as [g2|] eqn:E2.
      * intros [= <- <-]. split; [done|]. by eapply fp_last_group_nonempty.
      * destruct (PyStr.re_dot c); [apply IH|done].
    + destruct (PyStr.re_dot c); [apply IH|done].
Qed.

(** Both groups of a recognized key are non-empty, so the empty-group
    branch of [parse_filters] is never taken. *)
Lemma FILTER_PATTERN_groups_nonempty key f g :
  FILTER_PATTERN_fullmatch key = Some (f, g) →
  PyStr.is_empty f = false ∧ PyStr.is_empty g = false.
Proof.
  unfold FILTER_PATTERN_fullmatch.
  destruct (PyStr.strip_prefix "filter[" key); [|done].
  apply fp_first_group_nonempty.
Qed.

Lemma pf_loop_snoc qs item : pf_loop (qs ++ [item]) = pf_step (pf_loop qs) item.
Proof. unfold pf_loop. by rewrite foldl_app. Qed.

(** An entry whose key was already processed is skipped. *)
Lemma pf_step_seen st k v : k ∈ pf_processed_keys st → pf_step st (k, v) = st.
Proof. intros H. unfold pf_step. by rewrite bool_decide_eq_true_2. Qed.

(** A recognized entry with a key not processed yet writes its value. *)
Lemma pf_step_fresh st k v f g :
  FILTER_PATTERN_fullmatch k = Some (f, g) →
  k ∉ pf_processed_keys st →
  filter_value (pf_filters (pf_step st (k, v))) f (PyStr.lower g)
  = Some (_parse_filter_value v)
  ∧ (∀ prev, filter_value (pf_filters st) f (PyStr.lower g) = Some prev →
             LogOverwrite f (PyStr.lower g) v prev ∈ pf_log (pf_step st (k, v)))
  ∧ pf_processed_keys (pf_step st (k, v)) = {[k]} ∪ pf_processed_keys st.
Proof.
  intros Hm Hk. destruct (FILTER_PATTERN_groups_nonempty _ _ _ Hm) as [Hf Hg].
  unfold pf_step. rewrite bool_decide_eq_false_2 by done. rewrite Hm.
  rewrite lower_is_empty, Hf, Hg. cbn [orb pf_filters pf_log pf_processed_keys].
  split; [|split; [|done]].
  - unfold filter_value. by rewrite !od_get_set_eq.
  - intros prev. unfold filter_value, od_mem.
    destruct (od_get (pf_filters st) f) as [inner|] eqn:Ei; [|done].
    intros Hp. cbn match. rewrite Ei. cbn [default from_option id]. rewrite Hp.
    set_solver.
Qed.

(** The processed keys are the recognized keys met so far. *)
Lemma pf_processed_keys_spec qs k :
  k ∈ pf_processed_keys (pf_loop qs)
  ↔ k ∈ qs.*1 ∧ is_Some (FILTER_PATTERN_fullmatch k).
Proof.
  induction qs as [|[k0 v0] qs IH] using rev_ind.
  - cbn. split; [set_solver|]. intros [H _]. by apply elem_of_nil in H.
  - rewrite pf_loop_snoc, fmap_app, elem_of_app. cbn [fmap list_fmap fst].
    rewrite list_elem_of_singleton.
    destruct (decide (k0 ∈ pf_processed_keys (pf_loop qs))) as [Hin|Hout].
    + rewrite pf_step_seen by done. rewrite IH. split; [tauto|].
      intros [[H| ->] Hs]; [tauto|]. by apply IH.
    + destruct (FILTER_PATTERN_fullmatch k0) as [[f g]|] eqn:Hm.
      * destruct (pf_step_fresh (pf_loop qs) k0 v0 f g Hm Hout) as (_ & _ & ->).
        rewrite elem_of_union, elem_of_singleton, IH. split.
        -- intros [->|[H1 H2]]; [|tauto]. split; [by right|]. rewrite Hm. by eexists.
        -- intros [[H| ->] Hs]; [right|left]; done.
      * unfold pf_step. rewrite bool_decide_eq_false_2 by done. rewrite Hm.
        cbn [pf_processed_keys]. rewrite IH. split; [tauto|].
        intros [[H| ->] Hs]; [tauto|]. rewrite Hm in Hs. by destruct Hs.
Qed.

Lemma pf_fresh_key_not_processed qs k : k ∉ qs.*1 → k ∉ pf_processed_keys (pf_loop qs).
Proof. rewrite pf_processed_keys_spec. tauto. Qed.

(** A recognized entry with a new key leaves its parsed value in the map. *)
Lemma parse_filters_stores_fresh (qs : list (string * string)) (k v f g : string) :
  FILTER_PATTERN_fullmatch k = Some (f, g) → k ∉ qs.*1 →
  filter_value (parse_filters (qs ++ [(k, v)])).1 f (PyStr.lower g)
  = Some (_parse_filter_value v).
Proof.
  intros Hm Hout. unfold parse_filters. rewrite pf_loop_snoc. cbn [fst].
  apply pf_step_fresh; [done|]. by apply pf_fresh_key_not_processed.
Qed.

(** C2 (as the code has it).  An entry [filter[field][operator]] whose key
    string did not occur before stores its parsed value under the field and
    the lower-cased operator, and when a value was already stored there (by
    a key spelled differently, the operator in another letter case) the
    overwrite is logged.  An entry that repeats a recognized key string is
    skipped altogether: the filter map and the log stay as they were, so the
    value stored for its field and operator is the one that was there
    before it. *)
Theorem parse_filters_repeated_clause
        (qs : list (string * string)) (k v : string) :
  (k ∈ qs.*1 → is_Some (FILTER_PATTERN_fullmatch k) →
   parse_filters (qs ++ [(k, v)]) = parse_filters qs)
  ∧ (∀ f g, FILTER_PATTERN_fullmatch k = Some (f, g) → k ∉ qs.*1 →
       filter_value (parse_filters (qs ++ [(k, v)])).1 f (PyStr.lower g)
       = Some (_parse_filter_value v)
       ∧ ∀ prev, filter_value (parse_filters qs).1 f (PyStr.lower g) = Some prev →
                 LogOverwrite f (PyStr.lower g) v prev
                 ∈ (parse_filters (qs ++ [(k, v)])).2).
Proof.
  split.
  - intros Hin Hs. unfold parse_filters. rewrite pf_loop_snoc.
    rewrite pf_step_seen; [done|]. by apply pf_processed_keys_spec.
  - intros f g Hm Hout.
    pose proof (pf_fresh_key_not_processed qs k Hout) as Hk.
    destruct (pf_step_fresh (pf_loop qs) k v f g Hm Hk) as (Hv & Hlog & _).
    unfold parse_filters. rewrite pf_loop_snoc. cbn [fst snd]. split; [done|].
    intros prev Hp. apply elem_of_app. left. by apply Hlog.
Qed.

Lemma parse_filters_repeated_clause_witness :
  parse_filters [("filter[title][eq]", "a"); ("filter[title][eq]", "b")]
  = parse_filters [("filter[title][eq]", "a")]
  ∧ filter_value
      (parse_filters [("filter[title][eq]", "a"); ("filter[title][EQ]", "b")]).1
      "title" "eq" = Some (VStr "b")
  ∧ LogOverwrite "title" "eq" "b" (VStr "a")
    ∈ (parse_filters [("filter[title][eq]", "a"); ("filter[title][EQ]", "b")]).2.
Proof.
  split.
  - apply (proj1 (parse_filters_repeated_clause
                    [("filter[title][eq]", "a")] "filter[title][eq]" "b")).
    + vm_compute. apply list_elem_of_here.
    + vm_compute. by eexists.
  - pose proof (proj2 (parse_filters_repeated_clause
                         [("filter[title][eq]", "a")] "filter[title][EQ]" "b")
                      "title" "EQ" eq_refl) as H.
    assert ("filter[title][EQ]" ∉ [("filter[title][eq]", "a")].*1) as Hout.
    { cbn. intros Hin. apply list_elem_of_singleton in Hin. discriminate. }
    destruct (H Hout) as [H1 H2]. split; [exact H1|].
    apply (H2 (VStr "a")). vm_compute. reflexivity.
Defined.

(** C2, the claim as stated, fails: of these two entries with the same
    field and operator (the same key), the value of the last one is not
    kept and no overwrite is logged. *)
Lemma parse_filters_first_value_kept :
  parse_filters [("filter[title][eq]", "first"); ("filter[title][eq]", "last")]
  = ([("title", [("eq", VStr "first")])],
     [LogParsing; LogParsedFilter "title" "eq" (VStr "first") "first";
      LogFilters [("title", [("eq", VStr "first")])]]).
Proof. vm_compute. reflexivity. Qed.

(** The skipped entry leaves what is stored, which need not be the value of
    the first entry with its key: here the second entry, spelled [EQ], has
    overwritten it. *)
Example parse_filters_skip_keeps_stored_value :
  (parse_filters [("filter[title][eq]", "a"); ("filter[title][EQ]", "b");
                  ("filter[title][eq]", "c")]).1
  = [("title", [("eq", VStr "b")])].
Proof. vm_compute. reflexivity. Qed.

(** C9 (as the code has it).  A raw value that is "null" or "none" in any
    letter case is parsed to [None]; [parse_filters] stores [None] for an
    entry with that value whose key string did not occur before; and
    [isnull] applied to [None] compiles to IS NOT NULL, since [None] is
    falsy. *)
Theorem null_literal_compiles_to_is_not_null (v : string) :
  str_in (PyStr.lower v) ["null"; "none"] = true →
  _parse_filter_value v = VNone
  ∧ (∀ qs k f g,
       FILTER_PATTERN_fullmatch k = Some (f, g) → k ∉ qs.*1 →
       filter_value (parse_filters (qs ++ [(k, v)])).1 f (PyStr.lower g) = Some VNone)
  ∧ (∀ py_str raises sch model_cls relations_map query field c m joins,
       _get_column_or_relationship sch model_cls field relations_map
       = inr (c, m, joins) →
       (∃ q', UtilsBd.apply_filters py_str raises sch model_cls relations_map query
                [(field, [("isnull", _parse_filter_value v)])] = inr q'
              ∧ q_where q' = q_where query ++ [PIsNotNull c])
       ∧ (∃ q', CrudUtils.apply_filters raises sch model_cls relations_map query
                  [(field, [("isnull", _parse_filter_value v)])] = inr q'
                ∧ q_where q' = q_where query ++ [PIsNotNull c])).
Proof.
  intros Hv. pose proof (parse_filter_value_null v Hv) as Hnone.
  split; [exact Hnone|]. split.
  - intros qs k f g Hm Hout. rewrite <- Hnone.
    by apply parse_filters_stores_fresh.
  - intros py_str raises sch model_cls relations_map query field c m joins Hres.
    rewrite Hnone.
    exact (single_isnull_clause py_str raises sch model_cls relations_map query
             field c m joins VNone Hres).
Qed.

Lemma null_literal_compiles_to_is_not_null_witness :
  _parse_filter_value "NULL" = VNone
  ∧ filter_value (parse_filters [("filter[resumo][isnull]", "NULL")]).1
      "resumo" "isnull" = Some VNone
  ∧ ∃ q', CrudUtils.apply_filters models_sqlalchemy models "WebLink"
            (property_map models "WebLink") empty_select
            [("resumo", [("isnull", _parse_filter_value "NULL")])] = inr q'
          ∧ q_where q' = [PIsNotNull (mk_attr "WebLink" "resumo")].
Proof.
  destruct (null_literal_compiles_to_is_not_null "NULL" eq_refl) as (H1 & H2 & H3).
  split; [exact H1|]. split.
  - apply (H2 [] "filter[resumo][isnull]" "resumo" "isnull" eq_refl).
    cbn. apply not_elem_of_nil.
  - exact (proj2 (H3 (fun _ => "") models_sqlalchemy models "WebLink"
                     (property_map models "WebLink") empty_select
                     "resumo" (mk_attr "WebLink" "resumo") "WebLink" [] eq_refl)).
Defined.

(** C9, the claim as stated, fails: an entry with the raw value "null"
    whose key already occurred is skipped, so [None] is not stored; here
    [True] stays in the filter map and [isnull] compiles to IS NULL. *)
Lemma null_after_true_is_not_stored :
  (parse_filters [("filter[resumo][isnull]", "true");
                  ("filter[resumo][isnull]", "null")]).1
  = [("resumo", [("isnull", VBool true)])]
  ∧ CrudUtils.apply_filters models_sqlalchemy models "WebLink"
      (property_map models "WebLink") empty_select
      (parse_filters [("filter[resumo][isnull]", "true");
                      ("filter[resumo][isnull]", "null")]).1
    = inr (mk_select [] [PIsNull (mk_attr "WebLink" "resumo")] [] [])
  ∧ UtilsBd.apply_filters (fun _ => "") models_sqlalchemy models "WebLink"
      (property_map models "WebLink") empty_select
      (parse_filters [("filter[resumo][isnull]", "true");
                      ("filter[resumo][isnull]", "null")]).1
    = inr (mk_select [] [PIsNull (mk_attr "WebLink" "resumo")] [] []).
Proof. repeat split; vm_compute; reflexivity. Qed.

(** ** The selection tree *)

(** C7.  The selector "[tenants].nome,roles.nome" parses to
    [{tenants: {"__all__": {nome: True}}, roles: {nome: True}}].  In
    general a bracketed segment puts whatever follows it one level deeper,
    under "__all__", and a bare segment with a continuation nests what
    follows directly. *)
Theorem mixed_selector_tree :
  parse_select_fields_for_pydantic (Some "[tenants].nome,roles.nome")
  = Some [("tenants", SDict [("__all__", SDict [("nome", STrue)])]);
          ("roles", SDict [("nome", STrue)])]
  ∧ (∀ part name rest,
       list_part_fullmatch part = Some name → rest ≠ [] →
       select_path (part :: rest) []
       = [(name, SDict [("__all__", SDict (select_path rest []))])])
  ∧ (∀ part rest,
       list_part_fullmatch part = None → rest ≠ [] →
       select_path (part :: rest) [] = [(part, SDict (select_path rest []))]).
Proof.
  split; [vm_compute; reflexivity|]. split.
  - intros part name rest Hm Hrest. cbn [select_path]. rewrite Hm.
    destruct rest; [done|]. reflexivity.
  - intros part rest Hm Hrest. cbn [select_path]. rewrite Hm.
    destruct rest; [done|]. reflexivity.
Qed.

Lemma mixed_selector_tree_witness :
  select_path ["[tenants]"; "nome"] []
  = [("tenants", SDict [("__all__", SDict (select_path ["nome"] []))])]
  ∧ select_path ["roles"; "nome"] [] = [("roles", SDict (select_path ["nome"] []))].
Proof.
  destruct mixed_selector_tree as (_ & Hlist & Hbare). split.
  - apply (Hlist "[tenants]" "tenants" ["nome"]); [reflexivity|discriminate].
  - apply (Hbare "roles" ["nome"]); [reflexivity|discriminate].
Defined.

Lemma select_path_not_nil parts level :
  parts ≠ [] ∨ level ≠ [] → select_path parts level ≠ [].
Proof.
  destruct parts as [|part rest]; cbn [select_path]; [by intros [?|?]|].
  intros _. destruct (list_part_fullmatch part) as [name|].
  - destruct rest; apply od_set_not_nil.
  - destruct rest; [|apply od_set_not_nil].
    unfold get_dict. destruct (od_get level part) as [[|d]|] eqn:E;
      try apply od_set_not_nil.
    by eapply od_get_not_nil.
Qed.

Lemma split_not_nil sep s : PyStr.split sep s ≠ [].
Proof.
  destruct s as [|c s]; simpl; [done|].
  destruct (Ascii.eqb c sep); [done|]. by destruct (PyStr.split sep s).
Qed.

Lemma select_fold_not_nil fields acc :
  fields ≠ [] ∨ acc ≠ [] →
  foldl (fun d field_path => select_path (PyStr.split "." field_path) d) acc fields
  ≠ [].
Proof.
  revert acc. induction fields as [|fp fields IH]; intros acc H; cbn [foldl].
  - by destruct H.
  - apply IH. right. apply select_path_not_nil. left. apply split_not_nil.
Qed.

(** C8 (as the code has it).  A selector with at least one comma-separated
    token that is not blank gives a non-empty tree; a selector with no such
    token gives [None], even when the selector itself is not blank. *)
Theorem selection_tree_root_not_empty (s : string) :
  (PyStr.split_strip_nonempty s ≠ [] →
   ∃ d, parse_select_fields_for_pydantic (Some s) = Some d ∧ d ≠ [])
  ∧ (PyStr.split_strip_nonempty s = [] →
     parse_select_fields_for_pydantic (Some s) = None).
Proof.
  unfold parse_select_fields_for_pydantic. split.
  - intros Hne. destruct s as [|c s]; [by destruct Hne|]. cbn [PyStr.is_empty].
    destruct (PyStr.split_strip_nonempty (String c s)) as [|f fs] eqn:E; [done|].
    pose proof (select_fold_not_nil (f :: fs) [] (or_introl Hne)) as Hd.
    destruct (foldl (fun d field_path => select_path (PyStr.split "." field_path) d)
                    [] (f :: fs)) as [|x d] eqn:Ed; [done|].
    eexists; split; [reflexivity|done].
  - intros ->. by destruct (PyStr.is_empty s).
Qed.

Lemma selection_tree_root_not_empty_witness :
  (∃ d, parse_select_fields_for_pydantic (Some " id , ,") = Some d ∧ d ≠ [])
  ∧ parse_select_fields_for_pydantic (Some " , ") = None.
Proof.
  split.
  - apply (proj1 (selection_tree_root_not_empty " id , ,")). vm_compute. discriminate.
  - apply (proj2 (selection_tree_root_not_empty " , ")). vm_compute. reflexivity.
Defined.

(** C8, the claim as stated, fails: "," is not blank, yet it has no token
    and parses to [None]. *)
Lemma selection_tree_of_lone_comma :
  PyStr.strip "," ≠ "" ∧ parse_select_fields_for_pydantic (Some ",") = None.
Proof. split; [vm_compute; discriminate|vm_compute; reflexivity]. Qed.

(** ** Path resolution *)

Section ResolveFacts.
Context (sch : schema) (model_cls : string) (field_specifier : string)
        (relations_map : gmap string RelationshipProperty).

Lemma path_to_parts e parts hops col :
  path_to sch e parts hops col →
  parts = map rel_key hops ++ [attr_key col]
  ∧ attr_class col = from_option rel_target e (last hops).
Proof.
  induction 1 as [e c Hc|e r t rest hops col Hr Hp [IHparts IHcol]].
  - done.
  - split; [cbn [map rel_key app]; by rewrite <- IHparts|].
    rewrite IHcol. destruct hops as [|h hops]; [done|].
    rewrite last_cons_cons. destruct (last (h :: hops)) eqn:E; [done|].
    by apply last_None in E.
Qed.

(** The loop follows a valid path hop by hop and stops at its column. *)
Lemma resolve_loop_path e parts hops col :
  path_to sch e parts hops col →
  ∀ i joins,
    (i = 0 → ∀ r, head hops = Some r → relations_map !! rel_key r = Some r) →
    resolve_loop sch model_cls field_specifier relations_map i parts e joins
    = inr (Some col, attr_class col, joins ++ hops).
Proof.
  induction 1 as [e c Hc|e r t rest hops col Hr Hp IH]; intros i joins Hmap.
  - cbn [resolve_loop]. rewrite Hc. cbn. by rewrite app_nil_r.
  - cbn [resolve_loop]. rewrite Hr.
    assert (rest ≠ []) as Hrest by (inversion Hp; done).
    destruct rest as [|p rest]; [done|].
    destruct i as [|i].
    + pose proof (Hmap eq_refl (mk_rel e r t) eq_refl) as Hr0.
      cbn [rel_key] in Hr0. rewrite Hr0.
      rewrite IH by done. by rewrite <- app_assoc.
    + rewrite IH by done. by rewrite <- app_assoc.
Qed.
End ResolveFacts.

(** C4.  For a valid dotted specifier (its segments name relationships of
    the schema, the first of them mapped in [relations_map], and then a
    column), of any depth and so of depth 1 to 3, resolution succeeds; the
    list of hops it returns has one entry per relationship segment, in
    order, and the column it returns belongs to the target entity of the
    last hop (to the base entity when there is no hop). *)
Theorem resolve_valid_specifier
        (sch : schema) (model_cls field_specifier : string)
        (relations_map : gmap string RelationshipProperty)
        (hops : list RelationshipProperty) (col : InstrumentedAttribute) :
  path_to sch model_cls (PyStr.split "." field_specifier) hops col →
  (∀ r, head hops = Some r → relations_map !! rel_key r = Some r) →
  ∃ current_model joins,
    _get_column_or_relationship sch model_cls field_specifier relations_map
    = inr (col, current_model, joins)
    ∧ joins = hops
    ∧ PyStr.split "." field_specifier = map rel_key joins ++ [attr_key col]
    ∧ S (length joins) = length (PyStr.split "." field_specifier)
    ∧ attr_class col = current_model
    ∧ current_model = from_option rel_target model_cls (last joins).
Proof.
  intros Hpath Hmap.
  destruct (path_to_parts sch _ _ _ _ Hpath) as [Hparts Hcol].
  exists (attr_class col), hops. split.
  - unfold _get_column_or_relationship.
    rewrite (resolve_loop_path sch model_cls field_specifier relations_map
               _ _ _ _ Hpath 0 []) by (intros _; exact Hmap).
    reflexivity.
  - repeat split; try done.
    rewrite Hparts. rewrite length_app, length_map. cbn. lia.
Qed.

Lemma resolve_valid_specifier_witness :
  let usuario := mk_rel "PasswordResetToken" "usuario" "Usuario" in
  let web_links := mk_rel "Usuario" "web_links" "WebLink" in
  ∃ current_model joins,
    _get_column_or_relationship models "PasswordResetToken" "usuario.web_links.title"
      (property_map models "PasswordResetToken")
    = inr (mk_attr "WebLink" "title", current_model, joins)
    ∧ joins = [usuario; web_links]
    ∧ PyStr.split "." "usuario.web_links.title"
      = map rel_key joins ++ [attr_key (mk_attr "WebLink" "title")]
    ∧ S (length joins) = length (PyStr.split "." "usuario.web_links.title")
    ∧ attr_class (mk_attr "WebLink" "title") = current_model
    ∧ current_model = from_option rel_target "PasswordResetToken" (last joins).
Proof.
  intros usuario web_links.
  apply (resolve_valid_specifier models "PasswordResetToken" "usuario.web_links.title"
           (property_map models "PasswordResetToken")
           [usuario; web_links] (mk_attr "WebLink" "title")).
  - change (PyStr.split "." "usuario.web_links.title")
      with ["usuario"; "web_links"; "title"].
    apply path_hop; [reflexivity|].
    apply path_hop; [reflexivity|].
    apply path_column. reflexivity.
  - intros r [= <-]. vm_compute. reflexivity.
Defined.

(** ** Splitting and trimming names *)

Lemma word_char_plain c :
  PyStr.re_word c = true →
  Ascii.eqb c "," = false ∧ Ascii.eqb c "." = false ∧ Ascii.eqb c "[" = false
  ∧ PyStr.isspace c = false.
Proof.
  destruct c as [[] [] [] [] [] [] [] []]; vm_compute; intros H;
    first [discriminate H | repeat split].
Qed.

Lemma forall_char_impl (p q : ascii → bool) s :
  (∀ c, p c = true → q c = true) →
  PyStr.forall_char p s = true → PyStr.forall_char q s = true.
Proof.
  intros Hpq. induction s as [|c s IH]; cbn; [done|].
  intros H. apply andb_true_iff in H as [Hc Hs].
  by rewrite (Hpq c Hc), IH.
Qed.

Lemma split_without_sep sep s :
  PyStr.forall_char (fun c => negb (Ascii.eqb c sep)) s = true →
  PyStr.split sep s = [s].
Proof.
  induction s as [|c s IH]; cbn [PyStr.split PyStr.forall_char]; [done|].
  intros H. apply andb_true_iff in H as [Hc Hs].
  apply negb_true_iff in Hc. by rewrite Hc, (IH Hs).
Qed.

Lemma append_empty_l s : "" +:+ s = s.
Proof. reflexivity. Qed.

Lemma append_String c s t : String c s +:+ t = String c (s +:+ t).
Proof. reflexivity. Qed.

Lemma split_at_sep sep a b :
  PyStr.forall_char (fun c => negb (Ascii.eqb c sep)) a = true →
  PyStr.split sep (a +:+ String sep b) = a :: PyStr.split sep b.
Proof.
  induction a as [|c a IH]; cbn [PyStr.forall_char].
  - intros _. rewrite append_empty_l. cbn [PyStr.split]. by rewrite Ascii.eqb_refl.
  - intros H. apply andb_true_iff in H as [Hc Hs].
    apply negb_true_iff in Hc. rewrite append_String. cbn [PyStr.split].
    by rewrite Hc, (IH Hs).
Qed.

Lemma strip_without_space s :
  PyStr.forall_char (fun c => negb (PyStr.isspace c)) s = true → PyStr.strip s = s.
Proof.
  intros H. unfold PyStr.strip.
  assert (PyStr.lstrip s = s) as ->.
  { destruct s as [|c s]; cbn in *; [done|].
    apply andb_true_iff in H as [Hc _]. apply negb_true_iff in Hc. by rewrite Hc. }
  induction s as [|c s IH]; cbn in *; [done|].
  apply andb_true_iff in H as [Hc Hs]. apply negb_true_iff in Hc.
  by rewrite Hc, (IH Hs).
Qed.

Section Names.
Context (s : string) (Hname : is_name s = true).

Lemma name_not_empty : PyStr.is_empty s = false.
Proof. apply andb_true_iff in Hname as [H _]. by apply negb_true_iff in H. Qed.

Lemma name_chars (q : ascii → bool) :
  (∀ c, PyStr.re_word c = true → q c = true) → PyStr.forall_char q s = true.
Proof.
  intros Hq. apply andb_true_iff in Hname as [_ H]. by eapply forall_char_impl.
Qed.

Lemma name_no_sep sep :
  (∀ c, PyStr.re_word c = true → Ascii.eqb c sep = false) →
  PyStr.forall_char (fun c => negb (Ascii.eqb c sep)) s = true.
Proof. intros H. apply name_chars. intros c Hc. by rewrite (H c Hc). Qed.

Lemma name_strip : PyStr.strip s = s.
Proof.
  apply strip_without_space, name_chars. intros c Hc.
  by rewrite (proj2 (proj2 (proj2 (word_char_plain c Hc)))).
Qed.

Lemma name_split_dot : PyStr.split "." s = [s].
Proof.
  apply split_without_sep, name_no_sep. intros c Hc.
  exact (proj1 (proj2 (word_char_plain c Hc))).
Qed.

Lemma name_no_bracket : PyStr.startswith s "[" = false.
Proof.
  pose proof name_not_empty as Hne.
  apply andb_true_iff in Hname as [_ H].
  destruct s as [|c s']; [done|]. cbn in H.
  apply andb_true_iff in H as [Hc _].
  destruct (word_char_plain c Hc) as (_ & _ & Hb & _).
  unfold PyStr.startswith. cbn [PyStr.strip_prefix].
  rewrite Ascii.eqb_sym in Hb. by rewrite Hb.
Qed.

(** A plain name is taken for a relationship exactly when the model has one
    of that name. *)
Lemma extract_step_name keys acc :
  extract_step keys acc s = if bool_decide (s ∈ keys) then {[s]} ∪ acc else acc.
Proof.
  unfold extract_step. rewrite name_no_bracket. cbn [andb].
  by rewrite name_split_dot.
Qed.
End Names.

Lemma split_two_names a b :
  is_name a = true → is_name b = true →
  PyStr.split_strip_nonempty (a +:+ "," +:+ b) = [a; b].
Proof.
  intros Ha Hb. unfold PyStr.split_strip_nonempty.
  assert (∀ c, PyStr.re_word c = true → Ascii.eqb c "," = false) as Hcomma.
  { intros c Hc. exact (proj1 (word_char_plain c Hc)). }
  change ("," +:+ b) with (String "," b).
  rewrite split_at_sep by (by apply name_no_sep).
  rewrite split_without_sep by (by apply name_no_sep).
  cbn [map]. rewrite !name_strip by done.
  rewrite !filter_cons_True by (by apply name_not_empty). done.
Qed.

(** ** The load planner *)

(** C3.  With no include (absent or empty), [apply_select_load_options]
    attaches one [noload] per relationship of the base entity and no
    [selectinload].  With the include "a,b", where a names a relationship
    of the entity and b does not, it attaches [selectinload] for a and
    [noload] for every other relationship; b raises nothing and leaves no
    trace. *)
Theorem load_planner_default_and_unknown
        (sch : schema) (model_cls : string) (query : Select) :
  let keys := model_relation_keys_of sch model_cls in
  (∀ include_param,
     include_param = None ∨ include_param = Some "" →
     apply_select_load_options sch query model_cls include_param
     = q_add_options query
         (map (fun r => noload (mk_attr model_cls r)) (elements keys)))
  ∧ (∀ a b,
       is_name a = true → is_name b = true → a ∈ keys → b ∉ keys →
       apply_select_load_options sch query model_cls (Some (a +:+ "," +:+ b))
       = q_add_options query
           (map (fun r => if bool_decide (r = a)
                          then selectinload (mk_attr model_cls r)
                          else noload (mk_attr model_cls r))
                (elements keys))).
Proof.
  intros keys.
  assert (∀ opts, match opts with
                  | [] => query
                  | o :: os => q_add_options query (o :: os)
                  end = q_add_options query opts) as Hnil.
  { intros [|o opts]; [|done]. destruct query. unfold q_add_options. cbn.
    by rewrite app_nil_r. }
  split.
  - intros include_param Hinc. unfold apply_select_load_options. rewrite Hnil.
    f_equal. unfold load_options_for. apply map_ext. intros r.
    assert (extract_relationships_from_select_hybrid include_param
              (model_relation_keys_of sch model_cls) = ∅) as ->.
    { by destruct Hinc as [-> | ->]. }
    by rewrite bool_decide_eq_false_2 by set_solver.
  - intros a b Ha Hb Hin Hout. unfold apply_select_load_options. rewrite Hnil.
    f_equal. unfold load_options_for. apply map_ext. intros r.
    assert (extract_relationships_from_select_hybrid (Some (a +:+ "," +:+ b))
              (model_relation_keys_of sch model_cls) = {[a]}) as ->.
    { unfold extract_relationships_from_select_hybrid.
      assert (PyStr.is_empty (a +:+ "," +:+ b) = false) as ->.
      { pose proof (name_not_empty a Ha). destruct a; [done|].
        by rewrite append_String. }
      rewrite split_two_names by done. cbn [foldl].
      rewrite !extract_step_name by done. fold keys.
      rewrite (bool_decide_eq_false_2 (b ∈ keys)) by done.
      rewrite (bool_decide_eq_true_2 (a ∈ keys)) by done.
      apply union_empty_r_L. }
    destruct (decide (r = a)) as [->|Hne].
    + rewrite !bool_decide_eq_true_2; [done..|set_solver].
    + rewrite !bool_decide_eq_false_2; [done..|set_solver].
Qed.

Lemma load_planner_default_and_unknown_witness :
  apply_select_load_options models empty_select "Usuario" (Some "")
  = q_add_options empty_select [noload (mk_attr "Usuario" "web_links")]
  ∧ apply_select_load_options models empty_select "Usuario" (Some "web_links,tenants")
    = q_add_options empty_select [selectinload (mk_attr "Usuario" "web_links")].
Proof.
  destruct (load_planner_default_and_unknown models "Usuario" empty_select)
    as [Hnone Hab].
  split.
  - rewrite (Hnone (Some "") (or_intror eq_refl)). vm_compute. reflexivity.
  - change "web_links,tenants" with ("web_links" +:+ "," +:+ "tenants").
    rewrite (Hab "web_links" "tenants" eq_refl eq_refl).
    + vm_compute. reflexivity.
    + apply (bool_decide_unpack _). vm_compute. exact I.
    + apply (bool_decide_unpack _). vm_compute. exact I.
Defined.

(** ** The shape of a recognized key *)

(** A recognized key is the word "filter" followed by the two groups, each
    in brackets, neither group holding a newline. *)
Lemma unsnoc_spec s body c :
  PyStr.unsnoc s = Some (body, c) → s = body +:+ String c EmptyString.
Proof.
  revert body. induction s as [|a s IH]; intros body; cbn [PyStr.unsnoc]; [done|].
  destruct (PyStr.unsnoc s) as [[b l]|] eqn:E.
  - intros [= <- <-]. rewrite append_String. f_equal. by apply IH.
  - intros [= <- <-]. destruct s as [|a' s]; [done|].
    cbn [PyStr.unsnoc] in E. by destruct (PyStr.unsnoc s) as [[? ?]|].
Qed.

Lemma strip_prefix_spec p s t : PyStr.strip_prefix p s = Some t → s = p +:+ t.
Proof.
  revert s. induction p as [|a p IH]; intros s; cbn [PyStr.strip_prefix].
  - by intros [= <-].
  - destruct s as [|b s]; [done|].
    destruct (Ascii.eqb a b) eqn:E; [|done].
    apply Ascii.eqb_eq in E. subst b. intros H.
    rewrite append_String. f_equal. by apply IH.
Qed.

Lemma forall_char_snoc p s c :
  PyStr.forall_char p (s +:+ String c EmptyString)
  = PyStr.forall_char p s && p c.
Proof.
  induction s as [|a s IH].
  - rewrite append_empty_l. cbn. by rewrite andb_true_r.
  - rewrite append_String. cbn [PyStr.forall_char]. by rewrite IH, andb_assoc.
Qed.

Lemma append_snoc_assoc g c s :
  (g +:+ String c EmptyString) +:+ s = g +:+ String c s.
Proof.
  induction g as [|a g IH]; [done|]. rewrite !append_String. by rewrite IH.
Qed.

Lemma fp_first_group_shape g1 s f g :
  PyStr.forall_char PyStr.re_dot g1 = true →
  fp_first_group g1 s = Some (f, g) →
  g1 +:+ s = f +:+ "][" +:+ g +:+ "]"
  ∧ PyStr.forall_char PyStr.re_dot f = true
  ∧ PyStr.forall_char PyStr.re_dot g = true.
Proof.
  revert g1. induction s as [|c s IH]; intros g1 Hg1; cbn [fp_first_group]; [done|].
  assert (PyStr.re_dot c = true → fp_first_group (g1 +:+ String c "") s = Some (f, g) →
          g1 +:+ String c s = f +:+ "][" +:+ g +:+ "]"
          ∧ PyStr.forall_char PyStr.re_dot f = true
          ∧ PyStr.forall_char PyStr.re_dot g = true) as Hrec.
  { intros Hc H. rewrite <- append_snoc_assoc. apply IH; [|done].
    by rewrite forall_char_snoc, Hg1, Hc. }
  destruct (PyStr.is_empty g1).
  { destruct (PyStr.re_dot c); [by apply Hrec|done]. }
  destruct (PyStr.strip_prefix "][" (String c s)) as [t|] eqn:Et.
  - destruct (fp_last_group t) as [g2|] eqn:E2.
    + intros [= <- <-]. apply strip_prefix_spec in Et. rewrite Et.
      unfold fp_last_group in E2.
      destruct (PyStr.unsnoc t) as [[b l]|] eqn:Eu; [|done].
      destruct (Ascii.eqb l "]") eqn:El; [|done]. apply Ascii.eqb_eq in El. subst l.
      destruct (PyStr.is_empty b); [done|]. cbn [negb andb] in E2.
      destruct (PyStr.forall_char PyStr.re_dot b) eqn:Eb; [|done].
      injection E2 as <-. apply unsnoc_spec in Eu. by rewrite Eu.
    + destruct (PyStr.re_dot c); [by apply Hrec|done].
  - destruct (PyStr.re_dot c); [by apply Hrec|done].
Qed.

Lemma FILTER_PATTERN_fullmatch_shape key f g :
  FILTER_PATTERN_fullmatch key = Some (f, g) →
  key = "filter[" +:+ f +:+ "][" +:+ g +:+ "]"
  ∧ PyStr.forall_char PyStr.re_dot f = true
  ∧ PyStr.forall_char PyStr.re_dot g = true.
Proof.
  unfold FILTER_PATTERN_fullmatch.
  destruct (PyStr.strip_prefix "filter[" key) as [t|] eqn:Et; [|done].
  intros H. apply strip_prefix_spec in Et.
  destruct (fp_first_group_shape "" t f g eq_refl H) as (Hs & Hf & Hg).
  rewrite append_empty_l in Hs. by rewrite Et, Hs.
Qed.

(** ** Checks against the examples kept in the sources *)

(** The expected results written next to the tests at the end of
    query_parser.py. *)
Example parse_filters_test_1 :
  (parse_filters [("filter[name][ilike]", "%test%"); ("filter[status][eq]", "active");
                  ("skip", "0"); ("limit", "10")]).1
  = [("name", [("ilike", VStr "%test%")]); ("status", [("eq", VStr "active")])].
Proof. vm_compute. reflexivity. Qed.

Example parse_filters_test_2 :
  (parse_filters [("filter[count][gte]", "10"); ("filter[is_deleted][eq]", "false");
                  ("filter[created_at][lt]", "2023-01-01")]).1
  = [("count", [("gte", VStr "10")]); ("is_deleted", [("eq", VBool false)]);
     ("created_at", [("lt", VStr "2023-01-01")])].
Proof. vm_compute. reflexivity. Qed.

Example parse_filters_test_3 :
  (parse_filters [("filter[relation.field][neq]", "some_value");
                  ("filter[another_field][isnull]", "true")]).1
  = [("relation.field", [("neq", VStr "some_value")]);
     ("another_field", [("isnull", VBool true)])].
Proof. vm_compute. reflexivity. Qed.

Example parse_filters_test_4 :
  (parse_filters [("filter[tags][in]", "python,fastapi"); ("filter[id][eq]", "123")]).1
  = [("tags", [("in", VStr "python,fastapi")]); ("id", [("eq", VStr "123")])].
Proof. vm_compute. reflexivity. Qed.

Example parse_filters_test_5 :
  (parse_filters [("invalid_filter", "abc"); ("filter[name]invalid", "test")]).1 = [].
Proof. vm_compute. reflexivity. Qed.

(** The example of the docstring of [extract_relationships_from_select_hybrid]. *)
Example extract_relationships_docstring :
  extract_relationships_from_select_hybrid (Some "[tenants].nome,roles.nome,id,email")
    ({["tenants"]} ∪ {["roles"]})
  = {["tenants"]} ∪ {["roles"]}.
Proof. vm_compute. reflexivity. Qed.

(** The strict sibling of the load planner refuses the unknown name the
    load planner lets pass. *)
Example validated_load_options_rejects_unknown :
  get_validated_load_options "Usuario" (property_map models "Usuario")
    ["web_links"; "tenants"]
  = inl (InvalidIncludes ["tenants"]).
Proof. vm_compute. reflexivity. Qed.

(** The matchers agree with Python's [re] on keys and segments with stray
    brackets. *)
Example FILTER_PATTERN_cases :
  map FILTER_PATTERN_fullmatch
      ["filter[a][b]"; "filter[a][b][c]"; "filter[][b]"; "filter[]][b]";
       "filter[a][]"; "filter[a][]]"; "filter[name]invalid"; "xfilter[a][b]";
       "filter[][][x]"; "filter[a][b]]"; "filter[[a]][b]"]
  = [Some ("a", "b"); Some ("a", "b][c"); None; Some ("]", "b");
     None; Some ("a", "]"); None; None;
     Some ("][", "x"); Some ("a", "b]"); Some ("[a]", "b")].
Proof. vm_compute. reflexivity. Qed.

Example list_part_cases :
  map list_part_fullmatch ["[a]"; "[a.b]"; "[]"; "[a]]"; "[[a]"; "[a_1Z]"]
  = [Some "a"; None; None; None; None; Some "a_1Z"].
Proof. vm_compute. reflexivity. Qed.

Example relation_match_cases :
  map relation_match ["[]x]"; "[ab].c]"; "[ab"; "[a]"; "x[a]"]
  = [None; Some "ab"; None; Some "a"; None].
Proof. vm_compute. reflexivity. Qed.

(** * Further properties *)

(** ** Path resolution: what succeeds and what each error means *)

Section ResolveConverse.
Context (sch : schema) (model_cls : string) (field_specifier : string)
        (relations_map : gmap string RelationshipProperty).

Lemma resolve_loop_sound parts :
  ∀ i e joins0 col m joins,
    resolve_loop sch model_cls field_specifier relations_map i parts e joins0
    = inr (Some col, m, joins) →
    ∃ hops, path_to sch e parts hops col
            ∧ attr_class col = m
            ∧ match hops with
              | [] => joins = joins0
              | h :: hs =>
                  match i with
                  | O => ∃ j, relations_map !! rel_key h = Some j
                              ∧ joins = joins0 ++ j :: hs
                  | S _ => joins = joins0 ++ h :: hs
                  end
              end.
Proof.
  induction parts as [|part rest IH]; intros i e joins0 col m joins;
    cbn [resolve_loop]; [done|].
  destruct (getattr sch e part) as [[|t| |]|] eqn:Hg; try done.
  - destruct rest as [|p rest]; [|done]. cbn. intros [= <- <- <-].
    exists []. split; [by constructor|done].
  - destruct rest as [|p rest]; [done|].
    destruct i as [|i].
    + destruct (relations_map !! part) as [r|] eqn:Hr; [|done].
      intros H. apply IH in H as (hops & Hp & Hc & Hj).
      exists (mk_rel e part t :: hops). split; [by constructor|]. split; [done|].
      exists r. split; [done|].
      destruct hops; subst joins; [done|by rewrite <- app_assoc].
    + intros H. apply IH in H as (hops & Hp & Hc & Hj).
      exists (mk_rel e part t :: hops). split; [by constructor|]. split; [done|].
      destruct hops; subst joins; [done|by rewrite <- app_assoc].
Qed.

Lemma resolve_loop_never_none parts i e joins0 m joins :
  parts ≠ [] →
  resolve_loop sch model_cls field_specifier relations_map i parts e joins0
  ≠ inr (None, m, joins).
Proof.
  revert i e joins0. induction parts as [|part rest IH]; intros i e joins0 Hne;
    [done|]. cbn [resolve_loop].
  destruct (getattr sch e part) as [[|t| |]|]; try done.
  - by destruct rest.
  - destruct rest as [|p rest]; [done|].
    destruct i; [destruct (relations_map !! part); [|done]|]; by apply IH.
Qed.

Lemma resolve_loop_error parts :
  ∀ i e joins0 err,
    resolve_loop sch model_cls field_specifier relations_map i parts e joins0
    = inl err →
    ∃ pre p rest m,
      parts = pre ++ p :: rest
      ∧ walk sch e pre m
      ∧ segment_error sch model_cls field_specifier relations_map
          (i = 0 ∧ pre = []) (rest = []) m p err.
Proof.
  induction parts as [|part rest IH]; intros i e joins0 err;
    cbn [resolve_loop]; [done|].
  destruct (getattr sch e part) as [[|t| |]|] eqn:Hg.
  - destruct rest as [|p rest]; [done|]. cbn. intros [= <-].
    exists [], part, (p :: rest), e. split; [done|]. split; [constructor|].
    unfold segment_error. rewrite Hg. done.
  - destruct rest as [|p rest].
    { cbn. intros [= <-]. exists [], part, [], e.
      split; [done|]. split; [constructor|].
      unfold segment_error. rewrite Hg. by left. }
    assert (∀ i' joins1,
              resolve_loop sch model_cls field_specifier relations_map i'
                (p :: rest) t joins1 = inl err → i' ≠ 0 →
              ∃ pre p0 rest0 m,
                part :: p :: rest = pre ++ p0 :: rest0 ∧ walk sch e pre m
                ∧ segment_error sch model_cls field_specifier relations_map
                    (i = 0 ∧ pre = []) (rest0 = []) m p0 err) as Hrec.
    { intros i' joins1 H Hi'. apply IH in H as (pre & p0 & rest0 & m & E & Hw & Hs).
      exists (part :: pre), p0, rest0, m. split; [by rewrite E|].
      split; [by econstructor|].
      unfold segment_error in *. destruct (getattr sch m p0) as [[| | |]|]; try done.
      destruct Hs as [Hs|(? & [? ?] & ?)]; [by left|done]. }
    destruct i as [|i].
    + destruct (relations_map !! part) as [r|] eqn:Hr.
      * intros H. by eapply Hrec.
      * cbn. intros [= <-]. exists [], part, (p :: rest), e.
        split; [done|]. split; [constructor|].
        unfold segment_error. rewrite Hg. by right.
    + intros H. by eapply Hrec.
  - cbn. intros [= <-]. exists [], part, rest, e. split; [done|].
    split; [constructor|]. unfold segment_error. by rewrite Hg.
  - cbn. intros [= <-]. exists [], part, rest, e. split; [done|].
    split; [constructor|]. unfold segment_error. by rewrite Hg.
  - cbn. intros [= <-]. exists [], part, rest, e. split; [done|].
    split; [constructor|]. unfold segment_error. by rewrite Hg.
Qed.
End ResolveConverse.

Lemma path_to_column sch e parts hops col :
  path_to sch e parts hops col →
  getattr sch (attr_class col) (attr_key col) = Some AColumn.
Proof. induction 1; done. Qed.

(** X1.  Resolution succeeds on valid specifiers only: when
    [_get_column_or_relationship] returns, the segments of the specifier are
    relationships of the schema followed by a column of the entity they lead
    to, there is one returned hop per relationship segment, the first hop is
    what [relations_map] holds for the first segment and the later hops are
    the schema's own. *)
Theorem resolve_only_valid_specifiers
        (sch : schema) (model_cls field_specifier : string)
        (relations_map : gmap string RelationshipProperty)
        (col : InstrumentedAttribute) (m : string)
        (joins : list RelationshipProperty) :
  _get_column_or_relationship sch model_cls field_specifier relations_map
  = inr (col, m, joins) →
  ∃ hops,
    path_to sch model_cls (PyStr.split "." field_specifier) hops col
    ∧ attr_class col = m
    ∧ getattr sch m (attr_key col) = Some AColumn
    ∧ length joins = length hops
    ∧ tail joins = tail hops
    ∧ ∀ h, head hops = Some h → relations_map !! rel_key h = head joins.
Proof.
  unfold _get_column_or_relationship.
  destruct (resolve_loop sch model_cls field_specifier relations_map 0
              (PyStr.split "." field_specifier) model_cls [])
    as [e|[[[c|] m'] js]] eqn:E; cbn; [done| |done].
  intros [= -> -> ->].
  apply resolve_loop_sound in E as (hops & Hp & Hc & Hj).
  exists hops. split; [done|]. split; [done|].
  split; [rewrite <- Hc; by eapply path_to_column|].
  destruct hops as [|h hs]; [by subst joins|].
  destruct Hj as (j & Hj & ->). cbn. repeat split; try done.
  by intros h' [= <-].
Qed.

Lemma resolve_only_valid_specifiers_witness :
  ∃ hops,
    path_to models "WebLink" (PyStr.split "." "usuario.nome") hops
      (mk_attr "Usuario" "nome")
    ∧ attr_class (mk_attr "Usuario" "nome") = "Usuario"
    ∧ getattr models "Usuario" (attr_key (mk_attr "Usuario" "nome")) = Some AColumn
    ∧ length [mk_rel "WebLink" "usuario" "Usuario"] = length hops
    ∧ tail [mk_rel "WebLink" "usuario" "Usuario"] = tail hops
    ∧ ∀ h, head hops = Some h →
           property_map models "WebLink" !! rel_key h
           = head [mk_rel "WebLink" "usuario" "Usuario"].
Proof.
  apply (resolve_only_valid_specifiers models "WebLink" "usuario.nome"
           (property_map models "WebLink")).
  vm_compute. reflexivity.
Defined.

(** X2.  A failed resolution names the first segment that cannot be
    followed: the segments before it are relationships of the schema, and
    the exception tells what is wrong with it on the entity reached (no such
    attribute, an attribute that is not mapped, a column with segments after
    it, a relationship in last position, or a first-segment relationship
    missing from [relations_map]).  The closing "could not resolve" error of
    the source is never raised. *)
Theorem resolve_error_names_first_bad_segment
        (sch : schema) (model_cls field_specifier : string)
        (relations_map : gmap string RelationshipProperty) (err : exn) :
  _get_column_or_relationship sch model_cls field_specifier relations_map = inl err →
  (∃ pre p rest m,
      PyStr.split "." field_specifier = pre ++ p :: rest
      ∧ walk sch model_cls pre m
      ∧ segment_error sch model_cls field_specifier relations_map
          (pre = []) (rest = []) m p err)
  ∧ ∀ f, err ≠ UnresolvedAttribute f.
Proof.
  unfold _get_column_or_relationship.
  destruct (resolve_loop sch model_cls field_specifier relations_map 0
              (PyStr.split "." field_specifier) model_cls [])
    as [e|[[[c|] m'] js]] eqn:E; cbn; [|done|].
  - intros [= ->].
    apply resolve_loop_error in E as (pre & p & rest & m & Hs & Hw & He).
    assert (segment_error sch model_cls field_specifier relations_map
              (pre = []) (rest = []) m p err) as He'.
    { unfold segment_error in *. destruct (getattr sch m p) as [[| | |]|]; try done.
      destruct He as [He|(? & [_ ?] & ? & ?)]; [by left|by right]. }
    split; [by exists pre, p, rest, m|].
    intros f ->. unfold segment_error in He'.
    destruct (getattr sch m p) as [[| | |]|]; try done; [by destruct He'|].
    by destruct He' as [[_ ?]|(_ & _ & _ & ?)].
  - exfalso. by eapply resolve_loop_never_none; [apply split_not_nil|exact E].
Qed.

Lemma resolve_error_names_first_bad_segment_witness :
  ∃ pre p rest m,
    PyStr.split "." "usuario.web_links" = pre ++ p :: rest
    ∧ walk models "PasswordResetToken" pre m
    ∧ segment_error models "PasswordResetToken" "usuario.web_links"
        (property_map models "PasswordResetToken")
        (pre = []) (rest = []) m p
        (RelationshipAsTerminal "web_links" "usuario.web_links").
Proof.
  apply (resolve_error_names_first_bad_segment models "PasswordResetToken"
           "usuario.web_links"
           (property_map models "PasswordResetToken")).
  vm_compute. reflexivity.
Defined.

(** ** The relations map generated from the model *)




(** ** What [apply_filters] builds *)

Lemma select_ext (a b : Select) :
  q_joins a = q_joins b → q_where a = q_where b →
  q_options a = q_options b → q_order_by a = q_order_by b → a = b.
Proof. destruct a, b. cbn. by intros -> -> -> ->. Qed.

Section FiltersBuild.
Context (py_str : pyval → string) (raises : sqlalchemy).
Context (sch : schema) (model_cls : string)
        (relations_map : gmap string RelationshipProperty).

Lemma crud_utils_join_fold st hops :
  let st' := foldl CrudUtils.join_step st hops in
  q_joins (CrudUtils.af_query st') = q_joins (CrudUtils.af_query st) ++ map outer_join hops
  ∧ q_where (CrudUtils.af_query st') = q_where (CrudUtils.af_query st)
  ∧ q_options (CrudUtils.af_query st') = q_options (CrudUtils.af_query st)
  ∧ q_order_by (CrudUtils.af_query st') = q_order_by (CrudUtils.af_query st).
Proof.
  revert st. induction hops as [|h hops IH]; intros st; cbn [foldl map].
  - by rewrite app_nil_r.
  - destruct (IH (CrudUtils.join_step st h)) as (-> & -> & -> & ->).
    cbn. by rewrite <- app_assoc.
Qed.

Lemma crud_utils_operator_step_compile field c st item :
  CrudUtils.operator_step raises field c st item
  = match compile_operator raises field c item with
    | inl e => inl e
    | inr p => inr (CrudUtils.mk_af_state (q_add_where (CrudUtils.af_query st) p)
                                          (CrudUtils.applied_joins st))
    end.
Proof.
  destruct item as [op v]. unfold compile_operator, CrudUtils.operator_step.
  cbn [fst snd]. destruct (od_get OPERATOR_MAP (PyStr.lower op)) as [f|]; [|done].
  destruct (coerce_operand op field v) as [e|v']; [done|].
  by destruct (f raises c v').
Qed.

Lemma crud_utils_operators field c ops st :
  match collect (compile_operator raises field c) ops with
  | inl e => for_each (CrudUtils.operator_step raises field c) st ops = inl e
  | inr preds =>
      ∃ st', for_each (CrudUtils.operator_step raises field c) st ops = inr st'
             ∧ q_joins (CrudUtils.af_query st') = q_joins (CrudUtils.af_query st)
             ∧ q_where (CrudUtils.af_query st') = q_where (CrudUtils.af_query st) ++ preds
             ∧ q_options (CrudUtils.af_query st') = q_options (CrudUtils.af_query st)
             ∧ q_order_by (CrudUtils.af_query st') = q_order_by (CrudUtils.af_query st)
  end.
Proof.
  revert st. induction ops as [|item ops IH]; intros st; cbn [collect for_each].
  - exists st. by rewrite app_nil_r.
  - rewrite crud_utils_operator_step_compile.
    destruct (compile_operator raises field c item) as [e|p]; [done|]. cbn [mbind exn_bind].
    specialize (IH (CrudUtils.mk_af_state
                      (q_add_where (CrudUtils.af_query st) p)
                      (CrudUtils.applied_joins st))).
    destruct (collect (compile_operator raises field c) ops) as [e|preds]; [done|].
    destruct IH as (st' & -> & Hj & Hw & Ho & Hb). exists st'.
    cbn in *. rewrite Hj, Hw, Ho, Hb. by rewrite <- app_assoc.
Qed.

Lemma crud_utils_field_step_eq st field ops :
  CrudUtils.field_step raises sch model_cls relations_map st (field, ops)
  = match _get_column_or_relationship sch model_cls field relations_map with
    | inl e => inl e
    | inr (c, _, hops) =>
        for_each (CrudUtils.operator_step raises field c)
                 (foldl CrudUtils.join_step st hops) ops
    end.
Proof.
  unfold CrudUtils.field_step.
  by destruct (_get_column_or_relationship sch model_cls field relations_map)
    as [e|[[c m] hops]].
Qed.

Lemma compile_clause_eq field ops :
  compile_clause raises sch model_cls relations_map (field, ops)
  = match _get_column_or_relationship sch model_cls field relations_map with
    | inl e => inl e
    | inr (c, _, hops) =>
        match collect (compile_operator raises field c) ops with
        | inl e => inl e
        | inr preds => inr (hops, preds)
        end
    end.
Proof. reflexivity. Qed.

Lemma crud_utils_fields params st :
  match collect (compile_clause raises sch model_cls relations_map) params with
  | inl e => for_each (CrudUtils.field_step raises sch model_cls relations_map) st params = inl e
  | inr clauses =>
      ∃ st', for_each (CrudUtils.field_step raises sch model_cls relations_map) st params
             = inr st'
             ∧ q_joins (CrudUtils.af_query st')
               = q_joins (CrudUtils.af_query st) ++ map outer_join (concat clauses.*1)
             ∧ q_where (CrudUtils.af_query st')
               = q_where (CrudUtils.af_query st) ++ concat clauses.*2
             ∧ q_options (CrudUtils.af_query st') = q_options (CrudUtils.af_query st)
             ∧ q_order_by (CrudUtils.af_query st') = q_order_by (CrudUtils.af_query st)
  end.
Proof.
  revert st. induction params as [|[field ops] params IH]; intros st;
    cbn [collect for_each].
  - exists st. cbn. by rewrite !app_nil_r.
  - rewrite compile_clause_eq, crud_utils_field_step_eq.
    destruct (_get_column_or_relationship sch model_cls field relations_map)
      as [e|[[c m] hops]]; [done|]. cbn [mbind exn_bind].
    pose proof (crud_utils_operators field c ops
                  (foldl CrudUtils.join_step st hops)) as Hops.
    destruct (collect (compile_operator raises field c) ops) as [e|preds]; [by rewrite Hops|].
    destruct Hops as (st1 & -> & Hj1 & Hw1 & Ho1 & Hb1). cbn [mbind exn_bind].
    destruct (crud_utils_join_fold st hops) as (Hj0 & Hw0 & Ho0 & Hb0).
    specialize (IH st1).
    destruct (collect (compile_clause raises sch model_cls relations_map) params)
      as [e|clauses]; [done|].
    destruct IH as (st' & -> & Hj & Hw & Ho & Hb). exists st'.
    split; [done|]. cbn [fmap list_fmap fst snd concat].
    rewrite Hj, Hw, Ho, Hb, Hj1, Hw1, Ho1, Hb1, Hj0, Hw0, Ho0, Hb0.
    by rewrite map_app, <- !app_assoc.
Qed.
End FiltersBuild.

(** X4.  [apply_filters] of crud_utils.py returns the first exception met
    when the clauses are compiled in map order (resolve the field, then its
    operators in order: an operator that is not supported, an operand of
    [in] / [notin] that is neither a list nor a string, an expression that
    SQLAlchemy refuses to build, the last two wrapped in a [ValueError]);
    otherwise it returns the query with one outer join call appended per hop
    of every clause, in order and without de-duplication, one predicate
    appended per operator entry, in order, and its loader options and
    ordering untouched. *)
Theorem crud_utils_apply_filters_builds
        (raises : sqlalchemy) (sch : schema) (model_cls : string)
        (relations_map : gmap string RelationshipProperty)
        (query : Select) (filter_params : odict (odict pyval)) :
  CrudUtils.apply_filters raises sch model_cls relations_map query filter_params
  = match compile_filters raises sch model_cls relations_map filter_params with
    | inl e => inl e
    | inr (hops, preds) =>
        inr (mk_select (q_joins query ++ map outer_join hops)
                       (q_where query ++ preds)
                       (q_options query) (q_order_by query))
    end.
Proof.
  unfold CrudUtils.apply_filters, CrudUtils.apply_filters_from, compile_filters.
  pose proof (crud_utils_fields raises sch model_cls relations_map filter_params
                (CrudUtils.mk_af_state query ∅)) as H.
  destruct (collect (compile_clause raises sch model_cls relations_map) filter_params)
    as [e|clauses]; [by rewrite H|].
  destruct H as (st' & -> & Hj & Hw & Ho & Hb). cbn.
  f_equal. by apply select_ext.
Qed.

Section FiltersAgree.
Context (py_str : pyval → string) (raises : sqlalchemy).
Context (sch : schema) (model_cls : string)
        (relations_map : gmap string RelationshipProperty).

Lemma utils_bd_join_step_from base seen st r :
  joins_from base seen st → joins_from base (seen ++ [r]) (UtilsBd.join_step st r).
Proof.
  intros (rels & Hnd & Hq & Hset & Hseen). unfold UtilsBd.join_step.
  case_bool_decide as Hin.
  - exists rels. repeat split; try done; try apply Hset; try apply Hseen.
    + intros Hr. apply elem_of_app. left. by apply Hseen.
    + intros Hr. apply elem_of_app in Hr as [Hr|Hr]; [by apply Hseen|].
      apply list_elem_of_singleton in Hr. subst. by apply Hset.
  - exists (rels ++ [r]). cbn. split; [|split; [|split]].
    + apply NoDup_app. split; [done|]. split; [|apply NoDup_singleton].
      intros x Hx Hx'. apply list_elem_of_singleton in Hx'. subst x.
      by apply Hin, Hset.
    + unfold q_join. cbn. by rewrite Hq, map_app, <- app_assoc.
    + intros x.
      rewrite elem_of_app, list_elem_of_singleton, elem_of_union, elem_of_singleton, Hset.
      tauto.
    + intros x. rewrite !elem_of_app, Hseen. tauto.
Qed.

Lemma utils_bd_join_fold_from base seen st hops :
  joins_from base seen st →
  let st' := foldl UtilsBd.join_step st hops in
  joins_from base (seen ++ hops) st'
  ∧ q_where (UtilsBd.af_query st') = q_where (UtilsBd.af_query st)
  ∧ q_options (UtilsBd.af_query st') = q_options (UtilsBd.af_query st)
  ∧ q_order_by (UtilsBd.af_query st') = q_order_by (UtilsBd.af_query st).
Proof.
  revert seen st. induction hops as [|h hops IH]; intros seen st H; cbn [foldl].
  - by rewrite app_nil_r.
  - destruct (IH (seen ++ [h]) (UtilsBd.join_step st h)) as (Hj & -> & -> & ->).
    { by apply utils_bd_join_step_from. }
    rewrite <- app_assoc in Hj. split; [done|].
    unfold UtilsBd.join_step. by case_bool_decide.
Qed.

Lemma utils_bd_operator_step_compile field c hops st item :
  match compile_operator raises field c item with
  | inl e => UtilsBd.operator_step py_str raises field c hops st item = inl e
  | inr p =>
      ∃ st' added,
        UtilsBd.operator_step py_str raises field c hops st item = inr st'
        ∧ q_joins (UtilsBd.af_query st') = q_joins (UtilsBd.af_query st)
        ∧ UtilsBd.already_joined_relationships_for_where st'
          = UtilsBd.already_joined_relationships_for_where st
        ∧ q_where (UtilsBd.af_query st') = q_where (UtilsBd.af_query st) ++ [p]
        ∧ q_order_by (UtilsBd.af_query st') = q_order_by (UtilsBd.af_query st)
        ∧ q_options (UtilsBd.af_query st') = q_options (UtilsBd.af_query st) ++ added
        ∧ forallb is_loader_criteria added = true
  end.
Proof.
  destruct item as [op v]. unfold compile_operator, UtilsBd.operator_step.
  cbn [fst snd]. destruct (od_get OPERATOR_MAP (PyStr.lower op)) as [f|]; [|done].
  destruct (coerce_operand op field v) as [e|v']; [done|].
  destruct (f raises c v') as [e|p]; [done|].
  destruct hops as [|h hops].
  { eexists _, []. cbn. by rewrite app_nil_r. }
  repeat case_bool_decide.
  - eexists _, []. cbn. by rewrite app_nil_r.
  - eexists _, [_]. cbn. done.
  - eexists _, []. cbn. by rewrite app_nil_r.
Qed.

Lemma joins_from_same base seen st st' :
  q_joins (UtilsBd.af_query st') = q_joins (UtilsBd.af_query st) →
  UtilsBd.already_joined_relationships_for_where st'
  = UtilsBd.already_joined_relationships_for_where st →
  joins_from base seen st → joins_from base seen st'.
Proof. intros Hj Hs (rels & ? & ? & ? & ?). exists rels. by rewrite Hj, Hs. Qed.

Lemma utils_bd_operators field c hops ops base seen st :
  joins_from base seen st →
  match collect (compile_operator raises field c) ops with
  | inl e => for_each (UtilsBd.operator_step py_str raises field c hops) st ops = inl e
  | inr preds =>
      ∃ st' added,
        for_each (UtilsBd.operator_step py_str raises field c hops) st ops = inr st'
        ∧ joins_from base seen st'
        ∧ q_where (UtilsBd.af_query st') = q_where (UtilsBd.af_query st) ++ preds
        ∧ q_order_by (UtilsBd.af_query st') = q_order_by (UtilsBd.af_query st)
        ∧ q_options (UtilsBd.af_query st') = q_options (UtilsBd.af_query st) ++ added
        ∧ forallb is_loader_criteria added = true
  end.
Proof.
  revert st. induction ops as [|item ops IH]; intros st Hst; cbn [collect for_each].
  - exists st, []. by rewrite !app_nil_r.
  - pose proof (utils_bd_operator_step_compile field c hops st item) as Hstep.
    destruct (compile_operator raises field c item) as [e|p]; [by rewrite Hstep|].
    destruct Hstep as (st1 & add1 & -> & Hj1 & Hs1 & Hw1 & Hb1 & Ho1 & Ha1).
    cbn [mbind exn_bind].
    specialize (IH st1 (joins_from_same _ _ _ _ Hj1 Hs1 Hst)).
    destruct (collect (compile_operator raises field c) ops) as [e|preds]; [done|].
    destruct IH as (st' & add & -> & Hj & Hw & Hb & Ho & Ha).
    exists st', (add1 ++ add). split; [done|]. split; [done|].
    rewrite Hw, Hw1, Hb, Hb1, Ho, Ho1, <- !app_assoc. repeat split; try done.
    by rewrite forallb_app, Ha1, Ha.
Qed.

Lemma utils_bd_field_step_eq st field ops :
  UtilsBd.field_step py_str raises sch model_cls relations_map st (field, ops)
  = match _get_column_or_relationship sch model_cls field relations_map with
    | inl e => inl e
    | inr (c, _, hops) =>
        for_each (UtilsBd.operator_step py_str raises field c hops)
                 (foldl UtilsBd.join_step st hops) ops
    end.
Proof.
  unfold UtilsBd.field_step.
  by destruct (_get_column_or_relationship sch model_cls field relations_map)
    as [e|[[c m] hops]].
Qed.

Lemma utils_bd_fields params base seen st :
  joins_from base seen st →
  match collect (compile_clause raises sch model_cls relations_map) params with
  | inl e =>
      for_each (UtilsBd.field_step py_str raises sch model_cls relations_map) st params
      = inl e
  | inr clauses =>
      ∃ st' added,
        for_each (UtilsBd.field_step py_str raises sch model_cls relations_map) st params
        = inr st'
        ∧ joins_from base (seen ++ concat clauses.*1) st'
        ∧ q_where (UtilsBd.af_query st')
          = q_where (UtilsBd.af_query st) ++ concat clauses.*2
        ∧ q_order_by (UtilsBd.af_query st') = q_order_by (UtilsBd.af_query st)
        ∧ q_options (UtilsBd.af_query st') = q_options (UtilsBd.af_query st) ++ added
        ∧ forallb is_loader_criteria added = true
  end.
Proof.
  revert seen st. induction params as [|[field ops] params IH]; intros seen st Hst;
    cbn [collect for_each].
  - exists st, []. cbn. by rewrite !app_nil_r.
  - rewrite (compile_clause_eq raises sch model_cls relations_map), utils_bd_field_step_eq.
    destruct (_get_column_or_relationship sch model_cls field relations_map)
      as [e|[[c m] hops]]; [done|].
    destruct (utils_bd_join_fold_from base seen st hops Hst) as (Hj0 & Hw0 & Ho0 & Hb0).
    pose proof (utils_bd_operators field c hops ops base (seen ++ hops)
                  (foldl UtilsBd.join_step st hops) Hj0) as Hops.
    destruct (collect (compile_operator raises field c) ops) as [e|preds]; [by rewrite Hops|].
    destruct Hops as (st1 & add1 & -> & Hj1 & Hw1 & Hb1 & Ho1 & Ha1).
    cbn [mbind exn_bind]. specialize (IH (seen ++ hops) st1 Hj1).
    destruct (collect (compile_clause raises sch model_cls relations_map) params)
      as [e|clauses]; [done|].
    destruct IH as (st' & add & -> & Hj & Hw & Hb & Ho & Ha).
    exists st', (add1 ++ add). split; [done|]. cbn [fmap list_fmap fst snd concat].
    rewrite Hw, Hw1, Hw0, Hb, Hb1, Hb0, Ho, Ho1, Ho0, <- !app_assoc.
    repeat split; try done.
    + by rewrite app_assoc.
    + by rewrite forallb_app, Ha1, Ha.
Qed.
End FiltersAgree.

(** ** Fail-fast compilation of a filter map *)




Section FailFast.
Context (py_str : pyval → string) (raises : sqlalchemy).
Context (sch : schema) (model_cls : string)
        (relations_map : gmap string RelationshipProperty).







End FailFast.



(** An operator that SQLAlchemy refuses is reported before an unsupported
    operator that follows it: the wrapped error of [like] on [True] comes
    out, not the one of [bogus]. *)
Example refused_operand_is_reported_first :
  CrudUtils.apply_filters models_sqlalchemy models "WebLink"
    (property_map models "WebLink") empty_select
    [("title", [("like", VBool true); ("bogus", VStr "x")])]
  = inl (FilterApplyError "like" (VBool true) "title"
           (ExpressionError OpLike (mk_attr "WebLink" "title") (VBool true)))
  ∧ operator_ok models_sqlalchemy "title" (mk_attr "WebLink" "title")
      ("like", VBool true) = false.
Proof. split; vm_compute; reflexivity. Qed.

(** [contains] on the [ARRAY] column of [Usuario] is refused as well, in
    both modules. *)
Example array_contains_is_refused :
  let e := FilterApplyError "contains" (VStr "ADMIN") "permissoes"
             (ExpressionError OpContains (mk_attr "Usuario" "permissoes")
                              (VStr "ADMIN")) in
  CrudUtils.apply_filters models_sqlalchemy models "Usuario"
    (property_map models "Usuario") empty_select
    [("permissoes", [("contains", VStr "ADMIN")])] = inl e
  ∧ UtilsBd.apply_filters (fun _ => "") models_sqlalchemy models "Usuario"
      (property_map models "Usuario") empty_select
      [("permissoes", [("contains", VStr "ADMIN")])] = inl e.
Proof. split; vm_compute; reflexivity. Qed.

(** ** The operand of [in] and [notin] *)

Lemma contains_char_forall c s :
  PyStr.contains_char c s = false
  ↔ PyStr.forall_char (fun a => negb (Ascii.eqb a c)) s = true.
Proof.
  induction s as [|a s IH]; cbn; [done|].
  rewrite orb_false_iff, andb_true_iff, negb_true_iff, IH. done.
Qed.

Lemma split_pieces_without_sep sep s :
  Forall (fun t => PyStr.contains_char sep t = false) (PyStr.split sep s).
Proof.
  induction s as [|c s IH]; cbn [PyStr.split]; [by repeat constructor|].
  destruct (Ascii.eqb c sep) eqn:E; [by constructor|].
  destruct (PyStr.split sep s) as [|h t].
  { constructor; [cbn; by rewrite E|constructor]. }
  inversion IH; subst. constructor; [|done]. cbn. by rewrite E.
Qed.

Lemma lstrip_contains c s :
  PyStr.contains_char c s = false → PyStr.contains_char c (PyStr.lstrip s) = false.
Proof.
  induction s as [|a s IH]; cbn; [done|].
  intros H. apply orb_false_iff in H as [Ha Hs].
  destruct (PyStr.isspace a); [by apply IH|]. cbn. by rewrite Ha, Hs.
Qed.

Lemma rstrip_contains c s :
  PyStr.contains_char c s = false → PyStr.contains_char c (PyStr.rstrip s) = false.
Proof.
  induction s as [|a s IH]; cbn; [done|].
  intros H. apply orb_false_iff in H as [Ha Hs].
  destruct (PyStr.isspace a && PyStr.is_empty (PyStr.rstrip s)); [done|].
  cbn. by rewrite Ha, IH.
Qed.

Lemma rstrip_idempotent s : PyStr.rstrip (PyStr.rstrip s) = PyStr.rstrip s.
Proof.
  induction s as [|a s IH]; cbn [PyStr.rstrip]; [done|].
  destruct (PyStr.isspace a && PyStr.is_empty (PyStr.rstrip s)) eqn:E; [done|].
  cbn [PyStr.rstrip]. by rewrite IH, E.
Qed.

Lemma lstrip_fixed s :
  match s with String a _ => PyStr.isspace a = false | EmptyString => True end →
  PyStr.lstrip s = s.
Proof.
  destruct s as [|a s]; cbn [PyStr.lstrip]; [done|]. intros H. by rewrite H.
Qed.

Lemma lstrip_head s :
  match PyStr.lstrip s with
  | String a _ => PyStr.isspace a = false
  | EmptyString => True
  end.
Proof.
  induction s as [|a s IH]; cbn [PyStr.lstrip]; [done|].
  by destruct (PyStr.isspace a) eqn:E.
Qed.

Lemma rstrip_head s :
  match s with String a _ => PyStr.isspace a = false | EmptyString => True end →
  match PyStr.rstrip s with
  | String a _ => PyStr.isspace a = false
  | EmptyString => True
  end.
Proof.
  destruct s as [|a s]; cbn [PyStr.rstrip]; [done|]. intros H. by rewrite H.
Qed.

Lemma strip_idempotent s : PyStr.strip (PyStr.strip s) = PyStr.strip s.
Proof.
  unfold PyStr.strip.
  rewrite (lstrip_fixed (PyStr.rstrip (PyStr.lstrip s)))
    by apply rstrip_head, lstrip_head.
  apply rstrip_idempotent.
Qed.

Lemma split_strip_nonempty_clean s : Forall clean_item (PyStr.split_strip_nonempty s).
Proof.
  unfold PyStr.split_strip_nonempty.
  pose proof (split_pieces_without_sep "," s) as H.
  induction H as [|t ts Ht Hts IH]; cbn [map]; [constructor|].
  rewrite filter_cons. case_decide as Hne; [|done].
  constructor; [|done]. split; [by destruct (PyStr.strip t)|].
  split; [by apply rstrip_contains, lstrip_contains|apply strip_idempotent].
Qed.

Lemma py_join_cons sep x y l :
  py_join sep (x :: y :: l) = x +:+ sep +:+ py_join sep (y :: l).
Proof. reflexivity. Qed.

Lemma split_join_items (items : list string) :
  items ≠ [] →
  Forall (fun t => PyStr.contains_char "," t = false) items →
  PyStr.split "," (py_join "," items) = items.
Proof.
  intros Hne H. induction H as [|x l Hx Hl IH]; [done|].
  apply contains_char_forall in Hx.
  destruct l as [|y l].
  - cbn [py_join]. by apply split_without_sep.
  - rewrite py_join_cons. change ("," +:+ ?s) with (String "," s).
    rewrite split_at_sep by done. by rewrite IH.
Qed.

(** X6.  The comma-separated operand of [in] and [notin].  A string is
    turned into the list of its items, each trimmed, none empty, none
    holding a comma; a list is passed on as it is; and writing a list of
    such items with commas between them gives it back: the operand computed
    for [",".join(items)] is [items]. *)
Theorem in_operand_list_round_trip (op_code field_specifier : string) :
  str_in (PyStr.lower op_code) ["in"; "notin"] = true →
  (∀ s, ∃ items,
       coerce_operand op_code field_specifier (VStr s) = inr (VList (map VStr items))
       ∧ Forall clean_item items)
  ∧ (∀ l, coerce_operand op_code field_specifier (VList l) = inr (VList l))
  ∧ (∀ items,
       Forall clean_item items →
       coerce_operand op_code field_specifier (VStr (py_join "," items))
       = inr (VList (map VStr items))).
Proof.
  intros Hop. unfold coerce_operand. rewrite Hop. cbn [is_list negb andb].
  split; [|split; [done|]].
  - intros s. eexists. split; [reflexivity|apply split_strip_nonempty_clean].
  - intros items Hitems. do 3 f_equal.
    destruct items as [|x l]; [done|].
    unfold PyStr.split_strip_nonempty. rewrite split_join_items; [|done|].
    + induction Hitems as [|t ts (Hne & _ & Hs) Hts IH]; [done|].
      cbn [map]. rewrite Hs, filter_cons_True by (by destruct t). by rewrite IH.
    + eapply Forall_impl; [exact Hitems|]. by intros t (_ & ? & _).
Qed.

Lemma in_operand_list_round_trip_witness :
  coerce_operand "IN" "tags" (VStr (py_join "," ["python"; "fast api"; "x"]))
  = inr (VList (map VStr ["python"; "fast api"; "x"])).
Proof.
  apply (in_operand_list_round_trip "IN" "tags" eq_refl).
  repeat constructor; done.
Defined.

Lemma keyword_parsed raw :
  if is_keyword raw
  then is_str (_parse_filter_value raw) = false
       ∧ is_list (_parse_filter_value raw) = false
  else _parse_filter_value raw = VStr raw.
Proof.
  unfold is_keyword, _parse_filter_value, str_in.
  change ["true"; "yes"; "on"; "1"; "false"; "no"; "off"; "0"; "null"; "none"]
    with (["true"; "yes"; "on"; "1"] ++ ["false"; "no"; "off"; "0"] ++ ["null"; "none"]).
  rewrite !existsb_app.
  destruct (existsb (String.eqb (PyStr.lower raw)) ["true"; "yes"; "on"; "1"]); [done|].
  destruct (existsb (String.eqb (PyStr.lower raw)) ["false"; "no"; "off"; "0"]); [done|].
  by destruct (existsb (String.eqb (PyStr.lower raw)) ["null"; "none"]).
Qed.

(** A filter map holding one clause with one operator. *)
Lemma single_clause_outcome
      (py_str : pyval → string) (raises : sqlalchemy) (sch : schema) (model_cls : string)
      (relations_map : gmap string RelationshipProperty) (query : Select)
      (field : string) (c : InstrumentedAttribute) (m : string)
      (joins : list RelationshipProperty) (item : string * pyval) :
  _get_column_or_relationship sch model_cls field relations_map = inr (c, m, joins) →
  match compile_operator raises field c item with
  | inl e =>
      UtilsBd.apply_filters py_str raises sch model_cls relations_map query [(field, [item])]
      = inl e
      ∧ CrudUtils.apply_filters raises sch model_cls relations_map query [(field, [item])]
        = inl e
  | inr p =>
      (∃ q', UtilsBd.apply_filters py_str raises sch model_cls relations_map query
               [(field, [item])] = inr q'
             ∧ q_where q' = q_where query ++ [p])
      ∧ (∃ q', CrudUtils.apply_filters raises sch model_cls relations_map query
                 [(field, [item])] = inr q'
               ∧ q_where q' = q_where query ++ [p])
  end.
Proof.
  intros Hres.
  assert (joins_from (q_joins query) [] (UtilsBd.mk_af_state query ∅ ∅)) as Hinit.
  { exists []. cbn. rewrite app_nil_r. split; [constructor|]. split; [done|].
    split; intros r; by rewrite elem_of_nil, ?elem_of_empty. }
  pose proof (utils_bd_fields py_str raises sch model_cls relations_map [(field, [item])]
                (q_joins query) [] (UtilsBd.mk_af_state query ∅ ∅) Hinit) as Hu.
  pose proof (crud_utils_fields raises sch model_cls relations_map [(field, [item])]
                (CrudUtils.mk_af_state query ∅)) as Hc.
  cbn [collect] in Hu, Hc. rewrite compile_clause_eq, Hres in Hu, Hc.
  cbn [collect] in Hu, Hc.
  unfold UtilsBd.apply_filters, UtilsBd.apply_filters_from,
    CrudUtils.apply_filters, CrudUtils.apply_filters_from.
  destruct (compile_operator raises field c item) as [e|p].
  - by rewrite Hu, Hc.
  - destruct Hu as (stu & added & -> & _ & Hwu & _).
    destruct Hc as (stc & -> & _ & Hwc & _). cbn in *.
    rewrite ?app_nil_r in Hwu, Hwc. split; eexists; (split; [reflexivity|done]).
Qed.

(** X7.  [in] and [notin] on a value that went through
    [_parse_filter_value].  When the raw text is one of the words the parser
    turns into a boolean or [None] (true, yes, on, 1, false, no, off, 0,
    null, none, in any letter case), the operand is no longer a string and
    both [apply_filters] raise the wrapped "must be a list" error; for any
    other raw text they add the membership predicate on the list of its
    comma-separated items. *)
Theorem in_filter_on_parsed_value
        (py_str : pyval → string) (raises : sqlalchemy) (sch : schema) (model_cls : string)
        (relations_map : gmap string RelationshipProperty) (query : Select)
        (field : string) (c : InstrumentedAttribute) (m : string)
        (joins : list RelationshipProperty) (op_code raw : string) :
  _get_column_or_relationship sch model_cls field relations_map = inr (c, m, joins) →
  str_in (PyStr.lower op_code) ["in"; "notin"] = true →
  let value := _parse_filter_value raw in
  let filter_params := [(field, [(op_code, value)])] in
  if is_keyword raw then
    let e := FilterApplyError op_code value field (InOperandNotList op_code field) in
    UtilsBd.apply_filters py_str raises sch model_cls relations_map query filter_params = inl e
    ∧ CrudUtils.apply_filters raises sch model_cls relations_map query filter_params = inl e
  else
    let p := PBin (if String.eqb (PyStr.lower op_code) "in" then OpIn else OpNotIn) c
                  (VList (map VStr (PyStr.split_strip_nonempty raw))) in
    (∃ q', UtilsBd.apply_filters py_str raises sch model_cls relations_map query filter_params
           = inr q'
           ∧ q_where q' = q_where query ++ [p])
    ∧ (∃ q', CrudUtils.apply_filters raises sch model_cls relations_map query filter_params
             = inr q'
             ∧ q_where q' = q_where query ++ [p]).
Proof.
  intros Hres Hop value filter_params. subst filter_params value.
  pose proof (single_clause_outcome py_str raises sch model_cls relations_map query
                field c m joins (op_code, _parse_filter_value raw) Hres) as H.
  pose proof (keyword_parsed raw) as Hk.
  assert (∃ f, od_get OPERATOR_MAP (PyStr.lower op_code) = Some f
               ∧ ∀ v, f raises c v
                      = inr (PBin (if String.eqb (PyStr.lower op_code) "in"
                                   then OpIn else OpNotIn) c v)) as (f & Hf & Hfv).
  { apply str_in_spec in Hop.
    apply elem_of_cons in Hop as [->|Hop]; [by eexists|].
    apply list_elem_of_singleton in Hop as ->. by eexists. }
  unfold compile_operator, coerce_operand in H. cbn [fst snd] in H.
  rewrite Hf, Hop in H.
  destruct (is_keyword raw).
  - destruct Hk as [Hs Hl]. rewrite Hl in H. cbn [negb andb] in H.
    by destruct (_parse_filter_value raw).
  - rewrite Hk in H |- *. cbn [is_list negb andb] in H. rewrite Hfv in H. exact H.
Qed.

Lemma in_filter_on_parsed_value_witness :
  let e := FilterApplyError "in" (VBool true) "id" (InOperandNotList "in" "id") in
  UtilsBd.apply_filters (fun _ => "") models_sqlalchemy models "WebLink"
    (property_map models "WebLink") empty_select
    [("id", [("in", _parse_filter_value "1")])] = inl e
  ∧ CrudUtils.apply_filters models_sqlalchemy models "WebLink"
      (property_map models "WebLink") empty_select
      [("id", [("in", _parse_filter_value "1")])] = inl e.
Proof.
  exact (in_filter_on_parsed_value (fun _ => "") models_sqlalchemy models "WebLink"
           (property_map models "WebLink") empty_select
           "id" (mk_attr "WebLink" "id") "WebLink" [] "in" "1" eq_refl eq_refl).
Defined.

(** ** The filter parser: what reaches the filter map *)

Lemma pf_step_same a b item : pf_same a b → pf_same (pf_step a item) (pf_step b item).
Proof.
  intros [Hf Hp]. destruct item as [k v]. unfold pf_step. rewrite Hf, Hp.
  case_bool_decide; [done|].
  destruct (FILTER_PATTERN_fullmatch k) as [[f g]|]; [|done].
  by destruct (PyStr.is_empty f || PyStr.is_empty (PyStr.lower g)).
Qed.

Lemma pf_fold_same a b items :
  pf_same a b → pf_same (foldl pf_step a items) (foldl pf_step b items).
Proof.
  revert a b. induction items as [|x items IH]; intros a b H; cbn [foldl]; [done|].
  by apply IH, pf_step_same.
Qed.

Lemma pf_step_no_effect st k v :
  FILTER_PATTERN_fullmatch k = None ∨ k ∈ pf_processed_keys st →
  pf_same (pf_step st (k, v)) st.
Proof.
  intros H. unfold pf_step. case_bool_decide as Hin; [done|].
  destruct H as [-> |H]; done.
Qed.

(** X8.  Parameters that are not filters, and parameters that repeat a key
    met earlier in the request, have no effect on the filter map, wherever
    they stand: taking one out leaves the map as it was. *)
Theorem stray_and_repeated_parameters_ignored
        (before after : list (string * string)) (k v : string) :
  FILTER_PATTERN_fullmatch k = None ∨ k ∈ before.*1 →
  (parse_filters (before ++ (k, v) :: after)).1 = (parse_filters (before ++ after)).1.
Proof.
  intros H. unfold parse_filters, pf_loop. cbn [fst].
  rewrite !foldl_app. cbn [foldl].
  apply pf_fold_same, pf_step_no_effect.
  destruct H as [H|H]; [by left|].
  destruct (FILTER_PATTERN_fullmatch k) as [fg|] eqn:E; [right|by left].
  apply pf_processed_keys_spec. split; [done|]. rewrite E. by eexists.
Qed.

Lemma stray_and_repeated_parameters_ignored_witness :
  (parse_filters [("filter[title][eq]", "a"); ("filter[title][eq]", "b");
                  ("filter[resumo][isnull]", "true")]).1
  = (parse_filters [("filter[title][eq]", "a"); ("filter[resumo][isnull]", "true")]).1.
Proof.
  apply (stray_and_repeated_parameters_ignored
           [("filter[title][eq]", "a")] [("filter[resumo][isnull]", "true")]
           "filter[title][eq]" "b").
  right. cbn. apply list_elem_of_here.
Defined.

Lemma lower_char_idempotent c : PyStr.lower_char (PyStr.lower_char c) = PyStr.lower_char c.
Proof. destruct c as [[] [] [] [] [] [] [] []]; vm_compute; reflexivity. Qed.

Lemma lower_idempotent s : PyStr.lower (PyStr.lower s) = PyStr.lower s.
Proof.
  induction s as [|c s IH]; cbn [PyStr.lower]; [done|].
  by rewrite lower_char_idempotent, IH.
Qed.

Lemma filter_value_update (filters : odict (odict pyval)) f op v f' op' :
  filter_value
    (od_set (if od_mem filters f then filters else od_set filters f ([] : odict pyval)) f
            (od_set (default ([] : odict pyval)
                       (od_get (if od_mem filters f then filters
                                else od_set filters f ([] : odict pyval)) f)) op v))
    f' op'
  = if decide (f = f' ∧ op = op') then Some v else filter_value filters f' op'.
Proof.
  unfold filter_value, od_mem, odict in *.
  destruct (decide (f = f')) as [<-|Hf].
  - rewrite od_get_set_eq.
    destruct (od_get filters f) as [inner|] eqn:E; cbn [default from_option id].
    + rewrite E. cbn [default from_option id].
      destruct (decide (op = op')) as [<-|Hop].
      * rewrite od_get_set_eq. by rewrite decide_True.
      * rewrite od_get_set_ne by done. rewrite decide_False by tauto. done.
    + rewrite od_get_set_eq. cbn [default from_option id].
      destruct (decide (op = op')) as [<-|Hop].
      * rewrite od_get_set_eq. by rewrite decide_True.
      * rewrite od_get_set_ne by done. rewrite decide_False by tauto. done.
  - rewrite od_get_set_ne by done. rewrite decide_False by tauto.
    destruct (od_get filters f) as [inner|] eqn:E; [done|].
    by rewrite od_get_set_ne.
Qed.

Lemma pf_loop_provenance qs f op v :
  filter_value (pf_filters (pf_loop qs)) f op = Some v →
  ∃ k g raw,
    (k, raw) ∈ qs
    ∧ FILTER_PATTERN_fullmatch k = Some (f, g)
    ∧ op = PyStr.lower g
    ∧ v = _parse_filter_value raw.
Proof.
  induction qs as [|[k0 raw0] qs IH] using rev_ind; [done|].
  rewrite pf_loop_snoc.
  assert (filter_value (pf_filters (pf_loop qs)) f op = Some v →
          ∃ k g raw, (k, raw) ∈ qs ++ [(k0, raw0)]
                     ∧ FILTER_PATTERN_fullmatch k = Some (f, g)
                     ∧ op = PyStr.lower g ∧ v = _parse_filter_value raw) as Hold.
  { intros H. destruct (IH H) as (k & g & raw & Hin & ?).
    exists k, g, raw. split; [|done]. apply elem_of_app. by left. }
  unfold pf_step. case_bool_decide; [done|].
  destruct (FILTER_PATTERN_fullmatch k0) as [[f0 g0]|] eqn:Hm; [|done].
  destruct (PyStr.is_empty f0 || PyStr.is_empty (PyStr.lower g0)); [done|].
  cbn [pf_filters]. rewrite filter_value_update.
  case_decide as Hd; [|done].
  destruct Hd as [<- <-]. intros [= <-].
  exists k0, g0, raw0. split; [|done]. apply elem_of_app. right. apply list_elem_of_here.
Qed.

(** X9.  Every value of the filter map comes from the request: a value
    stored for a field and an operator is the parsed value of some
    parameter whose key is [filter[<field>][<op>]] with [<op>], lower-cased,
    the operator.  The operators of the map are therefore in lower case, and
    neither a field nor an operator is empty. *)
Theorem filter_map_provenance (qs : list (string * string)) (f op : string) (v : pyval) :
  filter_value (parse_filters qs).1 f op = Some v →
  (∃ k g raw,
      (k, raw) ∈ qs
      ∧ k = "filter[" +:+ f +:+ "][" +:+ g +:+ "]"
      ∧ op = PyStr.lower g
      ∧ v = _parse_filter_value raw)
  ∧ PyStr.lower op = op
  ∧ f ≠ "" ∧ op ≠ "".
Proof.
  unfold parse_filters. cbn [fst]. intros H.
  apply pf_loop_provenance in H as (k & g & raw & Hin & Hm & -> & ->).
  destruct (FILTER_PATTERN_groups_nonempty _ _ _ Hm) as [Hf Hg].
  destruct (FILTER_PATTERN_fullmatch_shape _ _ _ Hm) as (Hk & _).
  split; [by exists k, g, raw|]. split; [apply lower_idempotent|].
  split; [by destruct f|]. by destruct g.
Qed.

Lemma filter_map_provenance_witness :
  ∃ k g raw,
    (k, raw) ∈ [("skip", "0"); ("filter[title][ILIKE]", "%a%")]
    ∧ k = "filter[" +:+ "title" +:+ "][" +:+ g +:+ "]"
    ∧ "ilike" = PyStr.lower g
    ∧ VStr "%a%" = _parse_filter_value raw.
Proof.
  apply (filter_map_provenance [("skip", "0"); ("filter[title][ILIKE]", "%a%")]
           "title" "ilike" (VStr "%a%")).
  vm_compute. reflexivity.
Defined.

(** ** The filter map as a dictionary *)

Section OdictKeys.
Context {V : Type}.
Implicit Types (d : odict V) (k : string) (v : V).

Lemma od_mem_false_keys d k : od_mem d k = false → k ∉ d.*1.
Proof.
  unfold od_mem. induction d as [|[k' v'] d IH]; cbn; [intros _; apply not_elem_of_nil|].
  destruct (String.eqb k' k) eqn:E; [done|]. intros H.
  apply String.eqb_neq in E. apply not_elem_of_cons. split; [done|]. by apply IH.
Qed.

Lemma od_set_keys d k v :
  (od_set d k v).*1 = if od_mem d k then d.*1 else d.*1 ++ [k].
Proof.
  unfold od_mem. induction d as [|[k' v'] d IH]; cbn; [done|].
  destruct (String.eqb k' k) eqn:E; cbn.
  - apply String.eqb_eq in E. by subst.
  - rewrite IH. by destruct (od_get d k).
Qed.

Lemma od_set_NoDup d k v : NoDup d.*1 → NoDup (od_set d k v).*1.
Proof.
  intros H. rewrite od_set_keys. destruct (od_mem d k) eqn:E; [done|].
  apply NoDup_app. split; [done|]. split; [|apply NoDup_singleton].
  intros x Hx Hx'. apply list_elem_of_singleton in Hx'. subst x.
  by apply (od_mem_false_keys d k).
Qed.

Lemma od_set_Forall (P : V → Prop) d k v :
  Forall (fun kv => P kv.2) d → P v → Forall (fun kv => P kv.2) (od_set d k v).
Proof.
  intros H Hv. induction H as [|[k' v'] d Hx Hd IH]; cbn; [by repeat constructor|].
  destruct (String.eqb k' k); by constructor.
Qed.

Lemma od_get_Forall (P : V → Prop) d k v :
  Forall (fun kv => P kv.2) d → od_get d k = Some v → P v.
Proof.
  intros H. induction H as [|[k' v'] d Hx Hd IH]; cbn; [done|].
  destruct (String.eqb k' k); [by intros [= <-]|done].
Qed.

Lemma od_set_twice d k v w : od_set (od_set d k v) k w = od_set d k w.
Proof.
  induction d as [|[k' v'] d IH]; cbn.
  - by rewrite String.eqb_refl.
  - destruct (String.eqb k' k) eqn:E; cbn.
    + by rewrite String.eqb_refl.
    + by rewrite E, IH.
Qed.
End OdictKeys.

(** The filter map after one turn on a recognized key not met before. *)
Lemma pf_step_filters st k v f g :
  FILTER_PATTERN_fullmatch k = Some (f, g) →
  k ∉ pf_processed_keys st →
  pf_filters (pf_step st (k, v))
  = od_set (pf_filters st) f
           (od_set (default [] (od_get (pf_filters st) f)) (PyStr.lower g)
                   (_parse_filter_value v)).
Proof.
  intros Hm Hk. destruct (FILTER_PATTERN_groups_nonempty _ _ _ Hm) as [Hf Hg].
  unfold pf_step. rewrite bool_decide_eq_false_2 by done. rewrite Hm.
  rewrite lower_is_empty, Hf, Hg. cbn [orb pf_filters]. unfold od_mem.
  destruct (od_get (pf_filters st) f) as [inner|] eqn:E.
  - by rewrite E.
  - by rewrite od_get_set_eq, od_set_twice.
Qed.

Lemma pf_loop_well_formed qs : well_formed_filters (pf_filters (pf_loop qs)).
Proof.
  induction qs as [|[k v] qs [IHk IHc]] using rev_ind.
  { split; constructor. }
  rewrite pf_loop_snoc.
  destruct (decide (k ∈ pf_processed_keys (pf_loop qs))) as [Hin|Hout].
  { by rewrite pf_step_seen. }
  destruct (FILTER_PATTERN_fullmatch k) as [[f g]|] eqn:Hm.
  - rewrite (pf_step_filters _ _ _ f g Hm Hout). split.
    + by apply od_set_NoDup.
    + apply (od_set_Forall (fun ops : odict pyval => ops ≠ [] ∧ NoDup ops.*1));
        [done|].
      split; [apply od_set_not_nil|]. apply od_set_NoDup.
      destruct (od_get (pf_filters (pf_loop qs)) f) as [inner|] eqn:E; [|constructor].
      by apply (od_get_Forall (fun ops : odict pyval => ops ≠ [] ∧ NoDup ops.*1)
                  _ _ _ IHc E).
  - unfold pf_step. rewrite bool_decide_eq_false_2 by done. by rewrite Hm.
Qed.

(** X10.  The filter map is a dictionary of non-empty dictionaries: no
    field occurs twice, no operator occurs twice under a field, and every
    field has at least one operator (the empty dictionary the code creates
    for a new field always receives the operator that follows).  Looking a
    stored clause up gives it back. *)
Theorem filter_map_well_formed (qs : list (string * string)) :
  well_formed_filters (parse_filters qs).1
  ∧ ∀ f ops, (f, ops) ∈ (parse_filters qs).1 →
             od_get (parse_filters qs).1 f = Some ops
             ∧ ∀ op v, (op, v) ∈ ops → filter_value (parse_filters qs).1 f op = Some v.
Proof.
  pose proof (pf_loop_well_formed qs) as Hwf.
  unfold parse_filters. cbn [fst]. split; [done|].
  assert (∀ (V : Type) (d : odict V) k (v : V),
            NoDup d.*1 → (k, v) ∈ d → od_get d k = Some v) as Hget.
  { intros V d k v Hnd Hin. induction d as [|[k' v'] d IH]; [by apply elem_of_nil in Hin|].
    cbn in Hnd. apply NoDup_cons in Hnd as [Hk' Hnd]. cbn.
    apply elem_of_cons in Hin as [[= <- <-]|Hin]; [by rewrite String.eqb_refl|].
    destruct (String.eqb k' k) eqn:E; [|by apply IH].
    apply String.eqb_eq in E. subst k'. exfalso. apply Hk'.
    apply list_elem_of_fmap. by exists (k, v). }
  destruct Hwf as [Hk Hc]. intros f ops Hin.
  pose proof (Hget _ _ _ _ Hk Hin) as Hf. split; [done|].
  intros op v Hop. unfold filter_value. rewrite Hf.
  apply Hget; [|done].
  by apply (od_get_Forall (fun ops : odict pyval => ops ≠ [] ∧ NoDup ops.*1) _ _ _ Hc Hf).
Qed.

Lemma filter_map_well_formed_witness :
  let qs := [("filter[title][eq]", "a"); ("filter[title][NEQ]", "b")] in
  od_get (parse_filters qs).1 "title" = Some [("eq", VStr "a"); ("neq", VStr "b")]
  ∧ ∀ op v, (op, v) ∈ [("eq", VStr "a"); ("neq", VStr "b")] →
            filter_value (parse_filters qs).1 "title" op = Some v.
Proof.
  intros qs.
  apply (proj2 (filter_map_well_formed qs) "title" [("eq", VStr "a"); ("neq", VStr "b")]).
  vm_compute. apply list_elem_of_here.
Defined.

(** ** The selection tree: its root keys and its list markers *)

Section OdictMem.
Context {V : Type}.
Implicit Types (d : odict V) (k : string) (v : V).

Lemma od_mem_true_keys d k : od_mem d k = true → k ∈ d.*1.
Proof.
  unfold od_mem. induction d as [|[k' v'] d IH]; cbn; [done|].
  destruct (String.eqb k' k) eqn:E.
  - apply String.eqb_eq in E. subst. intros _. apply list_elem_of_here.
  - intros H. apply list_elem_of_further. by apply IH.
Qed.

Lemma od_mem_set d k k' v : od_mem (od_set d k' v) k = od_mem d k || String.eqb k' k.
Proof.
  unfold od_mem. destruct (String.eqb k' k) eqn:E.
  - apply String.eqb_eq in E. subst. rewrite od_get_set_eq. by rewrite orb_true_r.
  - apply String.eqb_neq in E. rewrite od_get_set_ne by done. by rewrite orb_false_r.
Qed.
End OdictMem.

Lemma select_path_keys part rest level :
  let r := default part (list_part_fullmatch part) in
  (select_path (part :: rest) level).*1
  = if od_mem level r then level.*1 else level.*1 ++ [r].
Proof.
  cbn [select_path]. destruct (list_part_fullmatch part) as [name|];
    cbn [default from_option id].
  - destruct rest; apply od_set_keys.
  - destruct rest; [|apply od_set_keys].
    unfold get_dict, od_mem.
    destruct (od_get level part) as [[|d]|] eqn:E.
    + rewrite od_set_keys. unfold od_mem. by rewrite E.
    + done.
    + rewrite od_set_keys. unfold od_mem. by rewrite E.
Qed.

Lemma select_fold_keys fields level :
  NoDup level.*1 →
  let d := foldl (fun d field_path => select_path (PyStr.split "." field_path) d)
                 level fields in
  NoDup d.*1 ∧ ∀ k, k ∈ d.*1 ↔ k ∈ level.*1 ∨ k ∈ map root_name fields.
Proof.
  revert level. induction fields as [|fp fields IH]; intros level Hnd; cbn [foldl map].
  - split; [done|]. intros k. rewrite elem_of_nil. tauto.
  - pose proof (split_not_nil "." fp) as Hsplit.
    assert (∃ part rest, PyStr.split "." fp = part :: rest
                         ∧ root_name fp = default part (list_part_fullmatch part))
      as (part & rest & Hs & Hr).
    { unfold root_name. destruct (PyStr.split "." fp) as [|part rest]; [done|].
      by exists part, rest. }
    rewrite Hs, Hr.
    pose proof (select_path_keys part rest level) as Hk. cbn zeta in Hk.
    set (r := default part (list_part_fullmatch part)) in *.
    destruct (IH (select_path (part :: rest) level)) as [Hnd' Hin'].
    { rewrite Hk. destruct (od_mem level r) eqn:E; [done|].
      apply NoDup_app. split; [done|]. split; [|apply NoDup_singleton].
      intros x Hx Hx'. apply list_elem_of_singleton in Hx'. subst x.
      by apply (od_mem_false_keys level r). }
    split; [done|]. intros k. rewrite Hin', Hk, elem_of_cons.
    destruct (od_mem level r) eqn:E.
    + apply od_mem_true_keys in E. split; [tauto|].
      intros [?|[->|?]]; tauto.
    + rewrite elem_of_app, list_elem_of_singleton. tauto.
Qed.

(** X11.  The root of the selection tree has one key for each distinct name
    a requested field path starts with (its first segment, brackets
    removed), and no other key. *)
Theorem selection_tree_root_keys (s : string) (d : odict sel_tree) :
  parse_select_fields_for_pydantic (Some s) = Some d →
  NoDup d.*1
  ∧ ∀ k, k ∈ d.*1 ↔ k ∈ map root_name (PyStr.split_strip_nonempty s).
Proof.
  unfold parse_select_fields_for_pydantic.
  destruct (PyStr.is_empty s); [done|].
  destruct (PyStr.split_strip_nonempty s) as [|f fs] eqn:E; [done|].
  pose proof (select_fold_keys (f :: fs) [] (NoDup_nil_2 (A:=string))) as [Hnd Hin].
  destruct (foldl (fun d field_path => select_path (PyStr.split "." field_path) d)
                  [] (f :: fs)) as [|x d'] eqn:Ed; [done|].
  intros [= <-]. split; [done|]. intros k. rewrite Hin. cbn [fmap list_fmap].
  rewrite elem_of_nil. tauto.
Qed.

Lemma selection_tree_root_keys_witness :
  let d := [("id", STrue);
            ("items", SDict [("__all__", SDict [("name", STrue); ("id", STrue)])])] in
  NoDup d.*1
  ∧ ∀ k, k ∈ d.*1
         ↔ k ∈ map root_name (PyStr.split_strip_nonempty "id, [items].name ,[items].id").
Proof.
  intros d.
  apply (selection_tree_root_keys "id, [items].name ,[items].id" d).
  vm_compute. reflexivity.
Defined.

Lemma select_path_keeps_key parts level k :
  od_mem level k = true → od_mem (select_path parts level) k = true.
Proof.
  destruct parts as [|part rest]; cbn [select_path]; [done|]. intros H.
  destruct (list_part_fullmatch part) as [name|].
  - destruct rest; by rewrite od_mem_set, H.
  - destruct rest; [|by rewrite od_mem_set, H].
    destruct (get_dict level part); [done|]. by rewrite od_mem_set, H.
Qed.

Lemma select_path_keeps_mark parts level name :
  marked_as_list level name → marked_as_list (select_path parts level) name.
Proof.
  intros (c & Hc & Hall).
  destruct parts as [|part rest]; cbn [select_path]; [by exists c|].
  assert (∀ k v, k ≠ name → marked_as_list (od_set level k v) name) as Hother.
  { intros k v Hk. exists c. by rewrite od_get_set_ne. }
  assert (∀ c', od_mem c' "__all__" = true →
                marked_as_list (od_set level name (SDict c')) name) as Hsame.
  { intros c' Hc'. exists c'. by rewrite od_get_set_eq. }
  destruct (list_part_fullmatch part) as [ln|].
  - destruct (decide (ln = name)) as [->|Hne].
    + destruct rest; apply Hsame; by rewrite od_mem_set, String.eqb_refl, orb_true_r.
    + destruct rest; by apply Hother.
  - destruct (decide (part = name)) as [->|Hne].
    + unfold get_dict. rewrite Hc. cbn [default from_option id].
      destruct rest; [by exists c|]. apply Hsame. by apply select_path_keeps_key.
    + destruct rest; [|by apply Hother].
      destruct (get_dict level part); [by exists c|by apply Hother].
Qed.

Lemma select_path_sets_mark part rest level name :
  list_part_fullmatch part = Some name →
  marked_as_list (select_path (part :: rest) level) name.
Proof.
  intros Hm. cbn [select_path]. rewrite Hm.
  destruct rest; eexists; (split; [apply od_get_set_eq|]);
    by rewrite od_mem_set, String.eqb_refl, orb_true_r.
Qed.

Lemma select_fold_mark fields level name :
  marked_as_list level name
  ∨ (∃ fp, fp ∈ fields
           ∧ list_part_fullmatch (hd EmptyString (PyStr.split "." fp)) = Some name) →
  marked_as_list
    (foldl (fun d field_path => select_path (PyStr.split "." field_path) d) level fields)
    name.
Proof.
  revert level. induction fields as [|f fields IH]; intros level H; cbn [foldl].
  - destruct H as [H|(fp & Hin & _)]; [done|]. by apply elem_of_nil in Hin.
  - apply IH. destruct H as [H|(fp & Hin & Hm)].
    + left. by apply select_path_keeps_mark.
    + apply elem_of_cons in Hin as [->|Hin]; [|right; by exists fp].
      left. pose proof (split_not_nil "." f) as Hne.
      destruct (PyStr.split "." f) as [|part rest]; [done|].
      by apply select_path_sets_mark.
Qed.

(** X12.  A name requested once with the bracket syntax stays marked as a
    list: whatever other paths the selector holds, before or after, the
    tree has a dictionary under that name and "__all__" is a key of it. *)
Theorem bracketed_name_stays_marked (s : string) (d : odict sel_tree) (fp name : string) :
  parse_select_fields_for_pydantic (Some s) = Some d →
  fp ∈ PyStr.split_strip_nonempty s →
  list_part_fullmatch (hd EmptyString (PyStr.split "." fp)) = Some name →
  marked_as_list d name.
Proof.
  unfold parse_select_fields_for_pydantic.
  destruct (PyStr.is_empty s); [done|].
  destruct (PyStr.split_strip_nonempty s) as [|f fs] eqn:E; [done|].
  intros Hd Hin Hm.
  pose proof (select_fold_mark (f :: fs) [] name
                (or_intror (ex_intro _ fp (conj Hin Hm)))) as H.
  destruct (foldl (fun d field_path => select_path (PyStr.split "." field_path) d)
                  [] (f :: fs)) as [|x d'] eqn:Ed; [done|].
  by injection Hd as <-.
Qed.

Lemma bracketed_name_stays_marked_witness :
  marked_as_list
    [("items", SDict [("__all__", STrue); ("name", STrue)]); ("id", STrue)]
    "items".
Proof.
  apply (bracketed_name_stays_marked "[items],items.name,id,items" _ "[items]" "items").
  - vm_compute. reflexivity.
  - vm_compute. apply list_elem_of_here.
  - vm_compute. reflexivity.
Defined.

(** ** The load planner on any include string *)

Lemma extract_step_spec keys acc fp name :
  name ∈ extract_step keys acc fp
  ↔ name ∈ acc
    ∨ (requested_name fp = Some name
       ∧ (PyStr.startswith fp "[" && PyStr.contains_char "]" fp = true ∨ name ∈ keys)).
Proof.
  unfold extract_step, requested_name.
  destruct (PyStr.startswith fp "[" && PyStr.contains_char "]" fp).
  - destruct (relation_match fp) as [n|].
    + rewrite elem_of_union, elem_of_singleton. split.
      * intros [->|H]; [right|left]; [tauto|done].
      * intros [H|[[= ->] _]]; [by right|by left].
    + split; [by left|]. by intros [H|[[=] _]].
  - case_bool_decide as Hin.
    + rewrite elem_of_union, elem_of_singleton. split.
      * intros [->|H]; [right|by left]. split; [done|by right].
      * intros [H|[[= ->] _]]; [by right|by left].
    + split; [by left|]. intros [H|[[= <-] [?|?]]]; done.
Qed.

Lemma extract_fold_spec keys fields acc name :
  name ∈ foldl (extract_step keys) acc fields
  ↔ name ∈ acc
    ∨ ∃ fp, fp ∈ fields
            ∧ requested_name fp = Some name
            ∧ (PyStr.startswith fp "[" && PyStr.contains_char "]" fp = true
               ∨ name ∈ keys).
Proof.
  revert acc. induction fields as [|f fields IH]; intros acc; cbn [foldl].
  - split; [by left|]. intros [H|(fp & Hin & _)]; [done|]. by apply elem_of_nil in Hin.
  - rewrite IH, extract_step_spec. split.
    + intros [[H|H]|(fp & Hin & H)]; [by left| |].
      * right. exists f. split; [apply list_elem_of_here|done].
      * right. exists fp. split; [by apply list_elem_of_further|done].
    + intros [H|(fp & Hin & H)]; [by left; left|].
      apply elem_of_cons in Hin as [->|Hin]; [by left; right|].
      right. by exists fp.
Qed.

Lemma extract_relationships_spec include_param keys name :
  name ∈ keys →
  name ∈ extract_relationships_from_select_hybrid include_param keys
  ↔ requested include_param name.
Proof.
  intros Hk. unfold extract_relationships_from_select_hybrid, requested, include_tokens.
  destruct include_param as [s|].
  - destruct (PyStr.is_empty s) eqn:E.
    + destruct s; [|done]. split; [by intros ?%elem_of_empty|].
      intros (fp & Hin & _). vm_compute in Hin. by apply elem_of_nil in Hin.
    + rewrite extract_fold_spec. split.
      * intros [H|(fp & Hin & Hr & _)]; [by apply elem_of_empty in H|by exists fp].
      * intros (fp & Hin & Hr). right. exists fp. tauto.
  - split; [by intros ?%elem_of_empty|]. intros (fp & Hin & _). by apply elem_of_nil in Hin.
Qed.

(** X13.  Whatever the include string, [apply_select_load_options] leaves
    the joins, the predicates and the ordering of the query alone and
    appends exactly one loader option per relationship of the base entity:
    [selectinload] when some token of the string asks for that relationship
    (bracketed or bare), [noload] when none does.  Names that are not
    relationships of the entity get no option at all. *)
Theorem load_planner_covers_every_relationship
        (sch : schema) (model_cls : string) (query : Select)
        (include_param : option string) :
  let keys := model_relation_keys_of sch model_cls in
  let q' := apply_select_load_options sch query model_cls include_param in
  q_joins q' = q_joins query
  ∧ q_where q' = q_where query
  ∧ q_order_by q' = q_order_by query
  ∧ ∃ opts,
      q_options q' = q_options query ++ opts
      ∧ length opts = size keys
      ∧ (∀ o, o ∈ opts →
              ∃ r, r ∈ keys ∧ (o = selectinload (mk_attr model_cls r)
                               ∨ o = noload (mk_attr model_cls r)))
      ∧ (∀ r, r ∈ keys →
              (selectinload (mk_attr model_cls r) ∈ opts ↔ requested include_param r)
              ∧ (noload (mk_attr model_cls r) ∈ opts ↔ ¬ requested include_param r)).
Proof.
  intros keys q'. subst q'. unfold apply_select_load_options. fold keys.
  set (wanted := extract_relationships_from_select_hybrid include_param keys).
  set (opts := load_options_for model_cls keys wanted).
  assert (match opts with
          | [] => query
          | o :: os => q_add_options query (o :: os)
          end = q_add_options query opts) as ->.
  { destruct opts; [|done]. destruct query. unfold q_add_options. cbn.
    by rewrite app_nil_r. }
  cbn [q_add_options q_joins q_where q_order_by q_options].
  split; [done|]. split; [done|]. split; [done|].
  exists opts. split; [done|]. subst opts. unfold load_options_for.
  split; [by rewrite length_map|]. split.
  - intros o Ho. apply list_elem_of_fmap in Ho as (r & -> & Hr).
    exists r. split; [by apply elem_of_elements|]. case_bool_decide; tauto.
  - intros r Hr.
    pose proof (extract_relationships_spec include_param keys r Hr) as Hreq.
    fold wanted in Hreq. split.
    + rewrite <- Hreq. split.
      * intros Ho. apply list_elem_of_fmap in Ho as (r' & Ho & _).
        case_bool_decide; [|done]. by injection Ho as ->.
      * intros Hw. apply list_elem_of_fmap. exists r.
        rewrite bool_decide_eq_true_2 by done. split; [done|by apply elem_of_elements].
    + rewrite <- Hreq. split.
      * intros Ho. apply list_elem_of_fmap in Ho as (r' & Ho & _).
        case_bool_decide; [done|]. by injection Ho as ->.
      * intros Hw. apply list_elem_of_fmap. exists r.
        rewrite bool_decide_eq_false_2 by done. split; [done|by apply elem_of_elements].
Qed.

Lemma load_planner_covers_every_relationship_witness :
  ∃ opts,
    q_options (apply_select_load_options models empty_select "Usuario"
                 (Some "id, [web_links].title ,[tenants].nome"))
    = q_options empty_select ++ opts
    ∧ selectinload (mk_attr "Usuario" "web_links") ∈ opts.
Proof.
  destruct (load_planner_covers_every_relationship models "Usuario" empty_select
              (Some "id, [web_links].title ,[tenants].nome"))
    as (_ & _ & _ & opts & Ho & _ & _ & Hr).
  exists opts. split; [exact Ho|].
  apply (Hr "web_links").
  - apply (bool_decide_unpack _). vm_compute. exact I.
  - exists "[web_links].title". split; [|vm_compute; reflexivity].
    vm_compute. apply list_elem_of_further, list_elem_of_here.
Defined.

(** ** The strict include check *)

Section ValidatedLoadOptions.
Context (model_cls : string) (relations_map : gmap string RelationshipProperty).

Lemma validated_fold include los inv :
  foldl (fun '(los, inv) relation_name =>
           match relations_map !! relation_name with
           | Some relation_attr =>
               if String.eqb model_cls "Aula" && String.eqb relation_name "aulas_livros"
               then (los, inv)
               else (los ++ [selectinload (class_attribute relation_attr)], inv)
           | None => (los, inv ++ [relation_name])
           end)
        (los, inv) include
  = (los ++ omap (included_option model_cls relations_map) include,
     inv ++ unknown_includes relations_map include).
Proof.
  revert los inv. induction include as [|n include IH]; intros los inv; cbn [foldl].
  - by rewrite !app_nil_r.
  - unfold unknown_includes. rewrite filter_cons. cbn [omap list_omap].
    unfold included_option at 1.
    destruct (relations_map !! n) as [r|] eqn:E.
    + rewrite decide_False by done.
      destruct (String.eqb model_cls "Aula" && String.eqb n "aulas_livros").
      * apply IH.
      * rewrite IH. by rewrite <- app_assoc.
    + rewrite decide_True by done. rewrite IH. by rewrite <- app_assoc.
Qed.

Lemma validated_fold_bd include los inv :
  foldl (fun '(los, inv) relation_name =>
           match relations_map !! relation_name with
           | Some relation_attr =>
               (los ++ [selectinload (class_attribute relation_attr)], inv)
           | None => (los, inv ++ [relation_name])
           end)
        (los, inv) include
  = (los ++ omap (fun n => r ← relations_map !! n;
                           Some (selectinload (class_attribute r))) include,
     inv ++ unknown_includes relations_map include).
Proof.
  revert los inv. induction include as [|n include IH]; intros los inv; cbn [foldl].
  - by rewrite !app_nil_r.
  - unfold unknown_includes. rewrite filter_cons. cbn [omap list_omap].
    destruct (relations_map !! n) as [r|] eqn:E; cbn.
    + rewrite decide_False by done. rewrite IH. by rewrite <- app_assoc.
    + rewrite decide_True by done. rewrite IH. by rewrite <- app_assoc.
Qed.

Lemma unknown_includes_nil include :
  unknown_includes relations_map include = []
  ↔ ∀ n, n ∈ include → is_Some (relations_map !! n).
Proof.
  unfold unknown_includes. induction include as [|n include IH].
  - split; [|done]. intros _ n Hn. by apply elem_of_nil in Hn.
  - rewrite filter_cons. destruct (relations_map !! n) as [r|] eqn:E.
    + rewrite decide_False by done. rewrite IH. split.
      * intros H x Hx. apply elem_of_cons in Hx as [->|Hx]; [by rewrite E|by apply H].
      * intros H x Hx. apply H. by apply list_elem_of_further.
    + rewrite decide_True by done. split; [done|].
      intros H. specialize (H n (list_elem_of_here _ _)). rewrite E in H. by destruct H.
Qed.
End ValidatedLoadOptions.

(** X14.  [get_validated_load_options] is all or nothing.  When every name
    of [include] is a key of [relations_map] it returns the loader options,
    one [selectinload] per name in the order given (crud_utils.py leaves out
    the relationship "aulas_livros" of the model "Aula").  Otherwise it
    raises, and the exception lists every unknown name, in the order given,
    not only the first.  Away from the model "Aula" the functions of
    utils_bd.py and crud_utils.py agree. *)
Theorem validated_load_options_all_or_nothing
        (model_cls : string) (relations_map : gmap string RelationshipProperty)
        (include : list string) :
  get_validated_load_options model_cls relations_map include
  = match unknown_includes relations_map include with
    | [] => inr (omap (included_option model_cls relations_map) include)
    | unknown => inl (InvalidIncludes unknown)
    end
  ∧ (unknown_includes relations_map include = []
     ↔ ∀ n, n ∈ include → is_Some (relations_map !! n))
  ∧ (∀ n, n ∈ unknown_includes relations_map include
          ↔ n ∈ include ∧ relations_map !! n = None)
  ∧ (model_cls ≠ "Aula" →
     UtilsBdInclude.get_validated_load_options model_cls relations_map include
     = get_validated_load_options model_cls relations_map include
     ∧ ((∀ n, n ∈ include → is_Some (relations_map !! n)) →
        ∃ rels, Forall2 (fun n r => relations_map !! n = Some r) include rels
                ∧ get_validated_load_options model_cls relations_map include
                  = inr (map (fun r => selectinload (class_attribute r)) rels))).
Proof.
  assert (get_validated_load_options model_cls relations_map include
          = match unknown_includes relations_map include with
            | [] => inr (omap (included_option model_cls relations_map) include)
            | unknown => inl (InvalidIncludes unknown)
            end) as Hcrud.
  { unfold get_validated_load_options. rewrite validated_fold. cbn [app].
    by destruct (unknown_includes relations_map include). }
  split; [exact Hcrud|]. split; [apply unknown_includes_nil|].
  split; [intros n; unfold unknown_includes; by rewrite list_elem_of_filter; tauto|].
  intros Hmodel.
  assert (String.eqb model_cls "Aula" = false) as Hne by by apply String.eqb_neq.
  assert (omap (included_option model_cls relations_map) include
          = omap (fun n => r ← relations_map !! n;
                           Some (selectinload (class_attribute r))) include) as Homap.
  { clear Hcrud. induction include as [|n include IH]; [done|].
    cbn [omap list_omap]. rewrite IH. unfold included_option. rewrite Hne.
    by destruct (relations_map !! n). }
  split.
  - rewrite Hcrud. unfold UtilsBdInclude.get_validated_load_options.
    rewrite validated_fold_bd. cbn [app]. rewrite Homap.
    by destruct (unknown_includes relations_map include).
  - intros Hall. rewrite Hcrud.
    rewrite (proj2 (unknown_includes_nil relations_map include) Hall).
    rewrite Homap. clear Hcrud Homap.
    induction include as [|n include IH]; [by exists []|].
    destruct (Hall n (list_elem_of_here _ _)) as [r Hr].
    destruct IH as (rels & Hrels & Heq).
    { intros x Hx. apply Hall. by apply list_elem_of_further. }
    exists (r :: rels). split; [by constructor|].
    cbn [omap list_omap map]. rewrite Hr. cbn. injection Heq as ->. done.
Qed.

Lemma validated_load_options_all_or_nothing_witness :
  UtilsBdInclude.get_validated_load_options "WebLink"
    (property_map models "WebLink") ["usuario"; "tenant"]
  = get_validated_load_options "WebLink"
      (property_map models "WebLink") ["usuario"; "tenant"].
Proof.
  apply (validated_load_options_all_or_nothing "WebLink"
           (property_map models "WebLink") ["usuario"; "tenant"]).
  discriminate.
Defined.

(** ** From the request to the load planner *)

Lemma split_app_sep sep a b :
  PyStr.split sep (a +:+ String sep b) = PyStr.split sep a ++ PyStr.split sep b.
Proof.
  induction a as [|c a IH].
  - rewrite append_empty_l. cbn [PyStr.split]. by rewrite Ascii.eqb_refl.
  - rewrite append_String. cbn [PyStr.split]. rewrite IH.
    destruct (Ascii.eqb c sep); [done|].
    pose proof (split_not_nil sep a). by destruct (PyStr.split sep a).
Qed.

Lemma split_strip_nonempty_app a b :
  PyStr.split_strip_nonempty (a +:+ "," +:+ b)
  = PyStr.split_strip_nonempty a ++ PyStr.split_strip_nonempty b.
Proof.
  unfold PyStr.split_strip_nonempty. change ("," +:+ b) with (String "," b).
  by rewrite split_app_sep, map_app, filter_app.
Qed.

Lemma split_strip_join_clean items :
  Forall clean_item items → PyStr.split_strip_nonempty (py_join "," items) = items.
Proof.
  intros Hitems. destruct items as [|x l]; [done|].
  unfold PyStr.split_strip_nonempty. rewrite split_join_items; [|done|].
  - induction Hitems as [|t ts (Hne & _ & Hs) Hts IH]; [done|].
    cbn [map]. rewrite Hs, filter_cons_True by (by destruct t). by rewrite IH.
  - eapply Forall_impl; [exact Hitems|]. by intros t (_ & ? & _).
Qed.

Lemma py_join_split sep s : py_join (String sep "") (PyStr.split sep s) = s.
Proof.
  induction s as [|c s IH]; [done|]. cbn [PyStr.split].
  pose proof (split_not_nil sep s) as Hne.
  destruct (Ascii.eqb c sep) eqn:E.
  - apply Ascii.eqb_eq in E. subst c.
    destruct (PyStr.split sep s) as [|h t]; [done|].
    rewrite py_join_cons, IH. reflexivity.
  - destruct (PyStr.split sep s) as [|h t]; [done|].
    destruct t as [|h' t].
    + cbn [py_join] in *. by rewrite IH.
    + rewrite py_join_cons in *. rewrite append_String. by rewrite IH.
Qed.

Lemma forall_char_app p a b :
  PyStr.forall_char p (a +:+ b) = PyStr.forall_char p a && PyStr.forall_char p b.
Proof.
  induction a as [|c a IH]; [done|].
  rewrite append_String. cbn [PyStr.forall_char]. by rewrite IH, andb_assoc.
Qed.

Lemma span_word_bracket r rest :
  PyStr.forall_char PyStr.re_word r = true →
  span_no_bracket (r +:+ String "]" rest) = (r, String "]" rest).
Proof.
  induction r as [|c s IH]; [done|]. intros H. rewrite append_String.
  cbn [span_no_bracket]. cbn [PyStr.forall_char] in H.
  apply andb_true_iff in H as [Hc Hs].
  assert (Ascii.eqb c "]" = false) as ->.
  { revert Hc. clear. destruct c as [[] [] [] [] [] [] [] []]; vm_compute; congruence. }
  by rewrite (IH Hs).
Qed.

Lemma contains_char_snoc c r : PyStr.contains_char c (r +:+ String c "") = true.
Proof.
  induction r as [|a s IH].
  - rewrite append_empty_l. cbn. by rewrite Ascii.eqb_refl.
  - rewrite append_String. cbn [PyStr.contains_char]. rewrite IH. apply orb_true_r.
Qed.

Section BracketedNames.
Context (r : string) (Hname : is_name r = true).

Lemma bracketed_chars (q : ascii → bool) :
  q "["%char = true → q "]"%char = true → (∀ c, PyStr.re_word c = true → q c = true) →
  PyStr.forall_char q (bracketed r) = true.
Proof.
  intros H1 H2 Hq. unfold bracketed.
  change ("[" +:+ r +:+ "]") with (String "[" (r +:+ "]")).
  cbn [PyStr.forall_char]. rewrite H1, forall_char_app, (name_chars r Hname q Hq).
  cbn. by rewrite H2.
Qed.

Lemma bracketed_clean : clean_item (bracketed r).
Proof.
  split; [done|]. split.
  - apply contains_char_forall. apply bracketed_chars; [done..|].
    intros c Hc. by rewrite (proj1 (word_char_plain c Hc)).
  - apply strip_without_space. apply bracketed_chars; [done..|].
    intros c Hc. by rewrite (proj2 (proj2 (proj2 (word_char_plain c Hc)))).
Qed.

Lemma requested_name_bracketed : requested_name (bracketed r) = Some r.
Proof.
  unfold requested_name, relation_match, bracketed.
  change ("[" +:+ r +:+ "]") with (String "[" (r +:+ String "]" "")).
  cbn [PyStr.startswith PyStr.strip_prefix PyStr.contains_char].
  rewrite Ascii.eqb_refl, contains_char_snoc. cbn [andb orb].
  rewrite span_word_bracket.
  - by rewrite (name_not_empty r Hname).
  - by apply andb_true_iff in Hname as [_ H].
Qed.
End BracketedNames.

Lemma merged_tokens select_fields include :
  Forall (fun r => is_name r = true) include →
  include_tokens (BaseService._merge_include_into_select select_fields (Some include))
  = include_tokens select_fields ++ map bracketed include.
Proof.
  intros Hinc. destruct include as [|r0 include]; [by rewrite app_nil_r|].
  assert (PyStr.split_strip_nonempty (py_join "," (map bracketed (r0 :: include)))
          = map bracketed (r0 :: include)) as Htoks.
  { apply split_strip_join_clean. apply Forall_fmap.
    eapply Forall_impl; [exact Hinc|]. intros r Hr. by apply bracketed_clean. }
  unfold BaseService._merge_include_into_select.
  destruct select_fields as [s|]; [|exact Htoks].
  destruct (PyStr.is_empty s) eqn:E.
  - destruct s; [|done]. exact Htoks.
  - cbn [include_tokens]. rewrite split_strip_nonempty_app. by rewrite <- Htoks.
Qed.

(** X15.  [_merge_include_into_select] adds the included relationships to
    what the select string asks for: when the include list holds plain
    names, the tokens of the merged string are the tokens of the select
    string followed by one bracketed token per included name, so a
    relationship is requested by the merged string exactly when the select
    string requests it or the include list names it.  The load planner of
    [get_deleted] therefore eager-loads an included relationship of the
    entity whatever the select string says. *)
Theorem merged_include_requests
        (select_fields : option string) (include : list string) :
  Forall (fun r => is_name r = true) include →
  let merged := BaseService._merge_include_into_select select_fields (Some include) in
  include_tokens merged = include_tokens select_fields ++ map bracketed include
  ∧ (∀ name, requested merged name ↔ requested select_fields name ∨ name ∈ include)
  ∧ ∀ sch model_cls query name,
      name ∈ model_relation_keys_of sch model_cls → name ∈ include →
      selectinload (mk_attr model_cls name)
      ∈ q_options (apply_select_load_options sch query model_cls merged).
Proof.
  intros Hinc merged. pose proof (merged_tokens select_fields include Hinc) as Htok.
  fold merged in Htok.
  assert (∀ name, requested merged name ↔ requested select_fields name ∨ name ∈ include)
    as Hreq.
  { intros name. unfold requested. rewrite Htok. split.
    - intros (fp & Hin & Hr). apply elem_of_app in Hin as [Hin|Hin]; [left; by exists fp|].
      right. apply list_elem_of_fmap in Hin as (r & -> & Hr').
      rewrite Forall_forall in Hinc.
      rewrite (requested_name_bracketed r) in Hr by (by apply Hinc).
      by injection Hr as <-.
    - intros [(fp & Hin & Hr)|Hin].
      + exists fp. split; [|done]. apply elem_of_app. by left.
      + exists (bracketed name). rewrite Forall_forall in Hinc. split.
        * apply elem_of_app. right. apply list_elem_of_fmap. by exists name.
        * apply requested_name_bracketed. by apply Hinc. }
  split; [done|]. split; [done|].
  intros sch model_cls query name Hkey Hin.
  unfold apply_select_load_options.
  set (keys := model_relation_keys_of sch model_cls) in *.
  assert (selectinload (mk_attr model_cls name)
          ∈ load_options_for model_cls keys
              (extract_relationships_from_select_hybrid merged keys)) as Hopt.
  { unfold load_options_for. apply list_elem_of_fmap. exists name.
    split; [|by apply elem_of_elements].
    rewrite bool_decide_eq_true_2; [done|].
    apply extract_relationships_spec; [done|]. apply Hreq. by right. }
  destruct (load_options_for model_cls keys
              (extract_relationships_from_select_hybrid merged keys)) as [|o os];
    [by apply elem_of_nil in Hopt|].
  cbn. apply elem_of_app. by right.
Qed.

Lemma merged_include_requests_witness :
  selectinload (mk_attr "Usuario" "web_links")
  ∈ q_options (apply_select_load_options models empty_select "Usuario"
                 (BaseService._merge_include_into_select (Some "id,nome")
                    (Some ["web_links"; "tenants"]))).
Proof.
  apply (merged_include_requests (Some "id,nome") ["web_links"; "tenants"]).
  - repeat constructor.
  - apply (bool_decide_unpack _). vm_compute. exact I.
  - apply list_elem_of_here.
Defined.

(** The example of the docstring of [_merge_include_into_select]. *)
Example merge_include_docstring :
  BaseService._merge_include_into_select (Some "id,nome") (Some ["paciente"; "consultas"])
  = Some "id,nome,[paciente],[consultas]".
Proof. vm_compute. reflexivity. Qed.

(** What [get_validated_load_options] of crud_utils.py returns. *)
Lemma validated_load_options_outcome model_cls relations_map include :
  get_validated_load_options model_cls relations_map include
  = match unknown_includes relations_map include with
    | [] => inr (omap (included_option model_cls relations_map) include)
    | unknown => inl (InvalidIncludes unknown)
    end.
Proof.
  unfold get_validated_load_options. rewrite validated_fold. cbn [app].
  by destruct (unknown_includes relations_map include).
Qed.

(** X16.  The include parameter on its way from the controller to the load
    planner.  The controller splits a non-empty parameter at the commas.
    [get_by_id] joins the pieces again and hands the load planner the
    parameter as it was sent, the select string being left out.  [get_all]
    first runs the strict check on the pieces: when one of them is not a key
    of the service's relationship map (a misspelt name, a bracketed or a
    dotted one) the request ends there with a 400 that lists all such
    pieces, and the load planner is not reached; otherwise the query gets
    one [selectinload] per piece and then goes to the load planner with the
    parameter as it was sent.  Without an include parameter both hand the
    select string to the load planner. *)
Theorem include_parameter_reaches_load_planner
        (sch : schema) (model_class : string)
        (relationship_map : gmap string RelationshipProperty)
        (base_query : Select) (s : string) (select_fields : option string) :
  s ≠ "" →
  BaseService.get_by_id_includes sch model_class base_query
    (include_list (Some s)) select_fields
  = apply_select_load_options sch base_query model_class (Some s)
  ∧ BaseService.get_all_includes sch model_class relationship_map base_query
      (include_list (Some s)) select_fields
    = match unknown_includes relationship_map (PyStr.split "," s) with
      | [] =>
          inr (apply_select_load_options sch
                 (q_add_options base_query
                    (omap (included_option model_class relationship_map)
                          (PyStr.split "," s)))
                 model_class (Some s))
      | unknown => inl (BaseService.HTTPException 400 (InvalidIncludes unknown))
      end
  ∧ BaseService.get_by_id_includes sch model_class base_query
      (include_list None) select_fields
    = apply_select_load_options sch base_query model_class select_fields
  ∧ BaseService.get_all_includes sch model_class relationship_map base_query
      (include_list None) select_fields
    = inr (apply_select_load_options sch base_query model_class select_fields).
Proof.
  intros Hs.
  assert (include_list (Some s) = Some (PyStr.split "," s)) as Hl.
  { unfold include_list. by destruct s. }
  pose proof (py_join_split "," s) as Hj.
  pose proof (split_not_nil "," s) as Hne.
  assert (BaseService.include_param_for_load_options (Some (PyStr.split "," s))
            select_fields = Some s) as Hp.
  { unfold BaseService.include_param_for_load_options.
    destruct (PyStr.split "," s) as [|h t]; [done|]. by rewrite Hj. }
  split; [|split; [|done]].
  - unfold BaseService.get_by_id_includes. by rewrite Hl, Hp.
  - unfold BaseService.get_all_includes, BaseService._get_query_with_includes.
    rewrite Hl, Hp.
    rewrite validated_load_options_outcome.
    destruct (PyStr.split "," s) as [|h t] eqn:E; [done|]. rewrite <- E.
    by destruct (unknown_includes relationship_map (PyStr.split "," s)).
Qed.

Lemma include_parameter_reaches_load_planner_witness :
  BaseService.get_all_includes models "WebLink" (property_map models "WebLink")
    empty_select (include_list (Some "usuario,[usuario],autor")) None
  = inl (BaseService.HTTPException 400 (InvalidIncludes ["[usuario]"; "autor"])).
Proof.
  pose proof (include_parameter_reaches_load_planner models "WebLink"
                (property_map models "WebLink") empty_select
                "usuario,[usuario],autor" None) as H.
  destruct H as (_ & H & _); [done|].
  rewrite H. vm_compute. reflexivity.
Defined.

(** ** Text search *)

Section SearchFacts.
Context (or_ : list predicate → predicate).
Context (columns : string → string → UtilsBdSearch.column_info).
Context (sch : schema) (model_cls : string).

Lemma search_step_outcome term st f :
  match search_failure columns sch model_cls f with
  | Some c => UtilsBdSearch.search_step columns sch model_cls term st f
              = inl (UtilsBdSearch.NotImplementedError c)
  | None =>
      UtilsBdSearch.search_step columns sch model_cls term st f
      = inr (UtilsBdSearch.mk_search_state
               (match UtilsBdSearch.search_relationship sch model_cls f with
                | Some r => if bool_decide (r ∈ UtilsBdSearch.s_joins_added st)
                            then UtilsBdSearch.s_query st
                            else q_join (UtilsBdSearch.s_query st) (mk_attr model_cls r) false
                | None => UtilsBdSearch.s_query st
                end)
               (UtilsBdSearch.s_conditions st
                  ++ match UtilsBdSearch.search_column columns sch model_cls f with
                     | Some c => [PBin OpILike c (VStr term)]
                     | None => []
                     end)
               (match UtilsBdSearch.search_relationship sch model_cls f with
                | Some r => if bool_decide (r ∈ UtilsBdSearch.s_joins_added st)
                            then UtilsBdSearch.s_joins_added st
                            else {[r]} ∪ UtilsBdSearch.s_joins_added st
                | None => UtilsBdSearch.s_joins_added st
                end))
  end.
Proof.
  unfold search_failure, UtilsBdSearch.search_step, UtilsBdSearch.search_relationship,
    UtilsBdSearch.search_column, UtilsBdSearch.add_condition.
  destruct st as [q conds added]. cbn [UtilsBdSearch.s_query UtilsBdSearch.s_conditions UtilsBdSearch.s_joins_added].
  destruct (PyStr.contains_char "." f).
  - destruct (UtilsBdSearch.split_once f) as [rel_name rel_field]. cbn [fst snd].
    destruct (getattr sch model_cls rel_name) as [[| t | |]|];
      rewrite ?app_nil_r; try done.
    case_bool_decide; cbn [UtilsBdSearch.s_query UtilsBdSearch.s_conditions UtilsBdSearch.s_joins_added];
      destruct (columns t rel_field); rewrite ?app_nil_r; done.
  - destruct (columns model_cls f); rewrite ?app_nil_r; done.
Qed.

Lemma search_loop_fails term st fields c :
  head (omap (search_failure columns sch model_cls) fields) = Some c →
  UtilsBdSearch.search_loop columns sch model_cls term st fields
  = inl (UtilsBdSearch.NotImplementedError c).
Proof.
  revert st. induction fields as [|f fields IH]; intros st; [done|].
  cbn [omap list_omap UtilsBdSearch.search_loop].
  pose proof (search_step_outcome term st f) as Hs.
  destruct (search_failure columns sch model_cls f) as [c'|].
  - cbn [head]. intros [= ->]. by rewrite Hs.
  - rewrite Hs. apply IH.
Qed.

Lemma search_loop_effect term st fields :
  head (omap (search_failure columns sch model_cls) fields) = None →
  ∃ st' rels,
    UtilsBdSearch.search_loop columns sch model_cls term st fields = inr st'
    ∧ UtilsBdSearch.s_query st'
      = mk_select
          (q_joins (UtilsBdSearch.s_query st) ++ map (λ r, (mk_attr model_cls r, false)) rels)
          (q_where (UtilsBdSearch.s_query st))
          (q_options (UtilsBdSearch.s_query st))
          (q_order_by (UtilsBdSearch.s_query st))
    ∧ UtilsBdSearch.s_conditions st'
      = UtilsBdSearch.s_conditions st
        ++ map (λ c, PBin OpILike c (VStr term))
               (omap (UtilsBdSearch.search_column columns sch model_cls) fields)
    ∧ NoDup rels
    ∧ ∀ r, r ∈ rels ↔
           ((r ∉ UtilsBdSearch.s_joins_added st)
            ∧ r ∈ omap (UtilsBdSearch.search_relationship sch model_cls) fields).
Proof.
  revert st. induction fields as [|f fields IH]; intros st.
  - intros _. exists st, []. cbn. rewrite !app_nil_r.
    split; [done|]. split; [by destruct st as [[] ? ?]|].
    split; [done|]. split; [constructor|].
    intros r. rewrite elem_of_nil. tauto.
  - cbn [omap list_omap UtilsBdSearch.search_loop].
    pose proof (search_step_outcome term st f) as Hs.
    destruct (search_failure columns sch model_cls f) as [c'|]; [done|].
    intros Hrest. rewrite Hs.
    match goal with
    | |- context [UtilsBdSearch.search_loop _ _ _ _ ?s fields] => set (st1 := s)
    end.
    destruct (IH st1 Hrest) as (st' & rels & Hloop & Hq & Hc & Hnd & Hin).
    assert (UtilsBdSearch.s_conditions st'
            = UtilsBdSearch.s_conditions st
              ++ map (λ c, PBin OpILike c (VStr term))
                   (match UtilsBdSearch.search_column columns sch model_cls f with
                    | Some c => c :: omap (UtilsBdSearch.search_column columns sch model_cls) fields
                    | None => omap (UtilsBdSearch.search_column columns sch model_cls) fields
                    end)) as Hc'.
    { rewrite Hc. subst st1. cbn [UtilsBdSearch.s_conditions].
      destruct (UtilsBdSearch.search_column columns sch model_cls f);
        [by rewrite <- app_assoc | by rewrite app_nil_r]. }
    subst st1. cbn [UtilsBdSearch.s_query UtilsBdSearch.s_joins_added] in Hq, Hin.
    destruct (UtilsBdSearch.search_relationship sch model_cls f) as [r0|].
    + case_bool_decide as Hr0.
      * exists st', rels. split; [done|]. split; [done|]. split; [done|].
        split; [done|]. intros r. rewrite Hin, elem_of_cons.
        split; [tauto|]. intros [? [-> |?]]; tauto.
      * exists st', (r0 :: rels). split; [done|].
        split. { rewrite Hq. cbn [q_join q_joins q_where q_options q_order_by map].
                 by rewrite <- app_assoc. }
        split; [done|].
        split. { constructor; [|done]. rewrite Hin, elem_of_union, elem_of_singleton. tauto. }
        intros r. rewrite !elem_of_cons, Hin, elem_of_union, elem_of_singleton.
        destruct (decide (r = r0)) as [-> |]; tauto.
    + exists st', rels. done.
Qed.
End SearchFacts.

(** X17.  What a text search adds to a query.  With a search term and some
    search fields, a search that returns has left the loader options and the
    ordering alone and has added
    - one INNER join for each relationship of the base entity that a dotted
      field goes through, once per relationship, whether or not the field
      behind the dot can be searched;
    - at most one predicate: the disjunction of [column ILIKE '%term%'] over
      the fields that name a string column, in the order of the field list;
      no predicate at all when no field does. *)
Theorem text_search_effect
        (or_ : list predicate → predicate)
        (columns : string → string → UtilsBdSearch.column_info)
        (sch : schema) (model_cls : string)
        (query : Select) (search : string) (search_fields : list string) (q' : Select) :
  search ≠ "" →
  search_fields ≠ [] →
  UtilsBdSearch.apply_search or_ columns sch model_cls query (Some search) search_fields = inr q' →
  q_options q' = q_options query
  ∧ q_order_by q' = q_order_by query
  ∧ (∃ rels,
        q_joins q' = q_joins query ++ map (λ r, (mk_attr model_cls r, false)) rels
        ∧ NoDup rels
        ∧ ∀ r, r ∈ rels ↔ r ∈ omap (UtilsBdSearch.search_relationship sch model_cls) search_fields)
  ∧ q_where q'
    = q_where query
      ++ match omap (UtilsBdSearch.search_column columns sch model_cls) search_fields with
         | [] => []
         | cs => [or_ (map (λ c, PBin OpILike c (VStr ("%" +:+ search +:+ "%"))) cs)]
         end.
Proof.
  intros Hs Hf. unfold UtilsBdSearch.apply_search.
  destruct search as [|c0 s0]; [done|]. cbn [PyStr.is_empty].
  destruct search_fields as [|f0 fs]; [done|].
  set (fields := f0 :: fs). set (term := "%" +:+ String c0 s0 +:+ "%").
  set (st0 := UtilsBdSearch.mk_search_state query [] ∅).
  destruct (head (omap (search_failure columns sch model_cls) fields)) as [c|] eqn:Hfail.
  - by rewrite (search_loop_fails columns sch model_cls term st0 fields c Hfail).
  - destruct (search_loop_effect columns sch model_cls term st0 fields Hfail)
      as (st' & rels & -> & Hq & Hc & Hnd & Hin).
    subst st0. cbn [UtilsBdSearch.s_query UtilsBdSearch.s_conditions UtilsBdSearch.s_joins_added app] in Hq, Hc, Hin.
    rewrite Hc.
    assert (∀ r, r ∈ rels ↔ r ∈ omap (UtilsBdSearch.search_relationship sch model_cls) fields)
      as Hin'.
    { intros r. rewrite Hin. split; [tauto|]. intros ?. split; [|done].
      apply not_elem_of_empty. }
    destruct (omap (UtilsBdSearch.search_column columns sch model_cls) fields) as [|c1 cs];
      cbn [map]; intros [= <-].
    + rewrite Hq. cbn. rewrite app_nil_r. split; [done|]. split; [done|].
      split; [|done]. by exists rels.
    + rewrite Hq. cbn. split; [done|]. split; [done|]. split; [|done]. by exists rels.
Qed.

Lemma text_search_effect_witness :
  let or_ := λ ps, default (PIsNull (mk_attr "WebLink" "id")) (head ps) in
  let q' :=
    mk_select [(mk_attr "WebLink" "usuario", false)]
              [or_ [PBin OpILike (mk_attr "WebLink" "title") (VStr "%ab%");
                    PBin OpILike (mk_attr "Usuario" "nome") (VStr "%ab%")]]
              [] [] in
  q_options q' = []
  ∧ q_order_by q' = []
  ∧ (∃ rels,
        q_joins q' = [] ++ map (λ r, (mk_attr "WebLink" r, false)) rels
        ∧ NoDup rels
        ∧ ∀ r, r ∈ rels ↔
               r ∈ omap (UtilsBdSearch.search_relationship models "WebLink")
                        ["title"; "usuario.nome"; "usuario.id"; "usuario.idade";
                         "autor.nome"; "id"])
  ∧ q_where q'
    = [] ++ match omap (UtilsBdSearch.search_column model_columns models "WebLink")
                       ["title"; "usuario.nome"; "usuario.id"; "usuario.idade";
                        "autor.nome"; "id"] with
            | [] => []
            | cs => [or_ (map (λ c, PBin OpILike c (VStr ("%" +:+ "ab" +:+ "%"))) cs)]
            end.
Proof.
  intros or_ q'.
  apply (text_search_effect or_ model_columns models "WebLink" empty_select "ab"
           ["title"; "usuario.nome"; "usuario.id"; "usuario.idade"; "autor.nome"; "id"]
           q').
  - done.
  - done.
  - vm_compute. reflexivity.
Defined.

(** X18.  A text search is lenient.  Without a search term, with an empty
    one or without search fields the query comes back as it was.  Otherwise
    the only failure is the [NotImplementedError] of a column type that
    cannot tell its [python_type], raised at the first field of the list that
    names such a column; a field that is unknown, that goes through an
    unknown relationship, or that names a column that is not a string is
    skipped, and the search returns a query. *)
Theorem text_search_lenient
        (or_ : list predicate → predicate)
        (columns : string → string → UtilsBdSearch.column_info)
        (sch : schema) (model_cls : string)
        (query : Select) (search : option string) (search_fields : list string) :
  UtilsBdSearch.apply_search or_ columns sch model_cls query None search_fields = inr query
  ∧ UtilsBdSearch.apply_search or_ columns sch model_cls query (Some "") search_fields = inr query
  ∧ UtilsBdSearch.apply_search or_ columns sch model_cls query search [] = inr query
  ∧ ∀ term,
      search = Some term → term ≠ "" → search_fields ≠ [] →
      match head (omap (search_failure columns sch model_cls) search_fields) with
      | Some c =>
          UtilsBdSearch.apply_search or_ columns sch model_cls query search search_fields
          = inl (UtilsBdSearch.NotImplementedError c)
      | None =>
          ∃ q', UtilsBdSearch.apply_search or_ columns sch model_cls query search search_fields
                = inr q'
      end.
Proof.
  split; [done|]. split; [done|].
  split. { destruct search as [s|]; [|done]. cbn. by destruct (PyStr.is_empty s). }
  intros term -> Hterm Hfields. unfold UtilsBdSearch.apply_search.
  destruct term as [|c0 s0]; [done|]. cbn [PyStr.is_empty].
  destruct search_fields as [|f0 fs]; [done|].
  set (fields := f0 :: fs). set (st0 := UtilsBdSearch.mk_search_state query [] ∅).
  set (term := "%" +:+ String c0 s0 +:+ "%").
  destruct (head (omap (search_failure columns sch model_cls) fields)) as [c|] eqn:Hfail.
  - by rewrite (search_loop_fails columns sch model_cls term st0 fields c Hfail).
  - destruct (search_loop_effect columns sch model_cls term st0 fields Hfail)
      as (st' & rels & -> & _).
    destruct (UtilsBdSearch.s_conditions st'); by eexists.
Qed.

Lemma text_search_lenient_witness :
  ∃ q', UtilsBdSearch.apply_search (λ ps, default (PIsNull (mk_attr "Usuario" "id")) (head ps))
          model_columns models "Usuario" empty_select (Some "ana")
          ("permissoes" :: "web_links.autor" :: "idade" :: Usuario_searchable_fields)
        = inr q'.
Proof.
  pose proof (text_search_lenient
                (λ ps, default (PIsNull (mk_attr "Usuario" "id")) (head ps))
                model_columns models "Usuario" empty_select (Some "ana")
                ("permissoes" :: "web_links.autor" :: "idade" :: Usuario_searchable_fields))
    as (_ & _ & _ & H).
  apply (H "ana"); [reflexivity|done|done].
Defined.

(** ** Sorting by a valid specifier *)

Lemma sorting_join_fold (q : Select) (hops : list RelationshipProperty) :
  foldl (λ q rel_prop, q_join q (class_attribute rel_prop) true) q hops
  = mk_select (q_joins q ++ map outer_join hops) (q_where q) (q_options q) (q_order_by q).
Proof.
  revert q. induction hops as [|h hops IH]; intros q; cbn [foldl map].
  - rewrite app_nil_r. by destruct q.
  - rewrite IH. cbn. by rewrite <- app_assoc.
Qed.

(** X19.  Sorting by a specifier that is valid in the schema, with a
    relations map that holds the property of the first relationship of the
    path under its name.  The direction is read without regard to case, and
    an absent or empty one means ascending.  With a direction that is
    neither [asc] nor [desc] the call fails on the direction, and it does so
    before the sort field is looked at, whatever the field and the relations
    map.  Otherwise the query gets one LEFT OUTER join call per relationship
    segment, in path order, and then one ORDER BY on the column of the last
    segment; its predicates and loader options are left alone. *)
Theorem sorting_by_valid_specifier
        (sch : schema) (model_cls sort_by : string) (query : Select)
        (sort_dir : option string) :
  sort_by ≠ "" →
  (∀ relations_map,
      UtilsBd.direction_of sort_dir ≠ "asc" →
      UtilsBd.direction_of sort_dir ≠ "desc" →
      UtilsBd.apply_sorting sch model_cls relations_map query (Some sort_by) sort_dir
      = inl (InvalidSortDirection (default "" sort_dir)))
  ∧ (∀ relations_map hops col,
        path_to sch model_cls (PyStr.split "." sort_by) hops col →
        (∀ r, head hops = Some r → relations_map !! rel_key r = Some r) →
        ∀ order_func,
          (UtilsBd.direction_of sort_dir = "asc" ∧ order_func = asc)
          ∨ (UtilsBd.direction_of sort_dir = "desc" ∧ order_func = desc) →
          UtilsBd.apply_sorting sch model_cls relations_map
            query (Some sort_by) sort_dir
          = inr (mk_select (q_joins query ++ map outer_join hops)
                           (q_where query) (q_options query)
                           (q_order_by query ++ [order_func col])))
  ∧ UtilsBd.direction_of None = "asc"
  ∧ UtilsBd.direction_of (Some "") = "asc"
  ∧ (∀ d, d ≠ "" → UtilsBd.direction_of (Some d) = PyStr.lower d).
Proof.
  intros Hs.
  assert (UtilsBd.no_sort (Some sort_by) = false) as Hno by (by destruct sort_by).
  split; [|split; [|split; [done|split; [done|]]]].
  - intros relations_map Ha Hd. unfold UtilsBd.apply_sorting. rewrite Hno.
    unfold str_in. cbn [existsb].
    apply String.eqb_neq in Ha, Hd. by rewrite Ha, Hd.
  - intros relations_map hops col Hp Hmap order_func Hdir.
    unfold UtilsBd.apply_sorting. rewrite Hno.
    cbn [default from_option id].
    assert (_get_column_or_relationship sch model_cls sort_by relations_map
            = inr (col, attr_class col, hops)) as ->.
    { unfold _get_column_or_relationship.
      by rewrite (resolve_loop_path sch model_cls sort_by relations_map
                    _ _ _ _ Hp 0 []). }
    cbn [mbind exn_bind]. rewrite sorting_join_fold.
    destruct Hdir as [[-> ->]|[-> ->]]; done.
  - intros d Hd. by destruct d.
Qed.

Lemma sorting_by_valid_specifier_witness :
  UtilsBd.apply_sorting models "WebLink" (property_map models "WebLink")
    empty_select (Some "usuario.nome") (Some "DESC")
  = inr (mk_select ([] ++ map outer_join [mk_rel "WebLink" "usuario" "Usuario"])
                   [] [] ([] ++ [desc (mk_attr "Usuario" "nome")])).
Proof.
  pose proof (sorting_by_valid_specifier models "WebLink" "usuario.nome" empty_select
                (Some "DESC")) as H.
  destruct H as (_ & H & _); [done|].
  apply (H (property_map models "WebLink")
           [mk_rel "WebLink" "usuario" "Usuario"] (mk_attr "Usuario" "nome")).
  - change (PyStr.split "." "usuario.nome") with ["usuario"; "nome"].
    apply path_hop; [reflexivity|]. apply path_column. reflexivity.
  - intros r [= <-]. vm_compute. reflexivity.
  - right. split; reflexivity.
Defined.

(** ** Relative time *)

Lemma relative_text_eq (n : Z) (word suffix : string) :
  RelativeTime.ha +:+ " " +:+ RelativeTime.str n +:+ (" " +:+ word)
    +:+ (if negb (n =? 1)%Z then suffix else "")
  = relative_text n word suffix.
Proof.
  unfold relative_text, RelativeTime.str.
  destruct (Z.eqb_spec n 1) as [->|Hn].
  - by rewrite bool_decide_eq_true_2.
  - by rewrite bool_decide_eq_false_2.
Qed.

Lemma int_nonnegative (x : QArith_base.Q) :
  QArith_base.Qle_bool (QArith_base.inject_Z 0) x = true →
  RelativeTime.int x = Qround.Qfloor x ∧ (0 ≤ Qround.Qfloor x)%Z.
Proof.
  intros H. unfold RelativeTime.int. rewrite H. split; [done|].
  apply QArith_base.Qle_bool_iff in H. apply Qround.Qfloor_resp_le in H.
  by rewrite Qround.Qfloor_Z in H.
Qed.

(** X20.  The table of [format_relative_time].  A missing date gives
    [nunca]; a date in the future, or less than a minute old, gives [agora].
    Otherwise, with [s] the whole seconds elapsed and [days] the whole days
    ([s] divided by 86400), the text is [há N unit] with the unit in the
    plural unless [N] is one:
    minutes below an hour, hours below a day, days below 7 days, weeks below
    28 days, months ([days] divided by 30) below 360 days and years ([days]
    divided by 365) from then on.  The count is at least one, except that
    days 28 and 29 give [há 0 mêses] and days 360 to 364 give [há 0 anos]. *)
Theorem relative_time_table (x : QArith_base.Q) :
  RelativeTime.format_relative_time None = "nunca"
  ∧ (QArith_base.Qle_bool (QArith_base.inject_Z 0) x = false →
     RelativeTime.format_relative_time (Some x) = "agora")
  ∧ (QArith_base.Qle_bool (QArith_base.inject_Z 0) x = true →
     let s := Qround.Qfloor x in
     let days := (s / 86400)%Z in
     let out := RelativeTime.format_relative_time (Some x) in
     ((s < 60)%Z → out = "agora")
     ∧ ((60 ≤ s < 3600)%Z → out = relative_text (s / 60) "minuto" "s" ∧ (1 ≤ s / 60)%Z)
     ∧ ((3600 ≤ s < 86400)%Z →
        out = relative_text (s / 3600) "hora" "s" ∧ (1 ≤ s / 3600)%Z)
     ∧ ((1 ≤ days < 7)%Z → out = relative_text days "dia" "s")
     ∧ ((7 ≤ days < 28)%Z →
        out = relative_text (days / 7) "semana" "s" ∧ (1 ≤ days / 7)%Z)
     ∧ ((28 ≤ days < 30)%Z → out = relative_text 0 RelativeTime.mes "es")
     ∧ ((30 ≤ days < 360)%Z →
        out = relative_text (days / 30) RelativeTime.mes "es" ∧ (1 ≤ days / 30)%Z)
     ∧ ((360 ≤ days < 365)%Z → out = relative_text 0 "ano" "s")
     ∧ ((365 ≤ days)%Z →
        out = relative_text (days / 365) "ano" "s" ∧ (1 ≤ days / 365)%Z)).
Proof.
  split; [done|]. split.
  { intros H. unfold RelativeTime.format_relative_time. by rewrite H. }
  intros H s days out. subst out. unfold RelativeTime.format_relative_time.
  rewrite H. cbn [negb].
  destruct (int_nonnegative x H) as [-> Hs]. fold s.
  rewrite (Z.div_div s 60 60) by lia. change (60 * 60)%Z with 3600%Z.
  rewrite (Z.div_div s 3600 24) by lia. change (3600 * 24)%Z with 86400%Z. fold days.
  rewrite <- !relative_text_eq.
  assert (0 ≤ days)%Z as Hd by (subst days; Z.div_mod_to_equations; lia).
  assert (days < 1 ↔ s < 86400)%Z as Hd1 by (subst days; Z.div_mod_to_equations; lia).
  assert (s / 3600 < 24 ↔ s < 86400)%Z as Hh by (Z.div_mod_to_equations; lia).
  assert (s / 60 < 60 ↔ s < 3600)%Z as Hm by (Z.div_mod_to_equations; lia).
  assert (days / 7 < 4 ↔ days < 28)%Z as Hw by (Z.div_mod_to_equations; lia).
  assert (days / 30 < 12 ↔ days < 360)%Z as Hmo by (Z.div_mod_to_equations; lia).
  assert (days / 30 = 0 ↔ days < 30)%Z as Hmo0 by (Z.div_mod_to_equations; lia).
  assert (days / 365 = 0 ↔ days < 365)%Z as Hy0 by (Z.div_mod_to_equations; lia).
  assert (1 ≤ s / 60 ↔ 60 ≤ s)%Z as Hm1 by (Z.div_mod_to_equations; lia).
  assert (1 ≤ s / 3600 ↔ 3600 ≤ s)%Z as Hh1 by (Z.div_mod_to_equations; lia).
  assert (1 ≤ days / 7 ↔ 7 ≤ days)%Z as Hw1 by (Z.div_mod_to_equations; lia).
  assert (0 ≤ days / 30)%Z as Hmo2 by (Z.div_mod_to_equations; lia).
  assert (0 ≤ days / 365)%Z as Hy2 by (Z.div_mod_to_equations; lia).
  destruct (Z.ltb_spec s 60) as [H1|H1].
  { repeat split; intros; (done || lia). }
  destruct (Z.ltb_spec (s / 60) 60) as [H2|H2].
  { repeat split; intros; (done || lia). }
  destruct (Z.ltb_spec (s / 3600) 24) as [H3|H3].
  { repeat split; intros; (done || lia). }
  destruct (Z.ltb_spec days 7) as [H4|H4].
  { repeat split; intros; (done || lia). }
  destruct (Z.ltb_spec (days / 7) 4) as [H5|H5].
  { repeat split; intros; (done || lia). }
  destruct (Z.ltb_spec (days / 30) 12) as [H6|H6].
  { repeat split; intros; try (done || lia).
    assert (days / 30 = 0)%Z as -> by lia. done. }
  repeat split; intros; try (done || lia).
  assert (days / 365 = 0)%Z as -> by lia. done.
Qed.

Lemma relative_time_table_witness :
  RelativeTime.format_relative_time (Some (QArith_base.inject_Z 2505600))
  = relative_text 0 RelativeTime.mes "es".
Proof.
  destruct (relative_time_table (QArith_base.inject_Z 2505600)) as (_ & _ & H).
  destruct (H eq_refl) as (_ & _ & _ & _ & _ & H6 & _).
  apply H6. rewrite Qround.Qfloor_Z. vm_compute. split; [discriminate|reflexivity].
Defined.

(** ** The joins of the compiled statement *)

Lemma compile_joins_spec seen calls :
  NoDup (compile_joins seen calls).*1
  ∧ ∀ a, a ∈ (compile_joins seen calls).*1 ↔ a ∈ calls.*1 ∧ a ∉ seen.
Proof.
  revert seen. induction calls as [|call rest IH]; intros seen; cbn [compile_joins].
  - split; [constructor|]. intros a. cbn. rewrite elem_of_nil. tauto.
  - case_bool_decide as Hseen.
    + destruct (IH seen) as [Hnd Hin]. split; [done|].
      intros a. rewrite Hin. cbn [fmap list_fmap]. rewrite elem_of_cons.
      split; [tauto|]. intros [[-> |?] ?]; tauto.
    + destruct (IH (call.1 :: seen)) as [Hnd Hin]. cbn [fmap list_fmap]. split.
      * constructor; [|done]. rewrite Hin, elem_of_cons. tauto.
      * intros a. rewrite !elem_of_cons, Hin, elem_of_cons.
        destruct (decide (a = call.1)) as [-> |]; tauto.
Qed.

Lemma outer_join_targets hops a :
  a ∈ (map outer_join hops).*1 ↔ ∃ r, r ∈ hops ∧ a = class_attribute r.
Proof.
  induction hops as [|h hops IH]; cbn.
  - rewrite elem_of_nil. split; [done|]. intros (r & Hr & _). by apply elem_of_nil in Hr.
  - rewrite elem_of_cons, IH. split.
    + intros [-> |(r & Hr & ->)]; [exists h|exists r]; split; try done.
      * apply list_elem_of_here.
      * by apply list_elem_of_further.
    + intros (r & Hr & ->). apply elem_of_cons in Hr as [-> |Hr]; [by left|].
      right. by exists r.
Qed.

Lemma hops_of_unqualified sch model_cls relations_map :
  hops_of sch model_cls relations_map "" = [].
Proof.
  unfold hops_of, _get_column_or_relationship.
  change (PyStr.split "." "") with [""]. cbn [resolve_loop].
  by destruct (getattr sch model_cls "") as [[| | |]|].
Qed.

Section JoinsAfter.
Context (py_str : pyval → string) (raises : sqlalchemy).
Context (sch : schema) (model_cls : string)
        (relations_map : gmap string RelationshipProperty).

(** The hops of the compiled clauses are those of the fields of the map. *)
Lemma compiled_hops params clauses :
  collect (compile_clause raises sch model_cls relations_map) params = inr clauses →
  ∀ r, r ∈ concat clauses.*1
       ↔ ∃ field, field ∈ params.*1 ∧ r ∈ hops_of sch model_cls relations_map field.
Proof.
  revert clauses. induction params as [|[field ops] params IH]; intros clauses;
    cbn [collect].
  - intros [= <-] r. cbn. rewrite elem_of_nil. split; [done|].
    intros (f & Hf & _). by apply elem_of_nil in Hf.
  - rewrite compile_clause_eq. unfold hops_of in *.
    destruct (_get_column_or_relationship sch model_cls field relations_map)
      as [e|[[c m] hops]] eqn:Hres; [done|].
    destruct (collect (compile_operator raises field c) ops) as [e|preds]; [done|].
    destruct (collect (compile_clause raises sch model_cls relations_map) params)
      as [e|rest]; [done|].
    intros [= <-] r. cbn [fmap list_fmap fst concat].
    rewrite elem_of_app, (IH rest eq_refl). split.
    + intros [Hr|(f & Hf & Hr)].
      * exists field. split; [apply list_elem_of_here|]. by rewrite Hres.
      * exists f. split; [by apply list_elem_of_further|done].
    + intros (f & Hf & Hr). apply elem_of_cons in Hf as [-> |Hf].
      * left. by rewrite Hres in Hr.
      * right. by exists f.
Qed.

(** What [apply_sorting] adds to the joins when it returns. *)
Lemma sorting_joins query sort_by sort_dir q' :
  UtilsBd.apply_sorting sch model_cls relations_map query sort_by sort_dir = inr q' →
  q_joins q'
  = q_joins query
    ++ map outer_join
         (match sort_by with
          | Some field => hops_of sch model_cls relations_map field
          | None => []
          end).
Proof.
  unfold UtilsBd.apply_sorting.
  destruct (UtilsBd.no_sort sort_by) eqn:Hno.
  - intros [= <-]. destruct sort_by as [s|]; cbn; [|by rewrite app_nil_r].
    destruct s; [|done]. by rewrite hops_of_unqualified, app_nil_r.
  - destruct sort_by as [s|]; [|done]. cbn [default from_option id].
    destruct (negb (str_in (UtilsBd.direction_of sort_dir) ["asc"; "desc"])); [done|].
    unfold hops_of.
    destruct (_get_column_or_relationship sch model_cls s relations_map)
      as [e|[[c m] hops]]; [done|].
    cbn [mbind exn_bind]. rewrite sorting_join_fold. by intros [= <-].
Qed.

(** The compiled joins of a query whose [join] calls are those of the
    filters, [rels], followed by those of the sort. *)
Lemma compiled_joins_needed q' rels clauses filter_params sort_by :
  collect (compile_clause raises sch model_cls relations_map) filter_params
  = inr clauses →
  (∀ r, r ∈ rels ↔ r ∈ concat clauses.*1) →
  q_joins q'
  = map outer_join rels
    ++ map outer_join
         (match sort_by with
          | Some field => hops_of sch model_cls relations_map field
          | None => []
          end) →
  NoDup (compiled_joins q').*1
  ∧ ∀ a, a ∈ (compiled_joins q').*1
         ↔ needed_edge sch model_cls relations_map filter_params sort_by a.
Proof.
  intros Hc Hrels Hq. unfold compiled_joins.
  destruct (compile_joins_spec [] (q_joins q')) as [Hnd Hin].
  split; [done|]. intros a. rewrite Hin, Hq, fmap_app, elem_of_app.
  rewrite !outer_join_targets. unfold needed_edge. split.
  - intros [[(r & Hr & ->)|(r & Hr & ->)] _].
    + apply Hrels, (compiled_hops _ _ Hc) in Hr as (field & Hf & Hr).
      exists field, r. split; [by left|done].
    + destruct sort_by as [field|]; [|by apply elem_of_nil in Hr].
      exists field, r. split; [by right|done].
  - intros (field & r & [Hf|Hs] & Hr & ->); (split; [|apply not_elem_of_nil]).
    + left. exists r. split; [|done].
      apply Hrels, (compiled_hops _ _ Hc). by exists field.
    + right. exists r. by rewrite Hs.
Qed.
End JoinsAfter.

(** C1.  Filters followed by sorting, with the same relations map, on a
    query without joins: when both return, the statement compiled from the
    resulting query has exactly one join per (entity, relationship) pair
    that a filter field or the sort field goes through, and no other join,
    also when several filter clauses and the sort need the same
    relationship.  utils_bd.py calls [join] once per relationship for the
    filters and again for the sort, crud_utils.py calls it for every hop of
    every clause and of the sort; the repeated calls are the same edge to
    SQLAlchemy, which joins it once.  Holds for both modules. *)
Theorem joins_once_per_relationship
        (py_str : pyval → string) (raises : sqlalchemy) (sch : schema)
        (model_cls : string) (relations_map : gmap string RelationshipProperty)
        (filter_params : odict (odict pyval)) (sort_by sort_dir : option string)
        (js : list (InstrumentedAttribute * bool)) :
  utils_bd_joins_after py_str raises sch model_cls relations_map filter_params
    sort_by sort_dir = inr js
  ∨ crud_utils_joins_after raises sch model_cls relations_map filter_params
      sort_by sort_dir = inr js →
  NoDup js.*1
  ∧ ∀ a, a ∈ js.*1 ↔ needed_edge sch model_cls relations_map filter_params sort_by a.
Proof.
  unfold utils_bd_joins_after, crud_utils_joins_after, UtilsBd.apply_filters,
    UtilsBd.apply_filters_from, CrudUtils.apply_filters, CrudUtils.apply_filters_from,
    CrudUtils.apply_sorting.
  assert (joins_from [] [] (UtilsBd.mk_af_state empty_select ∅ ∅)) as Hinit.
  { exists []. cbn. split; [constructor|]. split; [done|].
    split; intros r; by rewrite elem_of_nil, ?elem_of_empty. }
  pose proof (utils_bd_fields py_str raises sch model_cls relations_map filter_params
                [] [] (UtilsBd.mk_af_state empty_select ∅ ∅) Hinit) as Hu.
  pose proof (crud_utils_fields raises sch model_cls relations_map filter_params
                (CrudUtils.mk_af_state empty_select ∅)) as Hc.
  destruct (collect (compile_clause raises sch model_cls relations_map) filter_params)
    as [e|clauses] eqn:Hcl.
  { rewrite Hu, Hc. by intros [?|?]. }
  destruct Hu as (stu & added & -> & (rels & _ & Hju & _ & Hseen) & _).
  destruct Hc as (stc & -> & Hjc & _). cbn [mbind exn_bind mret exn_ret].
  cbn [app] in Hju, Hjc, Hseen.
  intros [H|H].
  - destruct (UtilsBd.apply_sorting sch model_cls relations_map (UtilsBd.af_query stu)
                sort_by sort_dir) as [e|q'] eqn:Hs; [done|].
    cbn in H. injection H as <-.
    apply (compiled_joins_needed raises sch model_cls relations_map q' rels clauses);
      [done|done|].
    by rewrite (sorting_joins _ _ _ _ _ _ _ Hs), Hju.
  - destruct (UtilsBd.apply_sorting sch model_cls relations_map (CrudUtils.af_query stc)
                sort_by sort_dir) as [e|q'] eqn:Hs; [done|].
    cbn in H. injection H as <-.
    apply (compiled_joins_needed raises sch model_cls relations_map q'
             (concat clauses.*1) clauses); [done|done|].
    by rewrite (sorting_joins _ _ _ _ _ _ _ Hs), Hjc.
Qed.

Lemma joins_once_per_relationship_witness :
  let js := [(mk_attr "WebLink" "usuario", true)] in
  NoDup js.*1
  ∧ ∀ a, a ∈ js.*1
         ↔ needed_edge models "WebLink" (property_map models "WebLink")
             [("usuario.nome", [("eq", VStr "a")]);
              ("usuario.email", [("isnull", VBool true)])]
             (Some "usuario.email") a.
Proof.
  intros js.
  apply (joins_once_per_relationship (fun _ => "") models_sqlalchemy models "WebLink"
           (property_map models "WebLink")
           [("usuario.nome", [("eq", VStr "a")]);
            ("usuario.email", [("isnull", VBool true)])]
           (Some "usuario.email") (Some "asc") js).
  right. vm_compute. reflexivity.
Defined.

(** The [join] calls behind that statement: crud_utils.py makes three for
    the one relationship (two filter clauses and the sort), utils_bd.py two
    (the filters once, the sort again). *)
Example join_calls_are_repeated :
  let relations_map := property_map models "WebLink" in
  let filter_params :=
    [("usuario.nome", [("eq", VStr "a")]);
     ("usuario.email", [("isnull", VBool true)])] in
  (q ← CrudUtils.apply_filters models_sqlalchemy models "WebLink" relations_map
         empty_select filter_params;
   q' ← CrudUtils.apply_sorting models "WebLink" relations_map q
          (Some "usuario.email") (Some "asc");
   mret (q_joins q'))
  = inr (replicate 3 (mk_attr "WebLink" "usuario", true))
  ∧ (q ← UtilsBd.apply_filters (fun _ => "") models_sqlalchemy models "WebLink"
           relations_map empty_select filter_params;
     q' ← UtilsBd.apply_sorting models "WebLink" relations_map q
            (Some "usuario.email") (Some "asc");
     mret (q_joins q'))
    = inr (replicate 2 (mk_attr "WebLink" "usuario", true)).
Proof. split; vm_compute; reflexivity. Qed.

(** ** Filters on the columns of the base entity *)

Lemma for_each_related {A A' B} (R : A → A' → Prop)
      (f : A → B → exn + A) (g : A' → B → exn + A') (l : list B) :
  (∀ x a b, x ∈ l → R a b →
     match f a x, g b x with
     | inl e, inl e' => e = e'
     | inr a', inr b' => R a' b'
     | _, _ => False
     end) →
  ∀ a b, R a b →
    match for_each f a l, for_each g b l with
    | inl e, inl e' => e = e'
    | inr a', inr b' => R a' b'
    | _, _ => False
    end.
Proof.
  induction l as [|x l IH]; intros Hstep a b Hab; cbn [for_each]; [done|].
  pose proof (Hstep x a b (list_elem_of_here _ _) Hab) as Hx.
  destruct (f a x) as [e|a'], (g b x) as [e'|b']; try done. cbn [mbind exn_bind].
  apply IH; [|done]. intros y a0 b0 Hy. apply Hstep. by apply list_elem_of_further.
Qed.

Section ColumnFilters.
Context (py_str : pyval → string) (raises : sqlalchemy).
Context (sch : schema) (model_cls : string).

(** A specifier without a dot is looked up on the base entity, and the
    relations map is not consulted. *)
Lemma resolve_unqualified relations_map field :
  PyStr.contains_char "." field = false →
  _get_column_or_relationship sch model_cls field relations_map
  = match getattr sch model_cls field with
    | None => inl (NoSuchAttribute model_cls field field)
    | Some AUnmapped => inl (AttributeError model_cls field)
    | Some (ARelationship _) => inl (RelationshipAsTerminal field field)
    | Some AColumn => inr (mk_attr model_cls field, model_cls, [])
    | Some AForeign => inl (UnexpectedAttributeType field field)
    end.
Proof.
  intros Hdot. unfold _get_column_or_relationship.
  rewrite split_without_sep by (by apply contains_char_forall).
  cbn [resolve_loop]. by destruct (getattr sch model_cls field) as [[| | |]|].
Qed.

Lemma utils_bd_operator_step_column relations_field c st item :
  UtilsBd.operator_step py_str raises relations_field c [] st item
  = match compile_operator raises relations_field c item with
    | inl e => inl e
    | inr p =>
        inr (UtilsBd.mk_af_state
               (q_add_where (UtilsBd.af_query st) p)
               (UtilsBd.already_joined_relationships_for_where st)
               (UtilsBd.applied_loader_criteria_options st))
    end.
Proof.
  destruct item as [op v]. unfold compile_operator, UtilsBd.operator_step.
  cbn [fst snd]. destruct (od_get OPERATOR_MAP (PyStr.lower op)) as [f|]; [|done].
  destruct (coerce_operand op relations_field v) as [e|v']; [done|].
  by destruct (f raises c v').
Qed.

Lemma column_field_steps_agree rm1 rm2 item a b :
  PyStr.contains_char "." item.1 = false →
  same_query a b →
  match UtilsBd.field_step py_str raises sch model_cls rm1 a item,
        CrudUtils.field_step raises sch model_cls rm2 b item with
  | inl e, inl e' => e = e'
  | inr a', inr b' => same_query a' b'
  | _, _ => False
  end.
Proof.
  destruct item as [field ops]. cbn [fst]. intros Hdot Hab.
  rewrite utils_bd_field_step_eq, crud_utils_field_step_eq.
  rewrite !resolve_unqualified by done.
  destruct (getattr sch model_cls field) as [[| | |]|]; try done.
  cbn [foldl].
  apply (for_each_related same_query); [|done].
  intros x a0 b0 _ H0.
  rewrite utils_bd_operator_step_column, crud_utils_operator_step_compile.
  destruct (compile_operator raises field (mk_attr model_cls field) x); [done|].
  unfold same_query in *. cbn. by rewrite H0.
Qed.
End ColumnFilters.

(** X5.  On filter maps whose field specifiers are all without a dot, that
    is, filters on attributes of the base entity itself, the [apply_filters]
    of utils_bd.py and the one of crud_utils.py are the same function: they
    raise the same exception or return the same query, whatever relations
    map each of them is given, since neither looks into it. *)
Theorem column_filters_agree
        (py_str : pyval → string) (raises : sqlalchemy) (sch : schema)
        (model_cls : string)
        (relations_map1 relations_map2 : gmap string RelationshipProperty)
        (query : Select) (filter_params : odict (odict pyval)) :
  (∀ field, field ∈ filter_params.*1 → PyStr.contains_char "." field = false) →
  UtilsBd.apply_filters py_str raises sch model_cls relations_map1 query filter_params
  = CrudUtils.apply_filters raises sch model_cls relations_map2 query filter_params.
Proof.
  intros Hdot.
  unfold UtilsBd.apply_filters, UtilsBd.apply_filters_from,
    CrudUtils.apply_filters, CrudUtils.apply_filters_from.
  pose proof (for_each_related same_query
                (UtilsBd.field_step py_str raises sch model_cls relations_map1)
                (CrudUtils.field_step raises sch model_cls relations_map2)
                filter_params) as H.
  specialize (H (λ item a b Hin Hab,
                   column_field_steps_agree py_str raises sch model_cls
                     relations_map1 relations_map2 item a b
                     (Hdot item.1 (list_elem_of_fmap_2 fst _ _ Hin)) Hab)
                (UtilsBd.mk_af_state query ∅ ∅) (CrudUtils.mk_af_state query ∅)
                eq_refl).
  destruct (for_each (UtilsBd.field_step py_str raises sch model_cls relations_map1)
              (UtilsBd.mk_af_state query ∅ ∅) filter_params) as [e|a],
    (for_each (CrudUtils.field_step raises sch model_cls relations_map2)
       (CrudUtils.mk_af_state query ∅) filter_params) as [e'|b]; try done.
  - by subst.
  - cbn. unfold same_query in H. by rewrite H.
Qed.

Lemma column_filters_agree_witness :
  UtilsBd.apply_filters (fun _ => "") models_sqlalchemy models "WebLink" ∅ empty_select
    [("title", [("ilike", VStr "%a%")]); ("resumo", [("isnull", VBool false)])]
  = CrudUtils.apply_filters models_sqlalchemy models "WebLink"
      (property_map models "WebLink") empty_select
      [("title", [("ilike", VStr "%a%")]); ("resumo", [("isnull", VBool false)])].
Proof.
  apply (column_filters_agree (fun _ => "") models_sqlalchemy models "WebLink"
           ∅ (property_map models "WebLink") empty_select
           [("title", [("ilike", VStr "%a%")]); ("resumo", [("isnull", VBool false)])]).
  intros field Hin. cbn in Hin.
  apply elem_of_cons in Hin as [-> |Hin]; [reflexivity|].
  apply list_elem_of_singleton in Hin as ->. reflexivity.
Defined.
